

(** * go-cidr-pkg: address intervals, CIDR decomposition and interval merge

    A shallow embedding of [go-cidr-pkg.go].  Addresses are Go [net.IP]
    values: big-endian byte slices, modelled as lists of integers in
    [0, 256).  Slice indexing that would fault in Go is modelled by the
    [Panic] outcome; the unbounded [for] loop of [Range.ToIpNets] is driven
    by fuel and reports [OutOfFuel] when the fuel does not suffice.
    [*Range] values live in a heap of [Range] cells addressed by index, so
    that the in-place update performed by [MergeRanges] is visible. *)

From Stdlib Require Import ZArith List Lia Bool Permutation Sorted.
From stdpp Require Import base list.
Import ListNotations.
Local Open Scope Z_scope.

(* ===================================================================== *)
(** ** Outcomes *)
(* ===================================================================== *)

Inductive outcome (A : Type) : Type :=
| Done (a : A)
| Panic
| OutOfFuel.

Arguments Done {A} a.

Arguments Panic {A}.

Arguments OutOfFuel {A}.

Definition obind {A B : Type} (m : outcome A) (f : A -> outcome B) : outcome B :=
  match m with
  | Done a => f a
  | Panic => Panic
  | OutOfFuel => OutOfFuel
  end.

#[global] Instance outcome_bind : MBind outcome := fun A B f m => obind m f.

#[global] Instance outcome_ret : MRet outcome := @Done.

(* ===================================================================== *)
(** ** Data model *)
(* ===================================================================== *)

Definition byte := Z.

(** [net.IP] and [net.IPMask]: byte slices. *)
Definition IP := list byte.

Definition IPMask := list byte.

(** [net.IPNet]. *)
Record IPNet : Type := mkIPNet { IPNet_IP : IP; IPNet_Mask : IPMask }.

(** [Range]; the field [end] is spelled [end_]. *)
Record Range : Type := mkRange { start : IP; end_ : IP }.

Definition IPv4len : Z := 4.

Definition IPv6len : Z := 16.

Definition len {A : Type} (l : list A) : Z := Z.of_nat (length l).

(** A byte is an integer in [0, 256). *)
Definition is_byte (b : Z) : Prop := 0 <= b < 256.

Definition wf_ip (ip : IP) : Prop := Forall is_byte ip.

(** The unsigned big-endian value of an address. *)
Fixpoint ipval (ip : IP) : Z :=
  match ip with
  | [] => 0
  | b :: rest => b * 2 ^ (8 * len rest) + ipval rest
  end.

(* ===================================================================== *)
(** ** Library functions used by the package *)
(* ===================================================================== *)

(** [bytes.Compare]: lexicographic comparison of byte slices. *)
Fixpoint bytesCompare (a b : list byte) : comparison :=
  match a, b with
  | [], [] => Eq
  | [], _ :: _ => Lt
  | _ :: _, [] => Gt
  | x :: a', y :: b' =>
      match x ?= y with
      | Eq => bytesCompare a' b'
      | c => c
      end
  end.

(** [bits.LeadingZeros8] and [bits.TrailingZeros8]. *)
Definition Len8 (b : byte) : Z := if b =? 0 then 0 else Z.log2 b + 1.

Definition LeadingZeros8 (b : byte) : Z := 8 - Len8 b.

Fixpoint ctz (n : nat) (x : Z) : Z :=
  match n with
  | O => 0
  | S n' => if Z.odd x then 0 else 1 + ctz n' (x / 2)
  end.

Definition TrailingZeros8 (b : byte) : Z := if b =? 0 then 8 else ctz 8 b.

(** The filling loop of [net.CIDRMask]: [l] bytes, the first [n] bits set. *)
Fixpoint cidr_bytes (n : Z) (l : nat) : IPMask :=
  match l with
  | O => []
  | S l' =>
      if 8 <=? n then 255 :: cidr_bytes (n - 8) l'
      else (255 - Z.shiftr 255 n) :: cidr_bytes 0 l'
  end.

(** [net.CIDRMask]: [nil] unless [bits] is 32 or 128 and [0 <= ones <= bits]. *)
Definition CIDRMask (ones bits : Z) : IPMask :=
  if negb (bits =? 8 * IPv4len) && negb (bits =? 8 * IPv6len) then []
  else if (ones <? 0) || (bits <? ones) then []
  else cidr_bytes ones (Z.to_nat (bits / 8)).

(* ===================================================================== *)
(** ** Address arithmetic primitives *)
(* ===================================================================== *)

(** [addOne]: the loop runs from the last byte towards the first and stops
    at the first byte that does not wrap to zero.  The boolean is [true]
    while the loop is still running when it leaves the suffix. *)
Fixpoint addOne_aux (ip : IP) : IP * bool :=
  match ip with
  | [] => ([], true)
  | b :: rest =>
      let '(rest', running) := addOne_aux rest in
      if running then
        let b' := (b + 1) mod 256 in
        (b' :: rest', b' =? 0)
      else (b :: rest', false)
  end.

Definition addOne (ip : IP) : IP := fst (addOne_aux ip).

(** [lastIp]: [ip[i] |= ^mask[i]] for every index of [ip]; indexing a
    shorter mask faults. *)
Fixpoint lastIp_bytes (ip : IP) (mask : IPMask) : outcome IP :=
  match ip with
  | [] => Done []
  | b :: rest =>
      match mask with
      | [] => Panic
      | m :: mask' =>
          rest' ← lastIp_bytes rest mask';
          Done (Z.lor b (255 - m) :: rest')
      end
  end.

Definition lastIp (ipNet : IPNet) : outcome IP :=
  lastIp_bytes (IPNet_IP ipNet) (IPNet_Mask ipNet).

(** [prefixLength]: index of the first set bit counted from the top. *)
Fixpoint prefixLength_from (i : Z) (x : IP) : Z :=
  match x with
  | [] => i * 8
  | b :: rest =>
      if negb (b =? 0) then i * 8 + LeadingZeros8 b
      else prefixLength_from (i + 1) rest
  end.

Definition prefixLength (x : IP) : Z := prefixLength_from 0 x.

(** [trailingZeros]: the loop runs from the last byte towards the first;
    [None] means that the suffix holds no non-zero byte. *)
Fixpoint trailingZeros_aux (ip : IP) : option Z :=
  match ip with
  | [] => None
  | b :: rest =>
      match trailingZeros_aux rest with
      | Some k => Some k
      | None =>
          if negb (b =? 0) then Some (len rest * 8 + TrailingZeros8 b)
          else None
      end
  end.

Definition trailingZeros (ip : IP) : Z :=
  match trailingZeros_aux ip with
  | Some k => k
  | None => len ip * 8
  end.

(** [xor]: indexes [b] with every index of [a]. *)
Fixpoint xor (a b : IP) : outcome IP :=
  match a with
  | [] => Done []
  | x :: a' =>
      match b with
      | [] => Panic
      | y :: b' => r ← xor a' b'; Done (Z.lxor x y :: r)
      end
  end.

Definition lessThan (a b : IP) : bool :=
  match bytesCompare a b with Lt => true | _ => false end.

Definition allFF (mask : IPMask) : bool := forallb (fun b => b =? 255) mask.

Definition max (a b : Z) : Z := if a >? b then a else b.

(* ===================================================================== *)
(** ** Range.ToIpNets and its siblings *)
(* ===================================================================== *)

Fixpoint ToIpNets_loop (fuel : nat) (s end' : IP) (ipBits : Z)
    (result : list IPNet) : outcome (list IPNet) :=
  match fuel with
  | O => OutOfFuel
  | S fuel' =>
      match bytesCompare s end' with
      | Gt => Done result
      | _ =>
          x ← xor (addOne end') s;
          let cidr := max (prefixLength x) (ipBits - trailingZeros s) in
          let ipNet := mkIPNet s (CIDRMask cidr ipBits) in
          let result := result ++ [ipNet] in
          tmp ← lastIp ipNet;
          if negb (lessThan tmp end') then Done result
          else ToIpNets_loop fuel' (addOne tmp) end' ipBits result
      end
  end.

Definition Range_ToIpNets_fuel (fuel : nat) (r : Range) : outcome (list IPNet) :=
  ToIpNets_loop fuel (start r) (end_ r) (len (start r) * 8) [].

(** Fuel that always suffices for a 4- or 16-byte interval (see
    [ToIpNets_fuel_enough] below, which shows that any larger amount gives
    the same answer). *)
Definition enough_fuel (r : Range) : nat := S (S (8 * length (start r))).

Definition Range_ToIpNets (r : Range) : outcome (list IPNet) :=
  Range_ToIpNets_fuel (enough_fuel r) r.

(** [Range.ToIp]: [r.start] when [bytes.Equal] holds, [nil] otherwise.
    The model does not tell a [nil] slice from an empty one: the result
    [nil] is [None], and an empty [start], returned as it is by the code,
    is [None] too. *)
Definition Range_ToIp (r : Range) : option IP :=
  match bytesCompare (start r) (end_ r) with
  | Eq => match start r with
          | [] => None
          | _ :: _ => Some (start r)
          end
  | _ => None
  end.

Definition IpWrapper_ToIpNets (ip : IP) : list IPNet :=
  let ipBits := len ip * 8 in
  [mkIPNet ip (CIDRMask ipBits ipBits)].

Definition IpWrapper_ToRange (ip : IP) : Range := mkRange ip ip.

Definition IpNetWrapper_ToIpNets (n : IPNet) : list IPNet := [n].

Definition IpNetWrapper_ToRange (n : IPNet) : outcome Range :=
  e ← lastIp n; Done (mkRange (IPNet_IP n) e).

(** [IpNetWrapper.ToIp]: the base address when the mask is all ones,
    [nil] otherwise; an empty base address is [None], as in [Range_ToIp]. *)
Definition IpNetWrapper_ToIp (n : IPNet) : option IP :=
  if allFF (IPNet_Mask n)
  then match IPNet_IP n with
       | [] => None
       | _ :: _ => Some (IPNet_IP n)
       end
  else None.

(* ===================================================================== *)
(** ** Checks over all bytes *)
(* ===================================================================== *)

(** Facts about single bytes are checked by running over all 256 of them. *)
Definition byte_range : list Z := List.map Z.of_nat (List.seq 0 256).

Definition tz8_ok (b : Z) : bool :=
  (b =? 0) ||
  (let t := TrailingZeros8 b in
   (0 <=? t) && (t <=? 7) && (b mod 2 ^ t =? 0) && Z.odd (b / 2 ^ t)).

Definition lor_ok (b : Z) : bool :=
  List.forallb
    (fun n => Z.lor b (255 - (255 - Z.shiftr 255 n))
              =? b / 2 ^ (8 - n) * 2 ^ (8 - n) + 2 ^ (8 - n) - 1)
    [0; 1; 2; 3; 4; 5; 6; 7].

(* ===================================================================== *)
(** ** Network blocks and intervals *)
(* ===================================================================== *)

(** The number of leading one bits of a mask, as [IPMask.Size] reports it
    for a mask built by [net.CIDRMask]. *)
Fixpoint maskOnes (m : IPMask) : Z :=
  match m with
  | [] => 0
  | b :: rest =>
      if b =? 255 then 8 + maskOnes rest else LeadingZeros8 (255 - b)
  end.

Definition prefixLen (n : IPNet) : Z := maskOnes (IPNet_Mask n).

Definition bitWidth (ip : IP) : Z := 8 * len ip.

(** The two address families. *)
Definition family (ip : IP) : Prop := length ip = 4%nat \/ length ip = 16%nat.

(** Alignment: all bits below the prefix length are zero. *)
Definition aligned (n : IPNet) : Prop :=
  forall i, 0 <= i < bitWidth (IPNet_IP n) - prefixLen n ->
            Z.testbit (ipval (IPNet_IP n)) i = false.

(** The addresses of a block: from its base to [lastIp]. *)
Definition in_block (n : IPNet) (a : Z) : Prop :=
  exists l, lastIp n = Done l /\ ipval (IPNet_IP n) <= a <= ipval l.

Definition in_range (r : Range) (a : Z) : Prop :=
  ipval (start r) <= a <= ipval (end_ r).

Definition wf_range (r : Range) : Prop :=
  wf_ip (start r) /\ wf_ip (end_ r) /\ length (start r) = length (end_ r).

(* ===================================================================== *)
(** ** The measure of the decomposition loop *)
(* ===================================================================== *)

(** The number of iterations still possible from [s]: the loop raises the
    number of trailing zero bits of [s] at every turn, except for the
    first turn of the whole address space. *)
Definition mu (s e : IP) : Z :=
  if ipval s =? 0 then
    if ipval e =? 2 ^ bitWidth e - 1 then bitWidth e + 1 else 1
  else bitWidth s - trailingZeros s.

(** What the loop guarantees for each block it emits while working
    towards [e]. *)
Definition emitted (e : IP) (n : IPNet) : Prop :=
  wf_ip (IPNet_IP n) /\ length (IPNet_IP n) = length e /\
  ipval (IPNet_IP n) <= ipval e /\
  exists p, 0 <= p <= bitWidth e /\
            IPNet_Mask n = cidr_bytes p (length e) /\
            ipval (IPNet_IP n) mod 2 ^ (bitWidth e - p) = 0.

(** A well-formed interval of one of the two address families. *)
Definition wf_interval (r : Range) : Prop :=
  wf_range r /\ family (start r).

(** The union of the blocks of a list. *)
Definition covered (l : list IPNet) (a : Z) : Prop :=
  Exists (fun n => in_block n a) l.

(* ===================================================================== *)
(** ** The heap of Range cells and the variant representation *)
(* ===================================================================== *)

(** A [*Range] is the index of a cell in the heap. *)
Abbreviation loc := nat (only parsing).

Abbreviation heap := (list Range) (only parsing).

(** The three implementations of [IRange]. *)
Inductive IRange : Type :=
| IRange_Range (p : loc)
| IRange_IpWrapper (ip : IP)
| IRange_IpNetWrapper (n : IPNet).

(** Reading through a [*Range]; a pointer to no cell faults. *)
Definition deref (h : heap) (p : loc) : outcome Range :=
  match h !! p with
  | Some r => Done r
  | None => Panic
  end.

(** [&Range{...}]: a fresh cell. *)
Definition alloc (r : Range) (h : heap) : loc * heap := (length h, h ++ [r]).

(** [ToRange] of the three shapes: a [*Range] returns itself, the wrappers
    build a new [Range]. *)
Definition ToRange (x : IRange) (h : heap) : outcome (loc * heap) :=
  match x with
  | IRange_Range p => Done (p, h)
  | IRange_IpWrapper ip => Done (alloc (IpWrapper_ToRange ip) h)
  | IRange_IpNetWrapper n =>
      r ← IpNetWrapper_ToRange n; Done (alloc r h)
  end.

(** The first loop of [MergeRanges]. *)
Fixpoint toRangeList (ranges : list IRange) (rangeList : list loc) (h : heap)
    : outcome (list loc * heap) :=
  match ranges with
  | [] => Done (rangeList, h)
  | r :: ranges' =>
      '(p, h') ← ToRange r h;
      toRangeList ranges' (rangeList ++ [p]) h'
  end.

(** The comparison handed to [sort.Slice]. *)
Definition less (h : heap) (a b : loc) : bool :=
  match h !! a, h !! b with
  | Some ra, Some rb =>
      match bytesCompare (start ra) (start rb) with Lt => true | _ => false end
  | _, _ => false
  end.

(** [sort.Slice] is a parameter [sortSlice] of the model.  With two or
    more elements the comparison reads every cell, so a pointer to no cell
    faults. *)
Definition sortRangeList (sortSlice : (loc -> loc -> bool) -> list loc -> list loc)
    (h : heap) (rangeList : list loc) : outcome (list loc) :=
  if (2 <=? length rangeList)%nat
     && negb (forallb (fun p => bool_decide (is_Some (h !! p))) rangeList)
  then Panic
  else Done (sortSlice (less h) rangeList).

(** The second loop of [MergeRanges]; [rest] holds [rangeList[i:]]. *)
Fixpoint merge_loop (rest : list loc) (current : loc) (result : list IRange)
    (h : heap) : outcome (list IRange * heap) :=
  match rest with
  | [] => Done (result ++ [IRange_Range current], h)
  | next :: rest' =>
      c ← deref h current;
      n ← deref h next;
      match bytesCompare (addOne (end_ c)) (start n) with
      | Lt => merge_loop rest' next (result ++ [IRange_Range current]) h
      | _ =>
          match bytesCompare (end_ c) (end_ n) with
          | Lt => merge_loop rest' current result
                    (<[current := mkRange (start c) (end_ n)]> h)
          | _ => merge_loop rest' current result h
          end
      end
  end.

Definition MergeRanges (sortSlice : (loc -> loc -> bool) -> list loc -> list loc)
    (ranges : list IRange) (h : heap) : outcome (list IRange * heap) :=
  match ranges with
  | [] => Done (ranges, h)
  | _ :: _ =>
      '(rangeList, h1) ← toRangeList ranges [] h;
      sorted ← sortRangeList sortSlice h1 rangeList;
      match sorted with
      | [] => Panic
      | current :: rest => merge_loop rest current [] h1
      end
  end.

(* ===================================================================== *)
(** ** What sort.Slice promises *)
(* ===================================================================== *)

(** What [sort.Slice] promises: the result is a permutation of the slice
    and, when the comparison is that of an integer key, it is ordered by
    the key. *)
Definition sort_permutes (sortSlice : (loc -> loc -> bool) -> list loc -> list loc)
    : Prop :=
  forall lt l, Permutation l (sortSlice lt l).

Definition sort_orders (sortSlice : (loc -> loc -> bool) -> list loc -> list loc)
    : Prop :=
  forall (key : loc -> Z) lt l,
    (forall a b, List.In a l -> List.In b l -> lt a b = (key a <? key b)) ->
    StronglySorted (fun a b => key a <= key b) (sortSlice lt l).

(** No element is smaller than the one before it. *)
Fixpoint no_descent (lt : loc -> loc -> bool) (l : list loc) : Prop :=
  match l with
  | a :: (b :: _) as l' => lt b a = false /\ no_descent lt l'
  | _ => True
  end.

(** A slice without descent is left as it is; insertion sort and the
    pattern-defeating quicksort of the library both find nothing to move. *)
Definition sort_keeps_sorted (sortSlice : (loc -> loc -> bool) -> list loc -> list loc)
    : Prop :=
  forall lt l, no_descent lt l -> sortSlice lt l = l.

(** The insertion sort that [sort.Slice] runs on short slices: every
    element moves towards the front while it is smaller than its left
    neighbour.  [sorted_rev] is the part already sorted, last element
    first. *)
Fixpoint insert_back (lt : loc -> loc -> bool) (x : loc) (sorted_rev : list loc)
    : list loc :=
  match sorted_rev with
  | [] => [x]
  | y :: rest => if lt x y then y :: insert_back lt x rest else x :: sorted_rev
  end.

Definition insertionSort (lt : loc -> loc -> bool) (l : list loc) : list loc :=
  rev (fold_left (fun acc x => insert_back lt x acc) l []).

(* ===================================================================== *)
(** ** Collections of intervals *)
(* ===================================================================== *)

(** The interval an [IRange] stands for, without allocating. *)
Definition normalize (h : heap) (x : IRange) : outcome Range :=
  match x with
  | IRange_Range p => deref h p
  | IRange_IpWrapper ip => Done (IpWrapper_ToRange ip)
  | IRange_IpNetWrapper n => IpNetWrapper_ToRange n
  end.

(** The union of the intervals of a collection. *)
Definition covers (h : heap) (xs : list IRange) (a : Z) : Prop :=
  exists x r, List.In x xs /\ normalize h x = Done r /\ in_range r a.

(** A well-formed interval of [n]-byte addresses with [start <= end]. *)
Definition wf_cell (n : nat) (r : Range) : Prop :=
  wf_ip (start r) /\ wf_ip (end_ r) /\
  length (start r) = n /\ length (end_ r) = n /\
  ipval (start r) <= ipval (end_ r).

(** A collection of well-formed intervals of one address length. *)
Definition wf_inputs (n : nat) (h : heap) (xs : list IRange) : Prop :=
  forall x, List.In x xs -> exists r, normalize h x = Done r /\ wf_cell n r.

(* ===================================================================== *)
(** ** Invariants of the merge loop *)
(* ===================================================================== *)

(** The last address of the [n]-byte family. *)
Definition top (n : nat) : Z := 2 ^ (8 * Z.of_nat n) - 1.

(** A valid pointer to a well-formed cell whose start value is [key p]. *)
Definition cell_ok (n : nat) (key : loc -> Z) (h : heap) (p : loc) : Prop :=
  exists r, h !! p = Some r /\ wf_cell n r /\ ipval (start r) = key p.

Definition rend (h : heap) (p : loc) : Z :=
  match h !! p with
  | Some r => ipval (end_ r)
  | None => 0
  end.

Definition rstart (h : heap) (p : loc) : Z :=
  match h !! p with
  | Some r => ipval (start r)
  | None => 0
  end.

(** [b] follows [a] in the output: the adjacency test of the loop failed
    for them. *)
Definition link (n : nat) (key : loc -> Z) (h : heap) (a b : loc) : Prop :=
  key a <= key b /\ (rend h a + 1) mod 2 ^ (8 * Z.of_nat n) < key b.

Fixpoint chain_rev (n : nat) (key : loc -> Z) (h : heap) (cur : loc)
    (rres : list loc) : Prop :=
  match rres with
  | [] => True
  | a :: rres' => link n key h a cur /\ chain_rev n key h a rres'
  end.

Fixpoint chain (n : nat) (key : loc -> Z) (h : heap) (l : list loc) : Prop :=
  match l with
  | a :: (b :: _) as l' => link n key h a b /\ chain n key h l'
  | _ => True
  end.

Definition covered_by (h : heap) (p : loc) (a : Z) : Prop :=
  exists r, h !! p = Some r /\ in_range r a.

Definition covers_locs (h : heap) (ps : list loc) (a : Z) : Prop :=
  exists p, List.In p ps /\ covered_by h p a.

(** [b] comes after [a] and is kept apart from it: the adjacency test,
    with its wrapping increment, fails for them; they are disjoint and
    not adjacent unless [a] ends at the last address. *)
Definition separated (n : nat) (h : heap) (a b : loc) : Prop :=
  exists ra rb,
    h !! a = Some ra /\ h !! b = Some rb /\
    ipval (start ra) <= ipval (start rb) /\
    (ipval (end_ ra) + 1) mod 2 ^ (8 * Z.of_nat n) < ipval (start rb) /\
    (ipval (end_ ra) <> top n -> ipval (end_ ra) + 1 < ipval (start rb)).

(* ===================================================================== *)
(** ** Concrete inputs *)
(* ===================================================================== *)

Ltac wf_bytes :=
  unfold wf_ip; repeat (constructor; [unfold is_byte; lia|]); constructor.

Ltac wf_interval_tac :=
  split; [split; [wf_bytes|split; [wf_bytes|reflexivity]]|left; reflexivity].

Ltac le_by_compute := unfold Z.le; vm_compute; discriminate.

Definition whole_v4 : Range := mkRange [0;0;0;0] [255;255;255;255].

Definition whole_v4_blocks : list IPNet :=
  Eval vm_compute in
    match Range_ToIpNets whole_v4 with Done l => l | _ => [] end.

(** The heap of the third scenario of the specification, the intervals
    being handed in as [*Range]. *)
Definition heap_scenario3 : list Range :=
  [ mkRange [192;168;1;1] [192;168;1;50];
    mkRange [192;168;1;30] [192;168;1;100];
    mkRange [192;168;2;1] [192;168;2;50] ].

Definition heap_top : list Range :=
  [ mkRange [0;0;0;0] [255;255;255;255];
    mkRange [10;0;0;0] [10;0;0;5] ].

Definition inputs_mixed : list IRange :=
  [ IRange_IpWrapper [10;0;0;10];
    IRange_IpNetWrapper (mkIPNet [10;0;0;0] [255;255;255;248]);
    IRange_Range 1%nat;
    IRange_IpWrapper [10;0;0;8];
    IRange_Range 0%nat ].

(* ===================================================================== *)
(** ** Tilings by network blocks *)
(* ===================================================================== *)

(** The blocks of [l] follow one another without gap or overlap: the first
    starts at [s], every block but the last ends before [e], and the last
    one ends at [L]. *)
Inductive tiles (e : Z) : Z -> list IPNet -> Z -> Prop :=
| tiles_last (n : IPNet) (t : IP) :
    lastIp n = Done t ->
    ipval (IPNet_IP n) <= ipval t ->
    tiles e (ipval (IPNet_IP n)) [n] (ipval t)
| tiles_more (n : IPNet) (t : IP) (l : list IPNet) (L : Z) :
    lastIp n = Done t ->
    ipval (IPNet_IP n) <= ipval t -> ipval t < e ->
    tiles e (ipval t + 1) l L ->
    tiles e (ipval (IPNet_IP n)) (n :: l) L.

(** The intervals behind a list of pointers, as pairs of values. *)
Definition interval_values (h : list Range) (ps : list nat) : list (Z * Z) :=
  List.map (fun p => (rstart h p, rend h p)) ps.

(** A list of intervals in canonical form: every interval has
    [start <= end], and every interval ends more than one address before
    each later one starts, so that the list is ordered and its intervals
    are disjoint and not adjacent. *)
Definition canonical (l : list (Z * Z)) : Prop :=
  List.Forall (fun iv => fst iv <= snd iv) l /\
  ForallOrdPairs (fun a b => snd a + 1 < fst b) l.

(** The addresses of a list of intervals given by their values. *)
Definition values_cover (l : list (Z * Z)) (a : Z) : Prop :=
  exists iv, List.In iv l /\ fst iv <= a <= snd iv.

(** No interval of the collection ends at the last address. *)
Definition below_top (n : nat) (h : list Range) (xs : list IRange) : Prop :=
  forall x r, List.In x xs -> normalize h x = Done r -> ipval (end_ r) <> top n.

(** Concrete inputs for the further properties. *)
Definition single_10_0_0_7 : IPNet := mkIPNet [10;0;0;7] [255;255;255;255].

Definition short_mask_net : IPNet := mkIPNet [10;0;0;0] [255;255].



(* ===================================================================== *)
(** ** Concrete runs *)
(* ===================================================================== *)

Example run_192_168_1 :
  Range_ToIpNets (mkRange [192;168;1;0] [192;168;1;255])
  = Done [mkIPNet [192;168;1;0] [255;255;255;0]].
Proof. vm_compute. reflexivity. Qed.

Example run_10_0_0_5 :
  Range_ToIpNets (mkRange [10;0;0;5] [10;0;0;5])
  = Done [mkIPNet [10;0;0;5] [255;255;255;255]].
Proof. vm_compute. reflexivity. Qed.

(** The run of the README: [2001:200:141::] to
    [2001:200:142:ffff:ffff:ffff:ffff:ffff] gives [2001:200:141::/48] and
    [2001:200:142::/47]. *)
Example run_2001_200_141 :
  Range_ToIpNets
    (mkRange [32;1;2;0;1;65;0;0;0;0;0;0;0;0;0;0]
             [32;1;2;0;1;66;255;255;255;255;255;255;255;255;255;255])
  = Done [ mkIPNet [32;1;2;0;1;65;0;0;0;0;0;0;0;0;0;0]
                   [255;255;255;255;255;255;0;0;0;0;0;0;0;0;0;0];
           mkIPNet [32;1;2;0;1;66;0;0;0;0;0;0;0;0;0;0]
                   [255;255;255;255;255;254;0;0;0;0;0;0;0;0;0;0] ].
Proof. vm_compute. reflexivity. Qed.

(** Addresses of another length find no mask: [net.CIDRMask] returns
    [nil] and [lastIp] faults. *)
Example run_two_bytes :
  Range_ToIpNets (mkRange [1;2] [1;3]) = Panic.
Proof. vm_compute. reflexivity. Qed.

(** Two adjacent intervals are merged into one; an empty collection is
    returned as it is. *)
Example merge_adjacent :
  MergeRanges insertionSort [IRange_Range 0%nat; IRange_Range 1%nat]
    [mkRange [10;0;0;0] [10;0;0;9]; mkRange [10;0;0;10] [10;0;0;20]]
  = Done ([IRange_Range 0%nat],
          [mkRange [10;0;0;0] [10;0;0;20]; mkRange [10;0;0;10] [10;0;0;20]]).
Proof. vm_compute. reflexivity. Qed.

Example merge_empty (h : list Range) :
  MergeRanges insertionSort [] h = Done ([], h).
Proof. reflexivity. Qed.

(* ===================================================================== *)
(** ** Bytes and values *)
(* ===================================================================== *)

Lemma len_nil {A : Type} : len (@nil A) = 0.
Proof. reflexivity. Qed.

Lemma len_cons {A : Type} (x : A) (l : list A) : len (x :: l) = len l + 1.
Proof. unfold len. cbn [length]. lia. Qed.

Lemma len_nonneg {A : Type} (l : list A) : 0 <= len l.
Proof. unfold len. lia. Qed.

Lemma len_eq {A B : Type} (l : list A) (l' : list B) :
  length l = length l' -> len l = len l'.
Proof. unfold len. intros ->. reflexivity. Qed.

Lemma pow2_pos (n : Z) : 0 <= n -> 0 < 2 ^ n.
Proof. intros. apply Z.pow_pos_nonneg; lia. Qed.

Lemma pow2_split (a b : Z) : 0 <= a -> 0 <= b -> 2 ^ (a + b) = 2 ^ a * 2 ^ b.
Proof. intros. apply Z.pow_add_r; lia. Qed.

Lemma pow2_le (a b : Z) : 0 <= a <= b -> 2 ^ a <= 2 ^ b.
Proof. intros. apply Z.pow_le_mono_r; lia. Qed.

Lemma pow2_step (n : Z) : 0 <= n -> 2 ^ (8 * (n + 1)) = 256 * 2 ^ (8 * n).
Proof.
  intros. replace (8 * (n + 1)) with (8 + 8 * n) by lia.
  rewrite pow2_split by lia. reflexivity.
Qed.

Lemma wf_ip_cons (b : Z) (ip : IP) : wf_ip (b :: ip) <-> is_byte b /\ wf_ip ip.
Proof. unfold wf_ip. apply Forall_cons_iff. Qed.

Lemma ipval_cons (b : Z) (ip : IP) :
  ipval (b :: ip) = b * 2 ^ (8 * len ip) + ipval ip.
Proof. reflexivity. Qed.

Lemma ipval_bound (ip : IP) : wf_ip ip -> 0 <= ipval ip < 2 ^ (8 * len ip).
Proof.
  induction ip as [|b rest IH]; intros Hwf.
  - unfold len. simpl. lia.
  - apply wf_ip_cons in Hwf as [Hb Hrest]. specialize (IH Hrest).
    rewrite ipval_cons, len_cons, pow2_step by apply len_nonneg.
    unfold is_byte in Hb.
    generalize dependent (2 ^ (8 * len rest)). intros P IH. nia.
Qed.

(** Division of a value split at a byte boundary. *)
Lemma div_combine (b v M H : Z) :
  0 <= H <= M -> (b * 2 ^ M + v) / 2 ^ H = b * 2 ^ (M - H) + v / 2 ^ H.
Proof.
  intros HM. replace M with ((M - H) + H) at 1 by lia.
  rewrite pow2_split by lia. rewrite Z.mul_assoc.
  rewrite Z.div_add_l; [reflexivity|]. pose proof (pow2_pos H). lia.
Qed.

Lemma testbit_combine (b v M i : Z) :
  0 <= M -> 0 <= v < 2 ^ M -> 0 <= i ->
  Z.testbit (b * 2 ^ M + v) i =
  if i <? M then Z.testbit v i else Z.testbit b (i - M).
Proof.
  intros HM Hv Hi. destruct (Z.ltb_spec i M) as [Hlt|Hge].
  - rewrite !Z.testbit_odd, !Z.shiftr_div_pow2 by lia.
    rewrite div_combine by lia.
    replace (M - i) with (1 + (M - i - 1)) by lia.
    rewrite pow2_split by lia. change (2 ^ 1) with 2.
    rewrite Z.add_comm.
    replace (v / 2 ^ i + b * (2 * 2 ^ (M - i - 1)))
      with (v / 2 ^ i + 2 * (b * 2 ^ (M - i - 1))) by ring.
    apply Z.odd_add_mul_2.
  - rewrite !Z.testbit_odd, !Z.shiftr_div_pow2 by lia.
    replace i with (M + (i - M)) at 1 by lia.
    rewrite pow2_split by lia.
    rewrite <- Z.div_div by (try apply pow2_pos; lia).
    rewrite Z.add_comm, Z.div_add by (pose proof (pow2_pos M); lia).
    rewrite (Z.div_small v (2 ^ M)) by lia. reflexivity.
Qed.

Lemma lxor_combine (b1 b2 v1 v2 M : Z) :
  0 <= M -> 0 <= v1 < 2 ^ M -> 0 <= v2 < 2 ^ M -> 0 <= Z.lxor v1 v2 < 2 ^ M ->
  Z.lxor (b1 * 2 ^ M + v1) (b2 * 2 ^ M + v2) =
  Z.lxor b1 b2 * 2 ^ M + Z.lxor v1 v2.
Proof.
  intros HM H1 H2 H3. apply Z.bits_inj'. intros i Hi.
  rewrite Z.lxor_spec, !testbit_combine by lia.
  destruct (i <? M); rewrite Z.lxor_spec; reflexivity.
Qed.

Lemma lxor_byte (x y : Z) : is_byte x -> is_byte y -> is_byte (Z.lxor x y).
Proof.
  unfold is_byte. intros Hx Hy. split.
  - apply Z.lxor_nonneg. lia.
  - destruct (Z.eq_dec (Z.lxor x y) 0) as [->|Hne]; [lia|].
    assert (0 <= Z.lxor x y) by (apply Z.lxor_nonneg; lia).
    apply (Z.log2_lt_pow2 _ 8); [lia|].
    pose proof (Z.log2_lxor x y ltac:(lia) ltac:(lia)) as Hl.
    assert (Z.log2 x < 8).
    { destruct (Z.eq_dec x 0) as [->|]; [cbn; lia|].
      apply Z.log2_lt_pow2; lia. }
    assert (Z.log2 y < 8).
    { destruct (Z.eq_dec y 0) as [->|]; [cbn; lia|].
      apply Z.log2_lt_pow2; lia. }
    lia.
Qed.

(* ===================================================================== *)
(** ** Facts about single bytes *)
(* ===================================================================== *)

Lemma byte_range_complete (b : Z) : is_byte b -> List.In b byte_range.
Proof.
  unfold is_byte, byte_range. intros Hb. apply List.in_map_iff.
  exists (Z.to_nat b). split; [lia|]. apply List.in_seq. lia.
Qed.

Lemma forall_bytes (P : Z -> bool) :
  List.forallb P byte_range = true -> forall b, is_byte b -> P b = true.
Proof.
  intros HP b Hb. rewrite List.forallb_forall in HP.
  apply HP, byte_range_complete, Hb.
Qed.

Lemma TrailingZeros8_spec (b : Z) :
  is_byte b -> b <> 0 ->
  0 <= TrailingZeros8 b <= 7 /\
  b mod 2 ^ TrailingZeros8 b = 0 /\
  Z.odd (b / 2 ^ TrailingZeros8 b) = true.
Proof.
  intros Hb Hne.
  assert (H : tz8_ok b = true).
  { apply forall_bytes; [vm_compute; reflexivity | exact Hb]. }
  unfold tz8_ok in H. cbv zeta in H.
  apply orb_true_iff in H as [H|H]; [lia|].
  rewrite !andb_true_iff in H. destruct H as [[[H1 H2] H3] H4].
  repeat split; try lia; assumption.
Qed.

Lemma LeadingZeros8_spec (b : Z) :
  is_byte b -> b <> 0 ->
  0 <= LeadingZeros8 b <= 7 /\ b < 2 ^ (8 - LeadingZeros8 b).
Proof.
  unfold is_byte, LeadingZeros8, Len8. intros Hb Hne.
  destruct (Z.eqb_spec b 0) as [|_]; [contradiction|].
  pose proof (Z.log2_nonneg b).
  assert (Z.log2 b < 8) by (apply Z.log2_lt_pow2; lia).
  split; [lia|].
  replace (8 - (8 - (Z.log2 b + 1))) with (Z.succ (Z.log2 b)) by lia.
  apply Z.log2_spec. lia.
Qed.

Lemma lor_partial_mask (b n : Z) :
  is_byte b -> 0 <= n < 8 ->
  Z.lor b (255 - (255 - Z.shiftr 255 n)) =
  b / 2 ^ (8 - n) * 2 ^ (8 - n) + 2 ^ (8 - n) - 1.
Proof.
  intros Hb Hn.
  assert (H : lor_ok b = true).
  { apply forall_bytes; [vm_compute; reflexivity | exact Hb]. }
  unfold lor_ok in H. rewrite List.forallb_forall in H.
  apply Z.eqb_eq, H.
  assert (n = 0 \/ n = 1 \/ n = 2 \/ n = 3 \/ n = 4 \/ n = 5 \/ n = 6 \/ n = 7)
    as Hcases by lia.
  cbn [List.In]. intuition auto.
Qed.

(* ===================================================================== *)
(** ** Specifications of the primitives *)
(* ===================================================================== *)

Lemma bytesCompare_spec (a b : IP) :
  wf_ip a -> wf_ip b -> length a = length b ->
  bytesCompare a b = (ipval a ?= ipval b).
Proof.
  revert b. induction a as [|x a IH]; intros [|y b] Ha Hb Hlen;
    try discriminate.
  - reflexivity.
  - apply wf_ip_cons in Ha as [Hx Ha]. apply wf_ip_cons in Hb as [Hy Hb].
    injection Hlen as Hlen.
    pose proof (ipval_bound a Ha) as Ba. pose proof (ipval_bound b Hb) as Bb.
    cbn [bytesCompare]. rewrite !ipval_cons.
    rewrite <- (len_eq a b Hlen) in *.
    generalize dependent (2 ^ (8 * len a)). intros P Ba Bb.
    destruct (Z.compare_spec x y) as [->|Hlt|Hgt].
    + rewrite (IH b Ha Hb Hlen). symmetry. apply Z.add_compare_mono_l.
    + symmetry. apply Z.compare_lt_iff. nia.
    + symmetry. apply Z.compare_gt_iff. nia.
Qed.

Lemma lessThan_spec (a b : IP) :
  wf_ip a -> wf_ip b -> length a = length b ->
  lessThan a b = (ipval a <? ipval b).
Proof.
  intros Ha Hb Hlen. unfold lessThan, Z.ltb.
  rewrite (bytesCompare_spec a b Ha Hb Hlen). reflexivity.
Qed.

Lemma addOne_aux_spec (ip r : IP) (c : bool) :
  wf_ip ip -> addOne_aux ip = (r, c) ->
  wf_ip r /\ length r = length ip /\
  ipval r + (if c then 2 ^ (8 * len ip) else 0) = ipval ip + 1.
Proof.
  revert r c. induction ip as [|b rest IH]; intros r c Hwf Heq.
  - cbn in Heq. injection Heq as <- <-.
    split; [constructor|]. split; [reflexivity|].
    unfold len. simpl. lia.
  - apply wf_ip_cons in Hwf as [Hb Hrest]. cbn [addOne_aux] in Heq.
    destruct (addOne_aux rest) as [r' c'] eqn:Haux.
    destruct (IH r' c' Hrest eq_refl) as (Hwr & Hlr & Hval).
    rewrite len_cons, pow2_step by apply len_nonneg.
    rewrite ipval_cons. unfold is_byte in Hb.
    destruct c'.
    + injection Heq as <- <-. split; [|split].
      * apply wf_ip_cons. split; [|exact Hwr].
        unfold is_byte. apply Z.mod_pos_bound. lia.
      * cbn [length]. congruence.
      * rewrite ipval_cons, (len_eq r' rest Hlr).
        generalize dependent (2 ^ (8 * len rest)). intros P Hval.
        destruct (Z.eq_dec b 255) as [->|Hne].
        -- change ((255 + 1) mod 256) with 0. cbn [Z.eqb]. lia.
        -- rewrite Z.mod_small by lia.
           destruct (Z.eqb_spec (b + 1) 0); [lia|]. nia.
    + injection Heq as <- <-. split; [|split].
      * apply wf_ip_cons. split; assumption.
      * cbn [length]. congruence.
      * rewrite ipval_cons, (len_eq r' rest Hlr). lia.
Qed.

Lemma addOne_length (ip : IP) : length (addOne ip) = length ip.
Proof.
  unfold addOne. induction ip as [|b rest IH]; [reflexivity|].
  cbn [addOne_aux]. destruct (addOne_aux rest) as [r' c'].
  cbn [fst] in IH. destruct c'; cbn [fst length]; congruence.
Qed.

Lemma addOne_wf (ip : IP) : wf_ip ip -> wf_ip (addOne ip).
Proof.
  intros Hwf. unfold addOne. destruct (addOne_aux ip) as [r c] eqn:Haux.
  apply (addOne_aux_spec ip r c Hwf Haux).
Qed.

(** [addOne] is the successor modulo [2 ^ bitWidth]. *)
Lemma addOne_val (ip : IP) :
  wf_ip ip -> ipval (addOne ip) = (ipval ip + 1) mod 2 ^ (8 * len ip).
Proof.
  intros Hwf. unfold addOne. destruct (addOne_aux ip) as [r c] eqn:Haux.
  destruct (addOne_aux_spec ip r c Hwf Haux) as (Hwr & Hlr & Hval).
  pose proof (ipval_bound r Hwr) as Br. pose proof (ipval_bound ip Hwf) as Bi.
  rewrite (len_eq r ip Hlr) in Br. cbn [fst].
  generalize dependent (2 ^ (8 * len ip)). intros P Hval Br Bi.
  destruct c.
  - replace (ipval ip + 1) with (ipval r + 1 * P) by lia.
    rewrite Z.mod_add by lia. rewrite Z.mod_small by lia. reflexivity.
  - rewrite Z.mod_small by lia. lia.
Qed.

Lemma addOne_val_lt (ip : IP) :
  wf_ip ip -> ipval ip + 1 < 2 ^ (8 * len ip) ->
  ipval (addOne ip) = ipval ip + 1.
Proof.
  intros Hwf Hlt. rewrite addOne_val by assumption.
  pose proof (ipval_bound ip Hwf). apply Z.mod_small. lia.
Qed.

Lemma xor_spec (a b : IP) :
  wf_ip a -> wf_ip b -> length a = length b ->
  exists x, xor a b = Done x /\ wf_ip x /\ length x = length a /\
            ipval x = Z.lxor (ipval a) (ipval b).
Proof.
  revert b. induction a as [|x a IH]; intros [|y b] Ha Hb Hlen;
    try discriminate.
  - exists []. repeat split. constructor.
  - apply wf_ip_cons in Ha as [Hx Ha]. apply wf_ip_cons in Hb as [Hy Hb].
    injection Hlen as Hlen.
    destruct (IH b Ha Hb Hlen) as (r & Hr & Hwr & Hlr & Hval).
    exists (Z.lxor x y :: r). cbn [xor]. rewrite Hr. split; [reflexivity|].
    split; [|split].
    + apply wf_ip_cons. split; [apply lxor_byte; assumption | exact Hwr].
    + cbn [length]. congruence.
    + rewrite !ipval_cons, Hval.
      pose proof (ipval_bound a Ha) as Ba. pose proof (ipval_bound b Hb) as Bb.
      pose proof (ipval_bound r Hwr) as Br.
      rewrite (len_eq r a Hlr) in *. rewrite <- (len_eq a b Hlen) in *.
      rewrite Hval in Br. symmetry.
      apply lxor_combine; try assumption.
      pose proof (len_nonneg a). lia.
Qed.

(** [prefixLength] counts leading zero bits: the value fits in the
    remaining bits. *)
Lemma prefixLength_from_spec (x : IP) (i : Z) :
  wf_ip x ->
  i * 8 <= prefixLength_from i x <= (i + len x) * 8 /\
  ipval x < 2 ^ ((i + len x) * 8 - prefixLength_from i x).
Proof.
  revert i. induction x as [|b rest IH]; intros i Hwf.
  - cbn [prefixLength_from ipval]. rewrite len_nil.
    replace ((i + 0) * 8 - i * 8) with 0 by lia. cbn. lia.
  - apply wf_ip_cons in Hwf as [Hb Hrest].
    cbn [prefixLength_from]. rewrite len_cons, ipval_cons.
    pose proof (len_nonneg rest) as Hl.
    destruct (Z.eqb_spec b 0) as [->|Hne]; cbn [negb].
    + destruct (IH (i + 1) Hrest) as [H1 H2].
      replace (i + (len rest + 1)) with (i + 1 + len rest) by lia.
      split; [lia|]. lia.
    + destruct (LeadingZeros8_spec b Hb Hne) as [H1 H2].
      split; [lia|].
      replace ((i + (len rest + 1)) * 8 - (i * 8 + LeadingZeros8 b))
        with ((8 - LeadingZeros8 b) + 8 * len rest) by lia.
      rewrite pow2_split by lia.
      pose proof (ipval_bound rest Hrest) as Br.
      generalize dependent (2 ^ (8 * len rest)). intros P Br.
      generalize dependent (2 ^ (8 - LeadingZeros8 b)). intros Q HQ. nia.
Qed.

Lemma prefixLength_spec (x : IP) :
  wf_ip x ->
  0 <= prefixLength x <= 8 * len x /\
  ipval x < 2 ^ (8 * len x - prefixLength x).
Proof.
  intros Hwf. unfold prefixLength.
  destruct (prefixLength_from_spec x 0 Hwf) as [H1 H2].
  replace ((0 + len x) * 8) with (8 * len x) in * by lia.
  split; [lia | exact H2].
Qed.

(** [trailingZeros]: the largest power of two dividing the value. *)
Lemma trailingZeros_aux_spec (ip : IP) :
  wf_ip ip ->
  match trailingZeros_aux ip with
  | Some k => 0 <= k < 8 * len ip /\ ipval ip mod 2 ^ k = 0 /\
              Z.odd (ipval ip / 2 ^ k) = true
  | None => ipval ip = 0
  end.
Proof.
  induction ip as [|b rest IH]; intros Hwf; [reflexivity|].
  apply wf_ip_cons in Hwf as [Hb Hrest]. specialize (IH Hrest).
  cbn [trailingZeros_aux]. rewrite len_cons, ipval_cons.
  pose proof (len_nonneg rest) as Hl.
  destruct (trailingZeros_aux rest) as [k|].
  - destruct IH as (Hk & Hmod & Hodd). split; [lia|]. split.
    + replace (8 * len rest) with ((8 * len rest - k) + k) by lia.
      rewrite pow2_split by lia. rewrite Z.mul_assoc.
      rewrite Z.add_comm, Z.mod_add by (pose proof (pow2_pos k); lia).
      exact Hmod.
    + rewrite div_combine by lia.
      replace (8 * len rest - k) with (1 + (8 * len rest - k - 1)) by lia.
      rewrite pow2_split by lia. change (2 ^ 1) with 2.
      replace (b * (2 * 2 ^ (8 * len rest - k - 1)) + ipval rest / 2 ^ k)
        with (ipval rest / 2 ^ k + 2 * (b * 2 ^ (8 * len rest - k - 1))) by ring.
      rewrite Z.odd_add_mul_2. exact Hodd.
  - rewrite IH, Z.add_0_r.
    destruct (Z.eqb_spec b 0) as [->|Hne]; cbn [negb]; [lia|].
    destruct (TrailingZeros8_spec b Hb Hne) as (Ht & Hmod & Hodd).
    set (t := TrailingZeros8 b) in *.
    replace (len rest * 8 + t) with (8 * len rest + t) by lia.
    split; [lia|]. rewrite pow2_split by lia.
    pose proof (pow2_pos (8 * len rest)). pose proof (pow2_pos t).
    split.
    + rewrite (Z.mul_comm b), Z.mul_mod_distr_l by lia. rewrite Hmod. lia.
    + rewrite (Z.mul_comm b), Z.div_mul_cancel_l by lia. exact Hodd.
Qed.

Lemma trailingZeros_range (ip : IP) :
  wf_ip ip -> 0 <= trailingZeros ip <= 8 * len ip.
Proof.
  intros Hwf. unfold trailingZeros.
  pose proof (trailingZeros_aux_spec ip Hwf) as H.
  pose proof (len_nonneg ip).
  destruct (trailingZeros_aux ip); [destruct H; lia | lia].
Qed.

Lemma trailingZeros_divides (ip : IP) :
  wf_ip ip -> ipval ip mod 2 ^ trailingZeros ip = 0.
Proof.
  intros Hwf. unfold trailingZeros.
  pose proof (trailingZeros_aux_spec ip Hwf) as H.
  destruct (trailingZeros_aux ip); [apply H|].
  rewrite H. apply Z.mod_0_l.
  pose proof (pow2_pos (len ip * 8)). pose proof (len_nonneg ip). lia.
Qed.

Lemma trailingZeros_nonzero (ip : IP) :
  wf_ip ip -> ipval ip <> 0 ->
  trailingZeros ip < 8 * len ip /\
  Z.odd (ipval ip / 2 ^ trailingZeros ip) = true.
Proof.
  intros Hwf Hne. unfold trailingZeros.
  pose proof (trailingZeros_aux_spec ip Hwf) as H.
  destruct (trailingZeros_aux ip); [|contradiction].
  destruct H as (H1 & _ & H3). split; [lia | exact H3].
Qed.

Lemma trailingZeros_zero (ip : IP) :
  wf_ip ip -> ipval ip = 0 -> trailingZeros ip = 8 * len ip.
Proof.
  intros Hwf Hz. unfold trailingZeros.
  pose proof (trailingZeros_aux_spec ip Hwf) as H.
  destruct (trailingZeros_aux ip) as [k|]; [|lia].
  destruct H as (H1 & _ & H3). rewrite Hz in H3.
  rewrite Z.div_0_l in H3 by (pose proof (pow2_pos k); lia). discriminate.
Qed.

(** A multiple of [2 ^ j] has at least [j] trailing zeros. *)
Lemma trailingZeros_ge (ip : IP) (j : Z) :
  wf_ip ip -> 0 <= j -> ipval ip mod 2 ^ j = 0 -> ipval ip <> 0 ->
  j <= trailingZeros ip.
Proof.
  intros Hwf Hj Hmod Hne.
  destruct (trailingZeros_nonzero ip Hwf Hne) as [_ Hodd].
  pose proof (trailingZeros_range ip Hwf) as [Ht _].
  set (t := trailingZeros ip) in *.
  destruct (Z.le_gt_cases j t) as [|Hlt]; [assumption|exfalso].
  apply Z.mod_divide in Hmod; [|pose proof (pow2_pos j); lia].
  destruct Hmod as [q Hq]. rewrite Hq in Hodd.
  replace j with ((j - t - 1) + 1 + t) in Hodd by lia.
  rewrite !pow2_split in Hodd by lia. change (2 ^ 1) with 2 in Hodd.
  rewrite !Z.mul_assoc in Hodd.
  rewrite Z.div_mul in Hodd by (pose proof (pow2_pos t); lia).
  rewrite Z.odd_mul in Hodd. cbn in Hodd.
  rewrite andb_false_r in Hodd. discriminate.
Qed.

(** [lastIp] under a CIDR mask sets the host bits. *)
Lemma lastIp_bytes_spec (ip : IP) (n : Z) :
  wf_ip ip -> 0 <= n <= 8 * len ip ->
  exists r, lastIp_bytes ip (cidr_bytes n (length ip)) = Done r /\
            wf_ip r /\ length r = length ip /\
            ipval r = ipval ip / 2 ^ (8 * len ip - n) * 2 ^ (8 * len ip - n)
                      + 2 ^ (8 * len ip - n) - 1.
Proof.
  revert n. induction ip as [|b rest IH]; intros n Hwf Hn.
  - exists []. rewrite (@len_nil byte) in *. replace n with 0 by lia.
    split; [reflexivity|]. split; [constructor|]. split; reflexivity.
  - apply wf_ip_cons in Hwf as [Hb Hrest]. rewrite len_cons in *.
    pose proof (len_nonneg rest) as Hl.
    pose proof (ipval_bound rest Hrest) as Br.
    cbn [length cidr_bytes lastIp_bytes].
    destruct (Z.leb_spec 8 n) as [H8|H8].
    + destruct (IH (n - 8) Hrest ltac:(lia)) as (r & Hr & Hwr & Hlr & Hval).
      rewrite Hr. exists (Z.lor b (255 - 255) :: r).
      split; [reflexivity|]. change (255 - 255) with 0. rewrite Z.lor_0_r.
      split; [apply wf_ip_cons; split; assumption|].
      split; [cbn [length]; congruence|].
      rewrite !ipval_cons, (len_eq r rest Hlr), Hval.
      replace (8 * (len rest + 1) - n) with (8 * len rest - (n - 8)) by lia.
      set (H := 8 * len rest - (n - 8)) in *.
      rewrite div_combine by lia.
      rewrite Z.mul_add_distr_r, <- Z.mul_assoc, <- pow2_split by lia.
      replace (8 * len rest - H + H) with (8 * len rest) by lia. lia.
    + destruct (IH 0 Hrest ltac:(lia)) as (r & Hr & Hwr & Hlr & Hval).
      rewrite Hr. eexists. split; [reflexivity|].
      rewrite lor_partial_mask by (assumption || lia).
      rewrite Z.sub_0_r in Hval.
      rewrite (Z.div_small (ipval rest)) in Hval by lia.
      assert (Hdiv : 0 <= b / 2 ^ (8 - n) * 2 ^ (8 - n) <= b).
      { pose proof (pow2_pos (8 - n) ltac:(lia)) as Hp.
        pose proof (Z.mul_div_le b (2 ^ (8 - n)) Hp).
        pose proof (Z.div_pos b (2 ^ (8 - n)) ltac:(unfold is_byte in Hb; lia) Hp).
        nia. }
      assert (Hle : 2 ^ (8 - n) <= 256).
      { change 256 with (2 ^ 8). apply pow2_le. lia. }
      assert (Hmul : (b / 2 ^ (8 - n) + 1) * 2 ^ (8 - n) <= 256).
      { pose proof (pow2_pos (8 - n) ltac:(lia)) as Hp.
        assert (b / 2 ^ (8 - n) < 2 ^ n).
        { apply Z.div_lt_upper_bound; [lia|].
          rewrite <- pow2_split by lia. replace (8 - n + n) with 8 by lia.
          unfold is_byte in Hb. change (2 ^ 8) with 256. lia. }
        replace 256 with (2 ^ n * 2 ^ (8 - n)).
        - apply Z.mul_le_mono_nonneg_r; lia.
        - rewrite <- pow2_split by lia. replace (n + (8 - n)) with 8 by lia.
          reflexivity. }
      split; [|split].
      * apply wf_ip_cons. split; [|exact Hwr]. unfold is_byte.
        pose proof (pow2_pos (8 - n) ltac:(lia)). lia.
      * cbn [length]. congruence.
      * rewrite !ipval_cons, (len_eq r rest Hlr), Hval.
        replace (8 * (len rest + 1) - n) with (8 * len rest + (8 - n)) by lia.
        rewrite (pow2_split (8 * len rest)) by lia.
        set (P := 2 ^ (8 * len rest)) in *. set (Q := 2 ^ (8 - n)) in *.
        assert (Hq : (b * P + ipval rest) / (P * Q) = b / Q).
        { rewrite <- Z.div_div by (subst P Q; try apply pow2_pos; lia).
          rewrite Z.div_add_l by (subst P; pose proof (pow2_pos (8 * len rest)); lia).
          rewrite (Z.div_small (ipval rest) P) by lia.
          rewrite Z.add_0_r. reflexivity. }
        rewrite Hq. ring.
Qed.

(* ===================================================================== *)
(** ** Masks and alignment *)
(* ===================================================================== *)

Lemma maskOnes_cidr_bytes (n : Z) (l : nat) :
  0 <= n <= 8 * Z.of_nat l -> maskOnes (cidr_bytes n l) = n.
Proof.
  revert n. induction l as [|l IH]; intros n Hn.
  - cbn. lia.
  - cbn [cidr_bytes]. destruct (Z.leb_spec 8 n) as [H8|H8].
    + cbn [maskOnes]. change (255 =? 255) with true. cbv iota.
      rewrite IH by lia. lia.
    + cbn [maskOnes].
      assert (n = 0 \/ n = 1 \/ n = 2 \/ n = 3 \/ n = 4 \/ n = 5 \/ n = 6 \/ n = 7)
        as Hcases by lia.
      destruct Hcases as [->|[->|[->|[->|[->|[->|[->| ->]]]]]]]; reflexivity.
Qed.

Lemma CIDRMask_family (ip : IP) (ones : Z) :
  family ip -> 0 <= ones <= bitWidth ip ->
  CIDRMask ones (len ip * 8) = cidr_bytes ones (length ip).
Proof.
  unfold family, bitWidth, CIDRMask, len. intros [Hl|Hl] Hn; rewrite Hl in *.
  - destruct (Z.ltb_spec ones 0); [lia|].
    destruct (Z.ltb_spec (Z.of_nat 4 * 8) ones); [lia|]. reflexivity.
  - destruct (Z.ltb_spec ones 0); [lia|].
    destruct (Z.ltb_spec (Z.of_nat 16 * 8) ones); [lia|]. reflexivity.
Qed.

Lemma mod_pow2_le (a t h : Z) :
  0 <= h <= t -> a mod 2 ^ t = 0 -> a mod 2 ^ h = 0.
Proof.
  intros Hh Hmod.
  apply Z.mod_divide in Hmod; [|pose proof (pow2_pos t); lia].
  destruct Hmod as [q ->].
  replace t with ((t - h) + h) by lia. rewrite pow2_split by lia.
  rewrite Z.mul_assoc. apply Z.mod_mul. pose proof (pow2_pos h). lia.
Qed.

Lemma mod_pow2_testbit (a h i : Z) :
  a mod 2 ^ h = 0 -> 0 <= i < h -> Z.testbit a i = false.
Proof.
  intros Hmod Hi. rewrite <- (Z.mod_pow2_bits_low a h i) by lia.
  rewrite Hmod. apply Z.bits_0.
Qed.

(** Two values whose exclusive-or fits in [h] bits agree above bit [h]. *)
Lemma lxor_small (a b h : Z) :
  0 <= h -> 0 <= Z.lxor a b < 2 ^ h -> a / 2 ^ h = b / 2 ^ h.
Proof.
  intros Hh Hx. rewrite <- !Z.shiftr_div_pow2 by lia.
  apply Z.lxor_eq. rewrite <- Z.shiftr_lxor.
  rewrite Z.shiftr_div_pow2 by lia. apply Z.div_small. exact Hx.
Qed.

Lemma max_spec (a b : Z) : max a b = Z.max a b.
Proof. unfold max. destruct (Z.gtb_spec a b); lia. Qed.

(* ===================================================================== *)
(** ** One iteration of the decomposition loop *)
(* ===================================================================== *)

Lemma mu_bounds (s e : IP) :
  wf_ip s -> wf_ip e -> length s = length e ->
  1 <= mu s e <= bitWidth e + 1 /\
  (~ (ipval s = 0 /\ ipval e = 2 ^ bitWidth e - 1) -> mu s e <= bitWidth e).
Proof.
  intros Hs He Hlen. unfold mu, bitWidth. rewrite (len_eq s e Hlen).
  pose proof (len_nonneg e).
  destruct (Z.eqb_spec (ipval s) 0) as [Hz|Hnz].
  - destruct (Z.eqb_spec (ipval e) (2 ^ (8 * len e) - 1)) as [Hm|Hm].
    + split; [lia|]. intros Hn. exfalso. apply Hn. split; assumption.
    + split; [lia|]. intros _.
      pose proof (ipval_bound e He).
      destruct (Z.eq_dec (len e) 0) as [Hl0|]; [|lia].
      rewrite Hl0 in *. change (2 ^ (8 * 0)) with 1 in *. lia.
  - destruct (trailingZeros_nonzero s Hs Hnz) as [Ht _].
    pose proof (trailingZeros_range s Hs). rewrite (len_eq s e Hlen) in *.
    split; [lia|]. intros _. lia.
Qed.

Lemma loop_step (s e : IP) :
  wf_ip s -> wf_ip e -> length s = length e -> family s ->
  ipval s <= ipval e ->
  exists x tmp,
    xor (addOne e) s = Done x /\
    let cidr := max (prefixLength x) (len s * 8 - trailingZeros s) in
    0 <= cidr <= bitWidth s /\
    CIDRMask cidr (len s * 8) = cidr_bytes cidr (length s) /\
    lastIp (mkIPNet s (CIDRMask cidr (len s * 8))) = Done tmp /\
    wf_ip tmp /\ length tmp = length s /\
    ipval s mod 2 ^ (bitWidth s - cidr) = 0 /\
    ipval tmp = ipval s + 2 ^ (bitWidth s - cidr) - 1 /\
    (ipval tmp < ipval e ->
     ipval (addOne tmp) = ipval tmp + 1 /\ 1 <= mu (addOne tmp) e < mu s e).
Proof.
  intros Hs He Hlen Hfam Hle.
  pose proof (addOne_wf e He) as HwT.
  pose proof (addOne_length e) as HlT.
  destruct (xor_spec (addOne e) s HwT Hs ltac:(congruence))
    as (x & Hx & Hwx & Hlx & Hxval).
  exists x.
  destruct (prefixLength_spec x Hwx) as [Hpl Hxlt].
  pose proof (trailingZeros_range s Hs) as Htz.
  pose proof (trailingZeros_divides s Hs) as Hdiv.
  assert (Hlenx : len x = len s) by (apply len_eq; congruence).
  rewrite Hlenx in *.
  set (cidr := max (prefixLength x) (len s * 8 - trailingZeros s)).
  assert (Hcidr : cidr = Z.max (prefixLength x) (8 * len s - trailingZeros s)).
  { subst cidr. rewrite max_spec. f_equal. lia. }
  unfold bitWidth.
  assert (Hrange : 0 <= cidr <= 8 * len s) by lia.
  pose proof (CIDRMask_family s cidr Hfam Hrange) as Hmask.
  destruct (lastIp_bytes_spec s cidr Hs Hrange) as (tmp & Htmp & Hwt & Hlt & Htval).
  exists tmp. cbv zeta. fold cidr.
  set (H := 8 * len s - cidr) in *.
  assert (HH : 0 <= H <= trailingZeros s) by lia.
  assert (Hal : ipval s mod 2 ^ H = 0) by (apply (mod_pow2_le _ (trailingZeros s)); assumption).
  assert (Htv : ipval tmp = ipval s + 2 ^ H - 1).
  { rewrite Htval.
    pose proof (Z.div_mod (ipval s) (2 ^ H) ltac:(pose proof (pow2_pos H); lia)).
    lia. }
  split; [exact Hx|]. split; [exact Hrange|]. split; [exact Hmask|].
  split; [unfold lastIp; cbn [IPNet_IP IPNet_Mask]; rewrite Hmask; exact Htmp|].
  split; [exact Hwt|]. split; [exact Hlt|]. split; [exact Hal|].
  split; [exact Htv|].
  intros Hcont.
  pose proof (ipval_bound s Hs) as Bs. pose proof (ipval_bound e He) as Be.
  pose proof (ipval_bound tmp Hwt) as Bt.
  assert (Hlene : len e = len s) by (apply len_eq; congruence).
  assert (Hlent : len tmp = len s) by (apply len_eq; congruence).
  rewrite Hlene in Be. rewrite Hlent in Bt.
  pose proof (pow2_pos H ltac:(lia)) as HpH.
  assert (Hnext : ipval (addOne tmp) = ipval tmp + 1).
  { apply addOne_val_lt; [assumption|]. rewrite Hlent. lia. }
  split; [exact Hnext|].
  pose proof (addOne_wf tmp Hwt) as Hws'.
  pose proof (addOne_length tmp) as Hls'.
  assert (Hnz' : ipval (addOne tmp) <> 0) by lia.
  assert (Hlen' : len (addOne tmp) = len s) by (apply len_eq; congruence).
  destruct (trailingZeros_nonzero _ Hws' Hnz') as [Htz' _].
  pose proof (trailingZeros_range _ Hws') as Htzr'.
  rewrite Hlen' in *.
  unfold mu, bitWidth. rewrite Hlen', Hlene.
  destruct (Z.eqb_spec (ipval (addOne tmp)) 0) as [|_]; [contradiction|].
  split; [lia|].
  (* the value of addOne e *)
  pose proof (addOne_val e He) as HT. rewrite Hlene in HT.
  destruct (Z.eqb_spec (ipval s) 0) as [Hz|Hnz].
  - (* s is the zero address *)
    destruct (Z.eqb_spec (ipval e) (2 ^ (8 * len s) - 1)) as [Hmax|Hnmax]; [lia|].
    exfalso.
    rewrite Z.mod_small in HT by lia.
    rewrite Hz, Z.lxor_0_r, HT in Hxval.
    rewrite (trailingZeros_zero s Hs Hz) in *.
    assert (HHpl : H = 8 * len s - prefixLength x) by lia.
    rewrite <- HHpl, Hxval in Hxlt. lia.
  - destruct (trailingZeros_nonzero s Hs Hnz) as [Htzlt Hodd].
    destruct (Z.eq_dec H (trailingZeros s)) as [HeqH|HneH].
    + (* the block is as large as the alignment of s allows *)
      assert (trailingZeros s + 1 <= trailingZeros (addOne tmp)); [|lia].
      apply trailingZeros_ge; try assumption; [lia|].
      rewrite Hnext, Htv, HeqH.
      set (t := trailingZeros s) in *.
      pose proof (pow2_pos t ltac:(lia)) as Hpt.
      pose proof (Z.div_mod (ipval s) (2 ^ t) ltac:(lia)) as Hdm.
      rewrite Hdiv in Hdm.
      apply Z.odd_spec in Hodd. destruct Hodd as [m Hm].
      rewrite Hm in Hdm.
      replace (ipval s + 2 ^ t - 1 + 1) with ((m + 1) * (2 ^ t * 2)) by lia.
      rewrite (pow2_split t 1) by lia. change (2 ^ 1) with 2.
      apply Z.mod_mul. lia.
    + (* the block is bounded by the common prefix: it reaches past e *)
      exfalso.
      assert (HHpl : H = 8 * len s - prefixLength x) by lia.
      rewrite <- HHpl in Hxlt.
      assert (Hxnn : 0 <= ipval x) by (apply ipval_bound; assumption).
      rewrite Hxval in Hxlt, Hxnn.
      pose proof (lxor_small _ _ H ltac:(lia) (conj Hxnn Hxlt)) as Hsame.
      pose proof (Z.div_mod (ipval (addOne e)) (2 ^ H) ltac:(lia)) as HdT.
      pose proof (Z.div_mod (ipval s) (2 ^ H) ltac:(lia)) as HdS.
      pose proof (Z.mod_pos_bound (ipval (addOne e)) (2 ^ H) HpH) as HmT.
      rewrite Hsame in HdT. rewrite Hal in HdS.
      assert (HTlt : ipval s <= ipval (addOne e) < ipval s + 2 ^ H) by lia.
      destruct (Z.eq_dec (ipval e + 1) (2 ^ (8 * len s))) as [Hw|Hnw].
      * rewrite Hw, Z.mod_same in HT by lia. lia.
      * rewrite Z.mod_small in HT by lia. lia.
Qed.

(* ===================================================================== *)
(** ** The decomposition loop *)
(* ===================================================================== *)

Lemma ToIpNets_loop_unfold (fuel : nat) (s e : IP) (W : Z) (acc : list IPNet)
    (x tmp : IP) :
  bytesCompare s e <> Gt ->
  xor (addOne e) s = Done x ->
  lastIp (mkIPNet s (CIDRMask (max (prefixLength x) (W - trailingZeros s)) W))
    = Done tmp ->
  ToIpNets_loop (S fuel) s e W acc =
  let n := mkIPNet s (CIDRMask (max (prefixLength x) (W - trailingZeros s)) W) in
  if negb (lessThan tmp e) then Done (acc ++ [n])
  else ToIpNets_loop fuel (addOne tmp) e W (acc ++ [n]).
Proof.
  intros Hcmp Hx Htmp. cbn [ToIpNets_loop].
  destruct (bytesCompare s e); try contradiction;
    rewrite Hx; cbn [mbind outcome_bind obind]; rewrite Htmp; reflexivity.
Qed.

Lemma ToIpNets_loop_inverted (fuel : nat) (s e : IP) (W : Z) (acc : list IPNet) :
  bytesCompare s e = Gt -> ToIpNets_loop (S fuel) s e W acc = Done acc.
Proof. intros H. cbn [ToIpNets_loop]. rewrite H. reflexivity. Qed.

Lemma emitted_prefixLen (e : IP) (n : IPNet) :
  emitted e n -> 0 <= prefixLen n <= bitWidth e.
Proof.
  intros (_ & _ & _ & p & Hp & Hm & _). unfold prefixLen. rewrite Hm.
  rewrite maskOnes_cidr_bytes; [lia|]. unfold bitWidth, len in Hp. lia.
Qed.

Lemma emitted_aligned (e : IP) (n : IPNet) : emitted e n -> aligned n.
Proof.
  intros (_ & Hl & _ & p & Hp & Hm & Hmod). unfold aligned, prefixLen.
  rewrite Hm. unfold bitWidth in *. rewrite (len_eq _ e Hl).
  rewrite maskOnes_cidr_bytes by (unfold len in Hp; lia).
  intros i Hi. apply (mod_pow2_testbit _ (8 * len e - p)); assumption.
Qed.

Lemma emitted_lastIp (e : IP) (n : IPNet) :
  emitted e n ->
  exists l, lastIp n = Done l /\ wf_ip l /\ length l = length e /\
            ipval l = ipval (IPNet_IP n) + 2 ^ (bitWidth e - prefixLen n) - 1.
Proof.
  intros (Hw & Hl & _ & p & Hp & Hm & Hmod). unfold prefixLen, lastIp.
  rewrite Hm. unfold bitWidth in *.
  rewrite maskOnes_cidr_bytes by (unfold len in Hp; lia).
  rewrite <- Hl. rewrite <- (len_eq _ e Hl) in *.
  destruct (lastIp_bytes_spec (IPNet_IP n) p Hw Hp) as (r & Hr & Hwr & Hlr & Hv).
  exists r. split; [exact Hr|]. split; [exact Hwr|]. split; [exact Hlr|].
  rewrite Hv.
  pose proof (pow2_pos (8 * len (IPNet_IP n) - p) ltac:(lia)) as Hpos.
  pose proof (Z.div_mod (ipval (IPNet_IP n)) _ ltac:(apply Z.neq_sym, Z.lt_neq, Hpos)) as Hdm.
  lia.
Qed.

Lemma loop_spec (e : IP) (m : nat) :
  wf_ip e -> family e ->
  forall s, wf_ip s -> length s = length e -> ipval s <= ipval e ->
  mu s e <= Z.of_nat m ->
  exists l,
    (forall fuel acc, (m <= fuel)%nat ->
       ToIpNets_loop fuel s e (len e * 8) acc = Done (acc ++ l)) /\
    1 <= len l <= mu s e /\
    Forall (emitted e) l /\
    (forall a, ipval s <= a <= ipval e -> Exists (fun n => in_block n a) l) /\
    (exists n rest, l = n :: rest /\ IPNet_IP n = s).
Proof.
  intros He Hfam. induction m as [|m IH]; intros s Hs Hlen Hle Hmu.
  { destruct (mu_bounds s e Hs He Hlen) as [[Hlo _] _]. lia. }
  assert (Hfs : family s) by (unfold family in *; rewrite Hlen; exact Hfam).
  destruct (loop_step s e Hs He Hlen Hfs Hle)
    as (x & tmp & Hx & Hrange & Hmask & Htmp & Hwt & Hlt & Hal & Htv & Hcont).
  cbv zeta in *. rewrite (len_eq s e Hlen) in *.
  unfold bitWidth in *. rewrite (len_eq s e Hlen) in *.
  set (cidr := max (prefixLength x) (len e * 8 - trailingZeros s)) in *.
  set (n := mkIPNet s (CIDRMask cidr (len e * 8))) in *.
  assert (Hcmp : bytesCompare s e <> Gt).
  { rewrite (bytesCompare_spec s e Hs He Hlen). intros Hgt.
    apply Z.compare_gt_iff in Hgt. lia. }
  assert (Hem : emitted e n).
  { unfold emitted, n. cbn [IPNet_IP IPNet_Mask].
    split; [exact Hs|]. split; [exact Hlen|]. split; [exact Hle|].
    exists cidr. unfold bitWidth. rewrite Hmask, Hlen.
    split; [exact Hrange|]. split; [reflexivity|exact Hal]. }
  assert (Hin : forall a, ipval s <= a <= ipval tmp -> in_block n a).
  { intros a Ha. exists tmp. split; [exact Htmp|exact Ha]. }
  assert (Hless : lessThan tmp e = (ipval tmp <? ipval e)).
  { apply lessThan_spec; [assumption..|congruence]. }
  destruct (Z.ltb_spec (ipval tmp) (ipval e)) as [Hlt'|Hge'].
  - (* the block ends before [e]: the loop goes on *)
    destruct (Hcont Hlt') as (Hnext & Hmu1 & Hmu2).
    destruct (IH (addOne tmp) (addOne_wf tmp Hwt)
                ltac:(rewrite addOne_length; congruence) ltac:(lia) ltac:(lia))
      as (l' & Hrun & Hlen' & Hall & Hcov & _).
    exists (n :: l'). split; [|split; [|split; [|split]]].
    + intros [|fuel] acc Hfuel; [lia|].
      rewrite (ToIpNets_loop_unfold fuel s e _ acc x tmp Hcmp Hx Htmp).
      cbv zeta. fold cidr. fold n. rewrite Hless.
      destruct (Z.ltb_spec (ipval tmp) (ipval e)); [|lia]. cbn [negb].
      rewrite Hrun by lia. rewrite <- app_assoc. reflexivity.
    + rewrite len_cons. lia.
    + constructor; assumption.
    + intros a Ha. destruct (Z.le_gt_cases a (ipval tmp)) as [Hl1|Hl2].
      * apply Exists_cons_hd. apply Hin. lia.
      * apply Exists_cons_tl. apply Hcov. lia.
    + exists n, l'. split; reflexivity.
  - (* the block reaches [e]: the loop stops *)
    exists [n]. split; [|split; [|split; [|split]]].
    + intros [|fuel] acc Hfuel; [lia|].
      rewrite (ToIpNets_loop_unfold fuel s e _ acc x tmp Hcmp Hx Htmp).
      cbv zeta. fold cidr. fold n. rewrite Hless.
      destruct (Z.ltb_spec (ipval tmp) (ipval e)); [lia|]. reflexivity.
    + destruct (mu_bounds s e Hs He Hlen) as [[Hlo _] _].
      rewrite len_cons, len_nil. lia.
    + constructor; [assumption|constructor].
    + intros a Ha. apply Exists_cons_hd. apply Hin. lia.
    + exists n, []. split; reflexivity.
Qed.

(* ===================================================================== *)
(** ** Range.ToIpNets on well-formed intervals *)
(* ===================================================================== *)

Lemma mu_enough (r : Range) :
  wf_interval r ->
  mu (start r) (end_ r) <= Z.of_nat (S (8 * length (start r))).
Proof.
  intros [(Hs & He & Hlen) _].
  destruct (mu_bounds _ _ Hs He Hlen) as [[_ Hhi] _].
  unfold bitWidth, len in Hhi. rewrite <- Hlen in Hhi. lia.
Qed.

(** The summary of a run on an interval with [start <= end]. *)
Lemma ToIpNets_run (r : Range) :
  wf_interval r -> ipval (start r) <= ipval (end_ r) ->
  exists l,
    (forall fuel, (S (8 * length (start r)) <= fuel)%nat ->
       Range_ToIpNets_fuel fuel r = Done l) /\
    1 <= len l <= mu (start r) (end_ r) /\
    Forall (emitted (end_ r)) l /\
    (forall a, in_range r a -> covered l a) /\
    (exists n rest, l = n :: rest /\ IPNet_IP n = start r).
Proof.
  intros Hwf Hle. pose proof (mu_enough r Hwf) as Hmu.
  destruct Hwf as [(Hs & He & Hlen) Hfam].
  assert (Hfe : family (end_ r)) by (unfold family in *; rewrite <- Hlen; exact Hfam).
  destruct (loop_spec (end_ r) _ He Hfe (start r) Hs Hlen Hle Hmu)
    as (l & Hrun & Hlen' & Hall & Hcov & Hhd).
  exists l. split; [|split; [|split; [|split]]]; try assumption.
  intros fuel Hfuel. unfold Range_ToIpNets_fuel.
  rewrite (len_eq _ _ Hlen). apply (Hrun fuel [] Hfuel).
Qed.

(** Any amount of fuel from [enough_fuel] on gives the answer of
    [Range_ToIpNets], which is never [OutOfFuel]. *)
Lemma ToIpNets_fuel_enough (r : Range) :
  wf_interval r ->
  exists l, forall fuel, (enough_fuel r <= fuel)%nat ->
                         Range_ToIpNets_fuel fuel r = Done l.
Proof.
  intros Hwf. destruct (Z.le_gt_cases (ipval (start r)) (ipval (end_ r))) as [Hle|Hgt].
  - destruct (ToIpNets_run r Hwf Hle) as (l & Hrun & _).
    exists l. intros fuel Hfuel. apply Hrun. unfold enough_fuel in Hfuel. lia.
  - exists []. intros [|fuel] Hfuel; [unfold enough_fuel in Hfuel; lia|].
    destruct Hwf as [(Hs & He & Hlen) _].
    unfold Range_ToIpNets_fuel. apply ToIpNets_loop_inverted.
    rewrite (bytesCompare_spec _ _ Hs He Hlen). apply Z.compare_gt_iff. lia.
Qed.

Lemma ToIpNets_done (r : Range) :
  wf_interval r -> ipval (start r) <= ipval (end_ r) ->
  exists l,
    Range_ToIpNets r = Done l /\
    1 <= len l <= mu (start r) (end_ r) /\
    Forall (emitted (end_ r)) l /\
    (forall a, in_range r a -> covered l a) /\
    (exists n rest, l = n :: rest /\ IPNet_IP n = start r).
Proof.
  intros Hwf Hle. destruct (ToIpNets_run r Hwf Hle) as (l & Hrun & Hrest).
  exists l. split; [|exact Hrest].
  apply Hrun. unfold enough_fuel. lia.
Qed.

(** C7 -- Alignment invariant: on a well-formed interval with
    [start <= end] the decomposition returns, and every block it returns
    has a prefix length between 0 and the bit width and has all bits
    below its prefix length equal to zero. *)
Theorem ToIpNets_aligned (r : Range) :
  wf_interval r -> ipval (start r) <= ipval (end_ r) ->
  exists l, Range_ToIpNets r = Done l /\
            Forall (fun n => 0 <= prefixLen n <= bitWidth (IPNet_IP n) /\
                             aligned n) l.
Proof.
  intros Hwf Hle.
  destruct (ToIpNets_done r Hwf Hle) as (l & Hrun & _ & Hall & _).
  exists l. split; [exact Hrun|].
  eapply List.Forall_impl; [|exact Hall].
  intros n Hn. split; [|exact (emitted_aligned _ n Hn)].
  pose proof (emitted_prefixLen _ n Hn) as Hp.
  destruct Hn as (_ & Hl & _). unfold bitWidth in *.
  rewrite (len_eq _ _ Hl). exact Hp.
Qed.

(** C10 -- Inverted interval: when [start] is above [end] in unsigned
    order the decomposition returns the empty list. *)
Theorem ToIpNets_inverted (s e : IP) :
  wf_ip s -> wf_ip e -> length s = length e -> ipval e < ipval s ->
  Range_ToIpNets (mkRange s e) = Done [].
Proof.
  intros Hs He Hlen Hgt. unfold Range_ToIpNets, enough_fuel, Range_ToIpNets_fuel.
  cbn [start end_]. apply ToIpNets_loop_inverted.
  rewrite (bytesCompare_spec _ _ Hs He Hlen). apply Z.compare_gt_iff. lia.
Qed.

(** The half of the coverage property that the code has: every address of
    the interval lies in some returned block. *)
Lemma ToIpNets_covers_interval (r : Range) :
  wf_interval r -> ipval (start r) <= ipval (end_ r) ->
  exists l, Range_ToIpNets r = Done l /\
            forall a, in_range r a -> covered l a.
Proof.
  intros Hwf Hle.
  destruct (ToIpNets_done r Hwf Hle) as (l & Hrun & _ & _ & Hcov & _).
  exists l. split; assumption.
Qed.

(* ===================================================================== *)
(** ** Heap reasoning *)
(* ===================================================================== *)

Lemma deref_Done (h : heap) (p : loc) (r : Range) :
  deref h p = Done r <-> h !! p = Some r.
Proof.
  unfold deref. destruct (h !! p) as [r'|]; split; intros H;
    try discriminate; congruence.
Qed.

Lemma lookup_alloc_old (h : heap) (r : Range) (p : loc) (c : Range) :
  h !! p = Some c -> (h ++ [r]) !! p = Some c.
Proof.
  intros H. rewrite lookup_app_l; [exact H|]. eapply lookup_lt_Some, H.
Qed.

Lemma lookup_alloc_new (h : heap) (r : Range) :
  (h ++ [r]) !! length h = Some r.
Proof.
  rewrite lookup_app_r by lia. rewrite Nat.sub_diag. reflexivity.
Qed.

Lemma normalize_alloc (h : heap) (c : Range) (x : IRange) (r : Range) :
  normalize h x = Done r -> normalize (h ++ [c]) x = Done r.
Proof.
  destruct x as [p| |]; cbn [normalize]; try (intros H; exact H).
  rewrite !deref_Done. apply lookup_alloc_old.
Qed.

(** The pointers produced by the first loop: the receiver itself for a
    [*Range], a cell beyond the old heap for a wrapper. *)
Lemma ToRange_inv (x : IRange) (h h' : heap) (p : loc) :
  ToRange x h = Done (p, h') ->
  (x = IRange_Range p /\ h' = h) \/
  (exists r, normalize h x = Done r /\ p = length h /\ h' = h ++ [r] /\
             forall q, x <> IRange_Range q).
Proof.
  destruct x as [q|ip|n]; cbn [ToRange normalize alloc]; intros H.
  - injection H as -> ->. left. split; reflexivity.
  - injection H as <- <-. right. exists (IpWrapper_ToRange ip).
    repeat split. intros q Hq. discriminate.
  - destruct (IpNetWrapper_ToRange n) as [r| |] eqn:Hr;
      cbn [mbind outcome_bind obind] in H; try discriminate.
    injection H as <- <-. right. exists r. repeat split.
    intros q Hq. discriminate.
Qed.

Lemma toRangeList_inv (xs : list IRange) :
  forall acc h l h1,
    toRangeList xs acc h = Done (l, h1) ->
    exists ps fresh,
      l = acc ++ ps /\ h1 = h ++ fresh /\
      Forall2 (fun x p =>
                 (x = IRange_Range p \/
                  ((length h <= p)%nat /\ forall q, x <> IRange_Range q)) /\
                 forall r, normalize h x = Done r -> h1 !! p = Some r) xs ps.
Proof.
  induction xs as [|x xs IH]; intros acc h l h1 H.
  - cbn in H. injection H as <- <-. exists [], [].
    rewrite !app_nil_r. repeat split. constructor.
  - cbn [toRangeList] in H.
    destruct (ToRange x h) as [[p h']| |] eqn:Hx;
      cbn [mbind outcome_bind obind] in H; try discriminate.
    destruct (IH _ _ _ _ H) as (ps & fresh & -> & -> & Hall).
    destruct (ToRange_inv _ _ _ _ Hx) as [[-> ->]|(r & Hr & -> & -> & Hnp)].
    + exists (p :: ps), fresh. rewrite <- app_assoc.
      split; [reflexivity|]. split; [reflexivity|].
      constructor; [|exact Hall].
      split; [left; reflexivity|].
      intros r Hr. cbn [normalize] in Hr. apply deref_Done in Hr.
      rewrite lookup_app_l; [exact Hr|]. eapply lookup_lt_Some, Hr.
    + exists (length h :: ps), ([r] ++ fresh). rewrite <- !app_assoc.
      split; [reflexivity|]. split; [reflexivity|].
      constructor.
      * split; [right; split; [lia|exact Hnp]|].
        intros r' Hr'. rewrite Hr in Hr'. injection Hr' as <-.
        rewrite app_assoc. rewrite lookup_app_l.
        -- apply lookup_alloc_new.
        -- rewrite length_app. cbn. lia.
      * eapply Forall2_impl; [exact Hall|].
        intros y q (Hy1 & Hy3). split.
        -- destruct Hy1 as [Hy1|[Hy1 Hy2]]; [left; exact Hy1|right].
           split; [|exact Hy2]. rewrite length_app in Hy1. cbn in Hy1. lia.
        -- intros r' Hr'. rewrite <- app_assoc in Hy3. apply Hy3.
           apply normalize_alloc. exact Hr'.
Qed.

(* ===================================================================== *)
(** ** Insertion sort meets the promises of sort.Slice *)
(* ===================================================================== *)

Lemma insert_back_perm (lt : loc -> loc -> bool) (x : loc) (l : list loc) :
  Permutation (x :: l) (insert_back lt x l).
Proof.
  induction l as [|y l IH]; cbn [insert_back]; [reflexivity|].
  destruct (lt x y); [|reflexivity].
  rewrite perm_swap. apply perm_skip, IH.
Qed.

Lemma insertion_fold_perm (lt : loc -> loc -> bool) (l acc : list loc) :
  Permutation (l ++ acc) (fold_left (fun a x => insert_back lt x a) l acc).
Proof.
  revert acc. induction l as [|x l IH]; intros acc; cbn [fold_left app];
    [reflexivity|].
  rewrite <- IH. rewrite <- insert_back_perm.
  apply Permutation_middle.
Qed.

Lemma insertionSort_permutes : sort_permutes insertionSort.
Proof.
  intros lt l. unfold insertionSort. rewrite <- Permutation_rev.
  rewrite <- insertion_fold_perm, app_nil_r. reflexivity.
Qed.

Lemma StronglySorted_snoc {A : Type} (R : A -> A -> Prop) (l : list A) (x : A) :
  StronglySorted R l -> List.Forall (fun a => R a x) l ->
  StronglySorted R (l ++ [x]).
Proof.
  induction 1 as [|a l Hs IH Ha]; intros Hx; cbn [app].
  - constructor; constructor.
  - apply List.Forall_cons_iff in Hx as [Hax Hx].
    constructor; [apply IH, Hx|].
    apply List.Forall_app. split; [exact Ha|]. constructor; [exact Hax|constructor].
Qed.

Lemma StronglySorted_rev {A : Type} (R : A -> A -> Prop) (l : list A) :
  StronglySorted (fun a b => R b a) l -> StronglySorted R (rev l).
Proof.
  induction 1 as [|a l Hs IH Ha]; cbn [rev]; [constructor|].
  apply StronglySorted_snoc; [exact IH|].
  apply List.Forall_forall. intros y Hy. apply List.in_rev in Hy.
  rewrite List.Forall_forall in Ha. apply Ha, Hy.
Qed.

Lemma insert_back_sorted (key : loc -> Z) (lt : loc -> loc -> bool)
    (x : loc) (l : list loc) :
  (forall y, List.In y l -> lt x y = (key x <? key y)) ->
  StronglySorted (fun a b => key b <= key a) l ->
  StronglySorted (fun a b => key b <= key a) (insert_back lt x l).
Proof.
  intros Hlt Hs. induction Hs as [|y l Hs IH Hy]; cbn [insert_back].
  - constructor; constructor.
  - rewrite (Hlt y) by (left; reflexivity).
    destruct (Z.ltb_spec (key x) (key y)) as [Hxy|Hxy].
    + constructor.
      * apply IH. intros z Hz. apply Hlt. right. exact Hz.
      * rewrite List.Forall_forall in Hy |- *. intros z Hz.
        apply (Permutation_in _ (Permutation_sym (insert_back_perm lt x l))) in Hz.
        destruct Hz as [<-|Hz]; [lia|apply Hy, Hz].
    + constructor; [constructor; assumption|].
      constructor; [exact Hxy|].
      rewrite List.Forall_forall in Hy |- *. intros z Hz.
      specialize (Hy z Hz). lia.
Qed.

Lemma insertion_fold_sorted (key : loc -> Z) (lt : loc -> loc -> bool)
    (l acc : list loc) :
  (forall a b, List.In a (l ++ acc) -> List.In b (l ++ acc) ->
               lt a b = (key a <? key b)) ->
  StronglySorted (fun a b => key b <= key a) acc ->
  StronglySorted (fun a b => key b <= key a)
    (fold_left (fun a x => insert_back lt x a) l acc).
Proof.
  revert acc. induction l as [|x l IH]; intros acc Hlt Hs; cbn [fold_left];
    [exact Hs|].
  apply IH.
  - intros a b Ha Hb. apply Hlt.
    + apply List.in_app_iff in Ha as [Ha|Ha].
      * right. apply List.in_app_iff. left. exact Ha.
      * apply (Permutation_in _ (Permutation_sym (insert_back_perm lt x acc))) in Ha.
        destruct Ha as [<-|Ha]; [left; reflexivity|].
        right. apply List.in_app_iff. right. exact Ha.
    + apply List.in_app_iff in Hb as [Hb|Hb].
      * right. apply List.in_app_iff. left. exact Hb.
      * apply (Permutation_in _ (Permutation_sym (insert_back_perm lt x acc))) in Hb.
        destruct Hb as [<-|Hb]; [left; reflexivity|].
        right. apply List.in_app_iff. right. exact Hb.
  - apply insert_back_sorted; [|exact Hs].
    intros y Hy. apply Hlt; [left; reflexivity|].
    right. apply List.in_app_iff. right. exact Hy.
Qed.

Lemma insertionSort_orders : sort_orders insertionSort.
Proof.
  intros key lt l Hlt. unfold insertionSort. apply StronglySorted_rev.
  apply insertion_fold_sorted; [|constructor].
  rewrite app_nil_r. exact Hlt.
Qed.

Lemma no_descent_middle (lt : loc -> loc -> bool) (l1 l2 : list loc) (a b : loc) :
  no_descent lt (l1 ++ a :: b :: l2) -> lt b a = false.
Proof.
  induction l1 as [|x l1 IH]; cbn [app].
  - intros [H _]. exact H.
  - destruct l1 as [|y l1]; cbn [app no_descent] in *; intros [_ H]; apply IH, H.
Qed.

Lemma insertion_fold_sorted_id (lt : loc -> loc -> bool) (l acc : list loc) :
  no_descent lt (rev acc ++ l) ->
  fold_left (fun a x => insert_back lt x a) l acc = rev l ++ acc.
Proof.
  revert acc. induction l as [|x l IH]; intros acc Hnd; cbn [fold_left rev];
    [reflexivity|].
  assert (Hins : insert_back lt x acc = x :: acc).
  { destruct acc as [|y acc]; [reflexivity|]. cbn [insert_back].
    cbn [rev] in Hnd. rewrite <- app_assoc in Hnd. cbn [app] in Hnd.
    rewrite (no_descent_middle _ _ _ _ _ Hnd). reflexivity. }
  rewrite Hins. rewrite IH.
  - rewrite <- app_assoc. reflexivity.
  - cbn [rev]. rewrite <- app_assoc. exact Hnd.
Qed.

Lemma insertionSort_keeps_sorted : sort_keeps_sorted insertionSort.
Proof.
  intros lt l Hnd. unfold insertionSort.
  rewrite insertion_fold_sorted_id by exact Hnd.
  rewrite app_nil_r. apply rev_involutive.
Qed.

(* ===================================================================== *)
(** ** The merge loop: what it leaves alone *)
(* ===================================================================== *)

Lemma merge_loop_frame (rest : list loc) :
  forall cur res h out h',
    merge_loop rest cur res h = Done (out, h') ->
    forall p r, h !! p = Some r ->
      exists r', h' !! p = Some r' /\ start r' = start r /\
                 (~ List.In p (cur :: rest) -> r' = r).
Proof.
  induction rest as [|next rest IH]; intros cur res h out h' Hrun p r Hp.
  - cbn in Hrun. injection Hrun as <- <-. exists r. repeat split; assumption.
  - cbn [merge_loop] in Hrun.
    destruct (deref h cur) as [c| |] eqn:Hc;
      cbn [mbind outcome_bind obind] in Hrun; try discriminate.
    destruct (deref h next) as [n| |] eqn:Hn;
      cbn [mbind outcome_bind obind] in Hrun; try discriminate.
    apply deref_Done in Hc. apply deref_Done in Hn.
    assert (Hskip : forall res0 cur0,
               merge_loop rest cur0 res0 h = Done (out, h') ->
               (cur0 = cur \/ cur0 = next) ->
               exists r', h' !! p = Some r' /\ start r' = start r /\
                          (~ List.In p (cur :: next :: rest) -> r' = r)).
    { intros res0 cur0 H0 Hcur0.
      destruct (IH _ _ _ _ _ H0 p r Hp) as (r' & H1 & H2 & H3).
      exists r'. split; [exact H1|]. split; [exact H2|].
      intros Hnin. apply H3. intros [Heq|Hin]; apply Hnin.
      - destruct Hcur0 as [->| ->]; [left|right; left]; exact Heq.
      - right. right. exact Hin. }
    destruct (bytesCompare (addOne (end_ c)) (start n)).
    + destruct (bytesCompare (end_ c) (end_ n)).
      * apply (Hskip _ _ Hrun). left. reflexivity.
      * destruct (Nat.eq_dec p cur) as [->|Hne].
        -- assert (Hp2 : <[cur := mkRange (start c) (end_ n)]> h !! cur
                         = Some (mkRange (start c) (end_ n))).
           { apply list_lookup_insert_eq. eapply lookup_lt_Some, Hp. }
           destruct (IH _ _ _ _ _ Hrun cur _ Hp2) as (r' & H1 & H2 & _).
           exists r'. split; [exact H1|]. split.
           ++ rewrite H2. cbn [start]. congruence.
           ++ intros Hnin. exfalso. apply Hnin. left. reflexivity.
        -- assert (Hp2 : <[cur := mkRange (start c) (end_ n)]> h !! p = Some r).
           { rewrite list_lookup_insert_ne by congruence. exact Hp. }
           destruct (IH _ _ _ _ _ Hrun p r Hp2) as (r' & H1 & H2 & H3).
           exists r'. split; [exact H1|]. split; [exact H2|].
           intros Hnin. apply H3. intros [Heq|Hin]; apply Hnin.
           ++ left. exact Heq.
           ++ right. right. exact Hin.
      * apply (Hskip _ _ Hrun). left. reflexivity.
    + apply (Hskip _ _ Hrun). right. reflexivity.
    + destruct (bytesCompare (end_ c) (end_ n)).
      * apply (Hskip _ _ Hrun). left. reflexivity.
      * destruct (Nat.eq_dec p cur) as [->|Hne].
        -- assert (Hp2 : <[cur := mkRange (start c) (end_ n)]> h !! cur
                         = Some (mkRange (start c) (end_ n))).
           { apply list_lookup_insert_eq. eapply lookup_lt_Some, Hp. }
           destruct (IH _ _ _ _ _ Hrun cur _ Hp2) as (r' & H1 & H2 & _).
           exists r'. split; [exact H1|]. split.
           ++ rewrite H2. cbn [start]. congruence.
           ++ intros Hnin. exfalso. apply Hnin. left. reflexivity.
        -- assert (Hp2 : <[cur := mkRange (start c) (end_ n)]> h !! p = Some r).
           { rewrite list_lookup_insert_ne by congruence. exact Hp. }
           destruct (IH _ _ _ _ _ Hrun p r Hp2) as (r' & H1 & H2 & H3).
           exists r'. split; [exact H1|]. split; [exact H2|].
           intros Hnin. apply H3. intros [Heq|Hin]; apply Hnin.
           ++ left. exact Heq.
           ++ right. right. exact Hin.
      * apply (Hskip _ _ Hrun). left. reflexivity.
Qed.

Lemma sortRangeList_inv (sortSlice : (loc -> loc -> bool) -> list loc -> list loc)
    (h : heap) (l sorted : list loc) :
  sortRangeList sortSlice h l = Done sorted -> sorted = sortSlice (less h) l.
Proof.
  unfold sortRangeList.
  destruct ((2 <=? length l)%nat && _); intros H; [discriminate|].
  injection H as <-. reflexivity.
Qed.

(** C5, as the code has it: after [MergeRanges] returns, every [Range]
    that existed before the call keeps its [start], and it is unchanged
    altogether unless it was handed in directly as a [*Range]; merge uses
    such a receiver itself as its accumulator and may replace its [end]. *)
Theorem MergeRanges_frame
    (sortSlice : (loc -> loc -> bool) -> list loc -> list loc)
    (ranges : list IRange) (h : heap) (out : list IRange) (h' : heap) :
  sort_permutes sortSlice ->
  MergeRanges sortSlice ranges h = Done (out, h') ->
  forall p r, h !! p = Some r ->
    exists r', h' !! p = Some r' /\ start r' = start r /\
               (~ List.In (IRange_Range p) ranges -> r' = r).
Proof.
  intros Hperm Hrun p r Hp. destruct ranges as [|x xs].
  { cbn in Hrun. injection Hrun as <- <-. exists r. repeat split; assumption. }
  unfold MergeRanges in Hrun.
  destruct (toRangeList (x :: xs) [] h) as [[rangeList h1]| |] eqn:Hconv;
    cbn [mbind outcome_bind obind] in Hrun; try discriminate.
  destruct (sortRangeList sortSlice h1 rangeList) as [sorted| |] eqn:Hsort;
    cbn [mbind outcome_bind obind] in Hrun; try discriminate.
  destruct sorted as [|cur rest]; [discriminate|].
  apply sortRangeList_inv in Hsort.
  destruct (toRangeList_inv _ _ _ _ _ Hconv) as (ps & fresh & Hl & -> & Hall).
  cbn [app] in Hl. subst rangeList.
  assert (Hp1 : (h ++ fresh) !! p = Some r).
  { rewrite lookup_app_l; [exact Hp|]. eapply lookup_lt_Some, Hp. }
  destruct (merge_loop_frame _ _ _ _ _ _ Hrun p r Hp1) as (r' & H1 & H2 & H3).
  exists r'. split; [exact H1|]. split; [exact H2|].
  intros Hnin. apply H3. intros Hin. rewrite Hsort in Hin.
  apply (Permutation_in _ (Permutation_sym (Hperm _ _))) in Hin.
  apply lookup_lt_Some in Hp.
  clear - Hall Hin Hnin Hp.
  induction Hall as [|y q ys qs [Hy _] _ IH]; [destruct Hin|].
  destruct Hin as [->|Hin].
  - destruct Hy as [->|[Hge _]]; [|lia]. apply Hnin. left. reflexivity.
  - apply IH; [|exact Hin]. intros H. apply Hnin. right. exact H.
Qed.

(* ===================================================================== *)
(** ** The merge loop on well-formed cells *)
(* ===================================================================== *)


Lemma wf_cell_bounds (n : nat) (r : Range) :
  wf_cell n r ->
  0 <= ipval (start r) <= ipval (end_ r) /\ ipval (end_ r) <= top n.
Proof.
  intros (Hs & He & Hls & Hle & Hse).
  pose proof (ipval_bound _ Hs) as Bs. pose proof (ipval_bound _ He) as Be.
  unfold top. unfold len in Be. rewrite Hle in Be. lia.
Qed.

Lemma compare_addOne_spec (n : nat) (c nx : Range) :
  wf_cell n c -> wf_cell n nx ->
  bytesCompare (addOne (end_ c)) (start nx) =
  ((ipval (end_ c) + 1) mod 2 ^ (8 * Z.of_nat n) ?= ipval (start nx)).
Proof.
  intros (_ & Hce & _ & Hcl & _) (Hns & _ & Hnl & _).
  rewrite bytesCompare_spec.
  - rewrite addOne_val by exact Hce. unfold len. rewrite Hcl. reflexivity.
  - apply addOne_wf, Hce.
  - exact Hns.
  - rewrite addOne_length. congruence.
Qed.

Lemma compare_end_spec (n : nat) (c nx : Range) :
  wf_cell n c -> wf_cell n nx ->
  bytesCompare (end_ c) (end_ nx) = (ipval (end_ c) ?= ipval (end_ nx)).
Proof.
  intros (_ & Hce & _ & Hcl & _) (_ & Hne & _ & Hnl & _).
  apply bytesCompare_spec; [assumption..|congruence].
Qed.

Lemma chain_of_rev (n : nat) (key : loc -> Z) (h : heap) (rres : list loc) :
  forall cur tail,
    chain_rev n key h cur rres -> chain n key h (cur :: tail) ->
    chain n key h (rev rres ++ cur :: tail).
Proof.
  induction rres as [|a rres IH]; intros cur tail Hrev Hch; cbn [rev app].
  - exact Hch.
  - destruct Hrev as [Hl Hrev]. rewrite <- app_assoc. cbn [app].
    apply IH; [exact Hrev|]. cbn [chain]. split; assumption.
Qed.

Lemma link_update (n : nat) (key : loc -> Z) (h : heap) (q : loc) (r : Range)
    (a b : loc) :
  a <> q -> link n key h a b -> link n key (<[q := r]> h) a b.
Proof.
  intros Hne [H1 H2]. split; [exact H1|]. unfold rend in *.
  rewrite list_lookup_insert_ne by congruence. exact H2.
Qed.

Lemma chain_rev_update (n : nat) (key : loc -> Z) (h : heap) (q : loc)
    (r : Range) (rres : list loc) :
  forall cur,
    (forall a, List.In a rres -> a <> q) ->
    chain_rev n key h cur rres -> chain_rev n key (<[q := r]> h) cur rres.
Proof.
  induction rres as [|a rres IH]; intros cur Hne Hch; [exact I|].
  destruct Hch as [Hl Hch]. split.
  - apply link_update; [apply Hne; left; reflexivity|exact Hl].
  - apply IH; [|exact Hch]. intros b Hb. apply Hne. right. exact Hb.
Qed.

Lemma cell_ok_update_ne (n : nat) (key : loc -> Z) (h : heap) (q p : loc)
    (r : Range) :
  p <> q -> cell_ok n key h p -> cell_ok n key (<[q := r]> h) p.
Proof.
  intros Hne (c & Hc & Hwf & Hk). exists c.
  rewrite list_lookup_insert_ne by congruence.
  split; [exact Hc|]. split; assumption.
Qed.

Lemma covered_by_update_ne (h : heap) (q p : loc) (r : Range) (a : Z) :
  p <> q -> covered_by (<[q := r]> h) p a <-> covered_by h p a.
Proof.
  intros Hne. unfold covered_by.
  rewrite list_lookup_insert_ne by congruence. reflexivity.
Qed.

Lemma sorted_head_le (key : loc -> Z) (cur : loc) (rest : list loc) (p : loc) :
  StronglySorted (fun a b => key a <= key b) (cur :: rest) ->
  List.In p (cur :: rest) -> key cur <= key p.
Proof.
  intros Hs [->|Hin]; [lia|].
  apply StronglySorted_inv in Hs as [_ Hall].
  rewrite List.Forall_forall in Hall. apply Hall, Hin.
Qed.

Lemma sorted_drop_second (key : loc -> Z) (cur next : loc) (rest : list loc) :
  StronglySorted (fun a b => key a <= key b) (cur :: next :: rest) ->
  StronglySorted (fun a b => key a <= key b) (cur :: rest) /\
  StronglySorted (fun a b => key a <= key b) (next :: rest).
Proof.
  intros Hs. apply StronglySorted_inv in Hs as [Hs Hall].
  split; [|exact Hs].
  apply StronglySorted_inv in Hs as [Hs' _].
  constructor; [exact Hs'|].
  apply List.Forall_cons_iff in Hall as [_ Hall]. exact Hall.
Qed.

Lemma cmp_ge_branch {A : Type} (c : comparison) (x y : A) :
  c <> Lt -> match c with Lt => x | _ => y end = y.
Proof. destruct c; intros H; [reflexivity|contradiction|reflexivity]. Qed.

Lemma in_lift (p cur next : loc) (rres rest : list loc) :
  List.In p (rres ++ cur :: rest) -> List.In p (rres ++ cur :: next :: rest).
Proof. rewrite !List.in_app_iff. cbn [List.In]. tauto. Qed.

Lemma in_split_next (p cur next : loc) (rres rest : list loc) :
  List.In p (rres ++ cur :: next :: rest) ->
  p = next \/ List.In p (rres ++ cur :: rest).
Proof.
  rewrite !List.in_app_iff. cbn [List.In]. intros [H|[H|[H|H]]]; auto.
Qed.

Lemma in_swap (p cur next : loc) (rres rest : list loc) :
  List.In p ((cur :: rres) ++ next :: rest) <->
  List.In p (rres ++ cur :: next :: rest).
Proof.
  cbn [app List.In]. rewrite !List.in_app_iff. cbn [List.In]. tauto.
Qed.

Lemma merge_loop_spec (n : nat) (key : loc -> Z) (rest : list loc) :
  forall cur rres h,
    (forall p, List.In p (rres ++ cur :: rest) -> cell_ok n key h p) ->
    StronglySorted (fun a b => key a <= key b) (cur :: rest) ->
    chain_rev n key h cur rres ->
    (forall a, List.In a rres -> List.In a (cur :: rest) -> rend h a = top n) ->
    exists outl h',
      merge_loop rest cur (List.map IRange_Range (rev rres)) h
        = Done (List.map IRange_Range outl, h') /\
      (forall p, List.In p outl -> cell_ok n key h' p) /\
      chain n key h' outl /\
      (forall a, covers_locs h' outl a <-> covers_locs h (rres ++ cur :: rest) a) /\
      outl <> [].
Proof.
  induction rest as [|next rest IH]; intros cur rres h Hcells Hsorted Hchain Hguard.
  - exists (rev rres ++ [cur]), h. split; [|split; [|split; [|split]]].
    + cbn [merge_loop]. rewrite List.map_app. reflexivity.
    + intros p Hp. apply Hcells. rewrite List.in_app_iff in *.
      rewrite <- List.in_rev in Hp. exact Hp.
    + apply chain_of_rev; [exact Hchain|exact I].
    + intros a. unfold covers_locs. split; intros (p & Hp & Hcov); exists p;
        (split; [|exact Hcov]); rewrite List.in_app_iff in *;
        rewrite <- List.in_rev in *; exact Hp.
    + destruct (rev rres); discriminate.
  - assert (Hincur : List.In cur (rres ++ cur :: next :: rest))
      by (apply List.in_app_iff; right; left; reflexivity).
    assert (Hinnext : List.In next (rres ++ cur :: next :: rest))
      by (apply List.in_app_iff; right; right; left; reflexivity).
    destruct (Hcells cur Hincur) as (c & Hc & Hwc & Hkc).
    destruct (Hcells next Hinnext) as (nx & Hnx & Hwn & Hkn).
    destruct (wf_cell_bounds n c Hwc) as [Bc1 Bc2].
    destruct (wf_cell_bounds n nx Hwn) as [Bn1 Bn2].
    destruct (sorted_drop_second key cur next rest Hsorted) as [Hs1 Hs2].
    assert (Hcn : key cur <= key next)
      by (apply (sorted_head_le key cur (next :: rest)); [exact Hsorted|right; left; reflexivity]).
    assert (Hrc : rend h cur = ipval (end_ c)) by (unfold rend; rewrite Hc; reflexivity).
    assert (Hcurlt : (cur < length h)%nat) by (eapply lookup_lt_Some, Hc).
    assert (HM : 0 < 2 ^ (8 * Z.of_nat n)) by (apply pow2_pos; lia).
    unfold top in *.
    cbn [merge_loop]. unfold deref. rewrite Hc, Hnx.
    cbn [mbind outcome_bind obind].
    rewrite (compare_addOne_spec n c nx Hwc Hwn).
    destruct (Z.lt_ge_cases ((ipval (end_ c) + 1) mod 2 ^ (8 * Z.of_nat n))
                            (ipval (start nx))) as [Hlt|Hge].
    + (* not adjacent: current is finished *)
      rewrite (proj2 (Z.compare_lt_iff _ _) Hlt).
      destruct (IH next (cur :: rres) h) as (outl & h' & Hrun & Hok & Hch & Hcov & Hne).
      * intros p Hp. apply Hcells. apply in_swap. exact Hp.
      * exact Hs2.
      * split; [|exact Hchain]. split; [exact Hcn|]. rewrite Hrc, <- Hkn. exact Hlt.
      * intros a [<-|Ha] Hin.
        -- pose proof (sorted_head_le key next rest cur Hs2 Hin) as Hnc.
           rewrite Hrc.
           destruct (Z.lt_ge_cases (ipval (end_ c) + 1) (2 ^ (8 * Z.of_nat n)))
             as [Hsmall|Hbig]; [|lia].
           rewrite Z.mod_small in Hlt by lia. lia.
        -- apply Hguard; [exact Ha|]. right. exact Hin.
      * exists outl, h'. split; [|split; [|split; [|split]]]; try assumption.
        -- cbn [rev] in Hrun. rewrite List.map_app in Hrun. exact Hrun.
        -- intros a. rewrite Hcov. unfold covers_locs.
           split; intros (p & Hp & Hc'); exists p; (split; [|exact Hc']);
             apply in_swap; exact Hp.
    + (* overlapping or adjacent *)
      assert (Hnlt : ((ipval (end_ c) + 1) mod 2 ^ (8 * Z.of_nat n)
                      ?= ipval (start nx)) <> Lt)
        by (rewrite Z.compare_lt_iff; lia).
      rewrite (cmp_ge_branch _ _ _ Hnlt).
      rewrite (compare_end_spec n c nx Hwc Hwn).
      destruct (Z.lt_ge_cases (ipval (end_ c)) (ipval (end_ nx))) as [Hext|Hin].
      * (* the end of current moves to the end of next *)
        rewrite (proj2 (Z.compare_lt_iff _ _) Hext).
        rewrite Z.mod_small in Hge by lia.
        set (c' := mkRange (start c) (end_ nx)).
        assert (Hnocur : forall a, List.In a rres -> a <> cur).
        { intros a Ha ->. specialize (Hguard cur Ha ltac:(left; reflexivity)). lia. }
        assert (Hc' : <[cur := c']> h !! cur = Some c')
          by (apply list_lookup_insert_eq; exact Hcurlt).
        destruct (IH cur rres (<[cur := c']> h))
          as (outl & h' & Hrun & Hok & Hch & Hcov & Hne).
        -- intros p Hp. destruct (Nat.eq_dec p cur) as [->|Hpc].
           ++ exists c'. split; [exact Hc'|]. split; [|exact Hkc].
              destruct Hwc as (W1 & W2 & W3 & W4 & W5).
              destruct Hwn as (V1 & V2 & V3 & V4 & V5).
              unfold wf_cell, c'. cbn [start end_]. repeat split; try assumption. lia.
           ++ apply cell_ok_update_ne; [exact Hpc|]. apply Hcells, in_lift, Hp.
        -- exact Hs1.
        -- apply chain_rev_update; assumption.
        -- intros a Ha Hina. unfold rend.
           rewrite list_lookup_insert_ne by (intros Heq; apply (Hnocur a Ha); congruence).
           apply Hguard; [exact Ha|]. destruct Hina as [->|Hina]; [left; reflexivity|].
           right. right. exact Hina.
        -- exists outl, h'. split; [exact Hrun|]. split; [exact Hok|].
           split; [exact Hch|]. split; [|exact Hne].
           intros a. rewrite Hcov. unfold covers_locs. split.
           ++ intros (p & Hp & Hcv). destruct (Nat.eq_dec p cur) as [->|Hpc].
              ** destruct Hcv as (r & Hr & Hra). rewrite Hc' in Hr. injection Hr as <-.
                 unfold in_range, c' in Hra. cbn [start end_] in Hra.
                 destruct (Z.le_gt_cases a (ipval (end_ c))) as [Hlow|Hhigh].
                 --- exists cur. split; [exact Hincur|]. exists c.
                     split; [exact Hc|]. unfold in_range. lia.
                 --- exists next. split; [exact Hinnext|]. exists nx.
                     split; [exact Hnx|]. unfold in_range. lia.
              ** exists p. split; [apply in_lift, Hp|].
                 apply (covered_by_update_ne h cur p c' a Hpc). exact Hcv.
           ++ intros (p & Hp & Hcv). destruct (Nat.eq_dec p cur) as [->|Hpc].
              ** exists cur. split; [apply List.in_app_iff; right; left; reflexivity|].
                 destruct Hcv as (r & Hr & Hra). rewrite Hc in Hr. injection Hr as <-.
                 exists c'. split; [exact Hc'|]. unfold in_range, c' in *.
                 cbn [start end_]. lia.
              ** destruct (in_split_next _ _ _ _ _ Hp) as [->|Hp'].
                 --- exists cur. split; [apply List.in_app_iff; right; left; reflexivity|].
                     destruct Hcv as (r & Hr & Hra). rewrite Hnx in Hr. injection Hr as <-.
                     exists c'. split; [exact Hc'|]. unfold in_range, c' in *.
                     cbn [start end_]. lia.
                 --- exists p. split; [exact Hp'|].
                     apply (covered_by_update_ne h cur p c' a Hpc). exact Hcv.
      * (* next lies inside current *)
        assert (Hnlt2 : (ipval (end_ c) ?= ipval (end_ nx)) <> Lt)
          by (rewrite Z.compare_lt_iff; lia).
        rewrite (cmp_ge_branch _ _ _ Hnlt2).
        destruct (IH cur rres h) as (outl & h' & Hrun & Hok & Hch & Hcov & Hne).
        -- intros p Hp. apply Hcells, in_lift, Hp.
        -- exact Hs1.
        -- exact Hchain.
        -- intros a Ha Hina. apply Hguard; [exact Ha|].
           destruct Hina as [->|Hina]; [left; reflexivity|]. right. right. exact Hina.
        -- exists outl, h'. split; [exact Hrun|]. split; [exact Hok|].
           split; [exact Hch|]. split; [|exact Hne].
           intros a. rewrite Hcov. unfold covers_locs. split.
           ++ intros (p & Hp & Hcv). exists p. split; [apply in_lift, Hp|exact Hcv].
           ++ intros (p & Hp & Hcv). destruct (in_split_next _ _ _ _ _ Hp) as [->|Hp'].
              ** exists cur. split; [apply List.in_app_iff; right; left; reflexivity|].
                 destruct Hcv as (r & Hr & Hra). rewrite Hnx in Hr. injection Hr as <-.
                 exists c. split; [exact Hc|]. unfold in_range in *.
                 assert (Hmod : ipval (start nx) <= ipval (end_ c) + 1).
                 { destruct (Z.lt_ge_cases (ipval (end_ c) + 1) (2 ^ (8 * Z.of_nat n)))
                     as [Hsmall|Hbig].
                   - rewrite Z.mod_small in Hge by lia. lia.
                   - lia. }
                 lia.
              ** exists p. split; [exact Hp'|exact Hcv].
Qed.

Lemma remerge (n : nat) (key : loc -> Z) (l : list loc) :
  forall cur res h,
    (forall p, List.In p (cur :: l) -> cell_ok n key h p) ->
    chain n key h (cur :: l) ->
    merge_loop l cur res h = Done (res ++ List.map IRange_Range (cur :: l), h).
Proof.
  induction l as [|next l IH]; intros cur res h Hcells Hch; [reflexivity|].
  destruct (Hcells cur ltac:(left; reflexivity)) as (c & Hc & Hwc & Hkc).
  destruct (Hcells next ltac:(right; left; reflexivity)) as (nx & Hnx & Hwn & Hkn).
  destruct Hch as [[_ Hlink] Hch].
  cbn [merge_loop]. unfold deref. rewrite Hc, Hnx.
  cbn [mbind outcome_bind obind].
  rewrite (compare_addOne_spec n c nx Hwc Hwn).
  unfold rend in Hlink. rewrite Hc, <- Hkn in Hlink.
  rewrite (proj2 (Z.compare_lt_iff _ _) Hlink).
  rewrite IH.
  - rewrite <- app_assoc. reflexivity.
  - intros p Hp. apply Hcells. right. exact Hp.
  - exact Hch.
Qed.

Lemma toRangeList_pointers (l : list loc) (acc : list loc) (h : heap) :
  toRangeList (List.map IRange_Range l) acc h = Done (acc ++ l, h).
Proof.
  revert acc. induction l as [|p l IH]; intros acc; cbn [List.map toRangeList].
  - rewrite app_nil_r. reflexivity.
  - cbn [ToRange mbind outcome_bind obind]. rewrite IH, <- app_assoc. reflexivity.
Qed.

Lemma toRangeList_total (xs : list IRange) :
  forall acc h,
    (forall x, List.In x xs -> exists r, normalize h x = Done r) ->
    exists l h1, toRangeList xs acc h = Done (l, h1).
Proof.
  induction xs as [|x xs IH]; intros acc h Hn; cbn [toRangeList].
  - eauto.
  - destruct (Hn x ltac:(left; reflexivity)) as (r & Hr).
    assert (Hrest : forall c y, List.In y xs ->
                                exists r', normalize (h ++ [c]) y = Done r').
    { intros c y Hy. destruct (Hn y ltac:(right; exact Hy)) as (r' & Hr').
      exists r'. apply normalize_alloc, Hr'. }
    destruct x as [p|ip|net]; cbn [ToRange normalize alloc] in *.
    + cbn [mbind outcome_bind obind]. apply IH.
      intros y Hy. apply Hn. right. exact Hy.
    + cbn [mbind outcome_bind obind]. apply IH, Hrest.
    + rewrite Hr. cbn [mbind outcome_bind obind]. apply IH, Hrest.
Qed.

Lemma sortRangeList_valid
    (sortSlice : (loc -> loc -> bool) -> list loc -> list loc)
    (h : heap) (l : list loc) :
  (forall p, List.In p l -> is_Some (h !! p)) ->
  sortRangeList sortSlice h l = Done (sortSlice (less h) l).
Proof.
  intros Hv. unfold sortRangeList.
  assert (Hall : forallb (fun p => bool_decide (is_Some (h !! p))) l = true).
  { apply List.forallb_forall. intros p Hp. apply bool_decide_eq_true, Hv, Hp. }
  rewrite Hall. rewrite andb_false_r. reflexivity.
Qed.

Lemma less_key (n : nat) (key : loc -> Z) (h : heap) (a b : loc) :
  cell_ok n key h a -> cell_ok n key h b -> less h a b = (key a <? key b).
Proof.
  intros (ra & Ha & Hwa & Hka) (rb & Hb & Hwb & Hkb).
  unfold less. rewrite Ha, Hb.
  destruct Hwa as (Wa & _ & La & _). destruct Hwb as (Wb & _ & Lb & _).
  rewrite bytesCompare_spec by (assumption || congruence).
  rewrite Hka, Hkb. unfold Z.ltb. reflexivity.
Qed.

Lemma chain_no_descent (n : nat) (key : loc -> Z) (h : heap) (l : list loc) :
  (forall p, List.In p l -> cell_ok n key h p) ->
  chain n key h l -> no_descent (less h) l.
Proof.
  induction l as [|a l IH]; intros Hcells Hch; [exact I|].
  destruct l as [|b l]; [exact I|].
  destruct Hch as [[Hab _] Hch]. split.
  - rewrite (less_key n key h b a).
    + apply Z.ltb_ge. exact Hab.
    + apply Hcells. right. left. reflexivity.
    + apply Hcells. left. reflexivity.
  - apply IH; [|exact Hch]. intros p Hp. apply Hcells. right. exact Hp.
Qed.

Lemma converted_cells (n : nat) (h h1 : heap) (ys : list IRange) (ps : list loc) :
  Forall2 (fun x p => forall r, normalize h x = Done r -> h1 !! p = Some r) ys ps ->
  wf_inputs n h ys ->
  forall p, List.In p ps -> cell_ok n (rstart h1) h1 p.
Proof.
  induction 1 as [|y q ys qs Hy _ IH]; intros Hwf p Hp; [destruct Hp|].
  destruct Hp as [<-|Hp].
  - destruct (Hwf y ltac:(left; reflexivity)) as (r & Hr & Hwr).
    exists r. specialize (Hy r Hr). split; [exact Hy|]. split; [exact Hwr|].
    unfold rstart. rewrite Hy. reflexivity.
  - apply IH; [|exact Hp]. intros z Hz. apply Hwf. right. exact Hz.
Qed.

Lemma converted_covers (n : nat) (h h1 : heap) (ys : list IRange) (ps : list loc) :
  Forall2 (fun x p => forall r, normalize h x = Done r -> h1 !! p = Some r) ys ps ->
  wf_inputs n h ys ->
  forall a, covers_locs h1 ps a <-> covers h ys a.
Proof.
  induction 1 as [|y q ys qs Hy _ IH]; intros Hwf a.
  - split; [intros (p & [] & _)|intros (z & r & [] & _)].
  - assert (IH' := IH ltac:(intros z Hz; apply Hwf; right; exact Hz) a).
    destruct (Hwf y ltac:(left; reflexivity)) as (r & Hr & _).
    specialize (Hy r Hr). split.
    + intros (p & [<-|Hp] & Hc).
      * destruct Hc as (r' & Hr' & Ha). rewrite Hy in Hr'. injection Hr' as <-.
        exists y, r. split; [left; reflexivity|]. split; assumption.
      * destruct (proj1 IH' (ex_intro _ p (conj Hp Hc))) as (z & rz & Hz & Hnz & Haz).
        exists z, rz. split; [right; exact Hz|]. split; assumption.
    + intros (z & rz & [<-|Hz] & Hnz & Haz).
      * rewrite Hr in Hnz. injection Hnz as <-.
        exists q. split; [left; reflexivity|]. exists r. split; assumption.
      * destruct (proj2 IH' (ex_intro _ z (ex_intro _ rz (conj Hz (conj Hnz Haz)))))
          as (p & Hp & Hc).
        exists p. split; [right; exact Hp|exact Hc].
Qed.

(** The state of [MergeRanges] after conversion and sorting. *)
Lemma MergeRanges_prepare
    (sortSlice : (loc -> loc -> bool) -> list loc -> list loc)
    (n : nat) (h : heap) (x : IRange) (xs : list IRange) :
  sort_permutes sortSlice -> sort_orders sortSlice ->
  wf_inputs n h (x :: xs) ->
  exists rangeList h1 cur rest,
    toRangeList (x :: xs) [] h = Done (rangeList, h1) /\
    sortRangeList sortSlice h1 rangeList = Done (cur :: rest) /\
    (forall p, List.In p (cur :: rest) -> cell_ok n (rstart h1) h1 p) /\
    StronglySorted (fun a b => rstart h1 a <= rstart h1 b) (cur :: rest) /\
    (forall a, covers_locs h1 (cur :: rest) a <-> covers h (x :: xs) a).
Proof.
  intros Hperm Hord Hwf.
  destruct (toRangeList_total (x :: xs) [] h) as (rangeList & h1 & Hconv).
  { intros y Hy. destruct (Hwf y Hy) as (r & Hr & _). eauto. }
  destruct (toRangeList_inv _ _ _ _ _ Hconv) as (ps & fresh & Hl & Hh1 & Hall).
  cbn [app] in Hl. subst rangeList.
  assert (Hall' : Forall2 (fun x p => forall r, normalize h x = Done r ->
                                                 h1 !! p = Some r) (x :: xs) ps).
  { eapply Forall2_impl; [exact Hall|]. intros y q [_ Hy]. exact Hy. }
  pose proof (converted_cells n h h1 _ _ Hall' Hwf) as Hcells.
  pose proof (converted_covers n h h1 _ _ Hall' Hwf) as Hcov.
  assert (Hval : forall p, List.In p ps -> is_Some (h1 !! p)).
  { intros p Hp. destruct (Hcells p Hp) as (r & Hr & _). rewrite Hr. eauto. }
  pose proof (sortRangeList_valid sortSlice h1 ps Hval) as Hsort.
  pose proof (Hperm (less h1) ps) as Hp.
  assert (Hsorted : StronglySorted (fun a b => rstart h1 a <= rstart h1 b)
                      (sortSlice (less h1) ps)).
  { apply Hord. intros a b Ha Hb. apply (less_key n); apply Hcells; assumption. }
  destruct (sortSlice (less h1) ps) as [|cur rest] eqn:Hs.
  { apply Permutation_sym, Permutation_nil in Hp. subst ps.
    apply Forall2_length in Hall. discriminate. }
  exists ps, h1, cur, rest. split; [exact Hconv|]. split; [exact Hsort|].
  split; [|split; [exact Hsorted|]].
  - intros p Hin. apply Hcells. apply (Permutation_in _ (Permutation_sym Hp)), Hin.
  - intros a. rewrite <- Hcov. unfold covers_locs.
    split; intros (p & Hin & Hc); exists p; (split; [|exact Hc]).
    + apply (Permutation_in _ (Permutation_sym Hp)), Hin.
    + apply (Permutation_in _ Hp), Hin.
Qed.

(* ===================================================================== *)
(** ** MergeRanges on well-formed collections *)
(* ===================================================================== *)

(** The summary of a call on a non-empty collection: the output is a list
    of pointers to well-formed cells, every one separated from the next by
    the adjacency test, and it covers what the input covered. *)
Lemma MergeRanges_run
    (sortSlice : (loc -> loc -> bool) -> list loc -> list loc)
    (n : nat) (h : heap) (x : IRange) (xs : list IRange) :
  sort_permutes sortSlice -> sort_orders sortSlice ->
  wf_inputs n h (x :: xs) ->
  exists key outl h',
    MergeRanges sortSlice (x :: xs) h = Done (List.map IRange_Range outl, h') /\
    (forall p, List.In p outl -> cell_ok n key h' p) /\
    chain n key h' outl /\
    (forall a, covers_locs h' outl a <-> covers h (x :: xs) a) /\
    outl <> [].
Proof.
  intros Hperm Hord Hwf.
  destruct (MergeRanges_prepare sortSlice n h x xs Hperm Hord Hwf)
    as (rangeList & h1 & cur & rest & Hconv & Hsort & Hcells & Hsorted & Hcov).
  destruct (merge_loop_spec n (rstart h1) rest cur [] h1)
    as (outl & h' & Hrun & Hok & Hch & Hcov' & Hne).
  - exact Hcells.
  - exact Hsorted.
  - exact I.
  - intros a [].
  - exists (rstart h1), outl, h'. unfold MergeRanges.
    rewrite Hconv. cbn [mbind outcome_bind obind].
    rewrite Hsort. cbn [mbind outcome_bind obind].
    split; [exact Hrun|]. split; [exact Hok|]. split; [exact Hch|].
    split; [|exact Hne]. intros a. rewrite Hcov'. apply Hcov.
Qed.


(** C9 -- Merge idempotence: merging the output of a merge, in the heap
    the first merge left, returns the same list of intervals and changes
    no cell. *)
Theorem MergeRanges_idempotent
    (sortSlice : (loc -> loc -> bool) -> list loc -> list loc)
    (n : nat) (h : heap) (ranges : list IRange) :
  sort_permutes sortSlice -> sort_orders sortSlice ->
  sort_keeps_sorted sortSlice ->
  wf_inputs n h ranges ->
  exists out h',
    MergeRanges sortSlice ranges h = Done (out, h') /\
    MergeRanges sortSlice out h' = Done (out, h').
Proof.
  intros Hperm Hord Hkeep Hwf. destruct ranges as [|x xs].
  - exists [], h. split; reflexivity.
  - destruct (MergeRanges_run sortSlice n h x xs Hperm Hord Hwf)
      as (key & outl & h' & Hrun & Hok & Hch & _ & Hne).
    exists (List.map IRange_Range outl), h'. split; [exact Hrun|].
    destruct outl as [|cur rest]; [contradiction|].
    unfold MergeRanges. cbn [List.map].
    change (IRange_Range cur :: List.map IRange_Range rest)
      with (List.map IRange_Range (cur :: rest)).
    rewrite toRangeList_pointers. cbn [app mbind outcome_bind obind].
    rewrite sortRangeList_valid.
    + rewrite (Hkeep (less h') (cur :: rest))
        by (apply (chain_no_descent n key); assumption).
      cbn [mbind outcome_bind obind].
      rewrite (remerge n key rest cur [] h' Hok Hch). reflexivity.
    + intros p Hp. destruct (Hok p Hp) as (r & Hr & _). rewrite Hr. eauto.
Qed.

(* ===================================================================== *)
(** ** The shape of the output of MergeRanges *)
(* ===================================================================== *)

Lemma chain_separated (n : nat) (key : loc -> Z) (h : heap) (l : list loc) :
  (forall p, List.In p l -> cell_ok n key h p) ->
  chain n key h l -> ForallOrdPairs (separated n h) l.
Proof.
  induction l as [|a l IH]; intros Hcells Hch; [constructor|].
  assert (Htail : ForallOrdPairs (separated n h) l).
  { apply IH; [intros p Hp; apply Hcells; right; exact Hp|].
    destruct l as [|b l]; [exact I|]. apply Hch. }
  constructor; [|exact Htail].
  destruct l as [|b l]; [constructor|].
  destruct Hch as [[Hab Hlink] _].
  destruct (Hcells a ltac:(left; reflexivity)) as (ra & Ha & Hwa & Hka).
  destruct (Hcells b ltac:(right; left; reflexivity)) as (rb & Hb & Hwb & Hkb).
  destruct (wf_cell_bounds n ra Hwa) as [Ba1 Ba2].
  unfold rend in Hlink. rewrite Ha in Hlink.
  assert (HM : 0 < 2 ^ (8 * Z.of_nat n)) by (apply pow2_pos; lia).
  assert (Hsep : forall c rc, h !! c = Some rc -> key b <= ipval (start rc) ->
                              separated n h a c).
  { intros c rc Hc Hbc. exists ra, rc.
    split; [exact Ha|]. split; [exact Hc|]. split; [lia|]. split; [lia|].
    intros Hnt. unfold top in *. rewrite Z.mod_small in Hlink by lia. lia. }
  constructor.
  - apply (Hsep b rb Hb). lia.
  - inversion Htail as [|? ? Hfb _]; subst.
    eapply List.Forall_impl; [|exact Hfb].
    intros c (rb' & rc & Hb' & Hc & Hle & _). rewrite Hb in Hb'.
    injection Hb' as <-. apply (Hsep c rc Hc). lia.
Qed.

(** X19 -- The output on a non-empty collection of well-formed intervals
    is a list of well-formed intervals ordered by start, in which every
    interval is separated from all later ones: the wrapping adjacency
    test fails for them, and they are disjoint and not adjacent unless
    the earlier one ends at the last address. *)
Lemma MergeRanges_shape
    (sortSlice : (loc -> loc -> bool) -> list loc -> list loc)
    (n : nat) (h : heap) (x : IRange) (xs : list IRange) :
  sort_permutes sortSlice -> sort_orders sortSlice ->
  wf_inputs n h (x :: xs) ->
  exists outl h',
    MergeRanges sortSlice (x :: xs) h = Done (List.map IRange_Range outl, h') /\
    (forall p, List.In p outl -> exists r, h' !! p = Some r /\ wf_cell n r) /\
    ForallOrdPairs (separated n h') outl.
Proof.
  intros Hperm Hord Hwf.
  destruct (MergeRanges_run sortSlice n h x xs Hperm Hord Hwf)
    as (key & outl & h' & Hrun & Hok & Hch & _ & _).
  exists outl, h'. split; [exact Hrun|]. split.
  - intros p Hp. destruct (Hok p Hp) as (r & Hr & Hwr & _). eauto.
  - apply (chain_separated n key); assumption.
Qed.

(* ===================================================================== *)
(** ** The claims on concrete inputs *)
(* ===================================================================== *)

(** C1 at [10.0.0.4, 10.0.0.4]: the only block returned is
    [10.0.0.4/31], which holds [10.0.0.5], an address outside the
    interval. *)
Theorem ToIpNets_overrun :
  Range_ToIpNets (mkRange [10;0;0;4] [10;0;0;4])
    = Done [mkIPNet [10;0;0;4] [255;255;255;254]] /\
  covered [mkIPNet [10;0;0;4] [255;255;255;254]] (ipval [10;0;0;5]) /\
  ~ in_range (mkRange [10;0;0;4] [10;0;0;4]) (ipval [10;0;0;5]).
Proof.
  split; [vm_compute; reflexivity|]. split.
  - apply Exists_cons_hd. exists [10;0;0;5].
    split; [vm_compute; reflexivity|]. split; le_by_compute.
  - unfold in_range. cbn [start end_]. intros [_ H]. revert H.
    unfold Z.le. vm_compute. intros H. apply H. reflexivity.
Qed.

(** C3 at the single address [10.0.0.4]: the interval [a, a] decomposes
    into one block of prefix length 31, where the wrapper of the same
    address gives prefix length 32. *)
Theorem ToIpNets_single_even :
  Range_ToIpNets (IpWrapper_ToRange [10;0;0;4])
    = Done [mkIPNet [10;0;0;4] [255;255;255;254]] /\
  prefixLen (mkIPNet [10;0;0;4] [255;255;255;254]) = 31 /\
  bitWidth [10;0;0;4] = 32 /\
  IpWrapper_ToIpNets [10;0;0;4] = [mkIPNet [10;0;0;4] [255;255;255;255]].
Proof. repeat split; vm_compute; reflexivity. Qed.

(** C6 at the block [192.168.2.0/24]: its interval decomposes into the
    single block [192.168.2.0/23]. *)
Theorem ToIpNets_roundtrip_fails :
  let n := mkIPNet [192;168;2;0] [255;255;255;0] in
  IPNet_Mask n = CIDRMask 24 32 /\
  ipval (IPNet_IP n) mod 2 ^ (32 - 24) = 0 /\
  IpNetWrapper_ToRange n = Done (mkRange [192;168;2;0] [192;168;2;255]) /\
  Range_ToIpNets (mkRange [192;168;2;0] [192;168;2;255])
    = Done [mkIPNet [192;168;2;0] [255;255;254;0]] /\
  IpNetWrapper_ToIpNets n = [n] /\
  [mkIPNet [192;168;2;0] [255;255;254;0]] <> [n].
Proof.
  cbv zeta. repeat split; try (vm_compute; reflexivity). intros H. discriminate H.
Qed.

(** C4 at the whole 4-byte address space, the interval of the block
    [0.0.0.0/0]: the decomposition returns 33 blocks for a bit width of
    32, where [IpNetWrapper.ToIpNets] of that block returns one. *)
Theorem ToIpNets_whole_space_33 :
  wf_interval whole_v4 /\
  ipval (start whole_v4) <= ipval (end_ whole_v4) /\
  IpNetWrapper_ToRange (mkIPNet [0;0;0;0] [0;0;0;0]) = Done whole_v4 /\
  IpNetWrapper_ToIpNets (mkIPNet [0;0;0;0] [0;0;0;0])
    = [mkIPNet [0;0;0;0] [0;0;0;0]] /\
  Range_ToIpNets whole_v4 = Done whole_v4_blocks /\
  len whole_v4_blocks = 33 /\
  bitWidth (start whole_v4) = 32.
Proof.
  split; [wf_interval_tac|]. split; [le_by_compute|].
  repeat split; vm_compute; reflexivity.
Qed.

Lemma ToIpNets_aligned_witness :
  wf_interval (mkRange [10;0;0;3] [10;0;2;17]) /\
  ipval [10;0;0;3] <= ipval [10;0;2;17] /\
  exists l, Range_ToIpNets (mkRange [10;0;0;3] [10;0;2;17]) = Done l /\
            Forall (fun n => 0 <= prefixLen n <= bitWidth (IPNet_IP n) /\
                             aligned n) l.
Proof.
  assert (Hwf : wf_interval (mkRange [10;0;0;3] [10;0;2;17]))
    by wf_interval_tac.
  assert (Hle : ipval [10;0;0;3] <= ipval [10;0;2;17]) by le_by_compute.
  split; [exact Hwf|]. split; [exact Hle|].
  exact (ToIpNets_aligned (mkRange [10;0;0;3] [10;0;2;17]) Hwf Hle).
Defined.

Lemma ToIpNets_inverted_witness :
  wf_ip [10;0;0;9] /\ wf_ip [10;0;0;1] /\
  length [10;0;0;9] = length [10;0;0;1] /\
  ipval [10;0;0;1] < ipval [10;0;0;9] /\
  Range_ToIpNets (mkRange [10;0;0;9] [10;0;0;1]) = Done [].
Proof.
  assert (Hs : wf_ip [10;0;0;9]) by wf_bytes.
  assert (He : wf_ip [10;0;0;1]) by wf_bytes.
  assert (Hlt : ipval [10;0;0;1] < ipval [10;0;0;9]) by (vm_compute; reflexivity).
  split; [exact Hs|]. split; [exact He|]. split; [reflexivity|].
  split; [exact Hlt|].
  exact (ToIpNets_inverted [10;0;0;9] [10;0;0;1] Hs He eq_refl Hlt).
Defined.

(** C5 fails when a [*Range] is handed in directly: the first interval of
    the third scenario leaves the call with the end of the second. *)
Lemma MergeRanges_mutates_receiver :
  MergeRanges insertionSort
    [IRange_Range 0%nat; IRange_Range 1%nat; IRange_Range 2%nat] heap_scenario3
  = Done ([IRange_Range 0%nat; IRange_Range 2%nat],
          [ mkRange [192;168;1;1] [192;168;1;100];
            mkRange [192;168;1;30] [192;168;1;100];
            mkRange [192;168;2;1] [192;168;2;50] ]) /\
  heap_scenario3 !! 0%nat = Some (mkRange [192;168;1;1] [192;168;1;50]) /\
  [192;168;1;100] <> [192;168;1;50].
Proof.
  split; [vm_compute; reflexivity|]. split; [reflexivity|].
  intros H. discriminate H.
Qed.

(** C2 at an interval that ends at the last address: the overlapping
    intervals [0.0.0.0-255.255.255.255] and [10.0.0.0-10.0.0.5] are both
    returned, and [10.0.0.0] lies in both. *)
Theorem MergeRanges_overlap_at_top :
  MergeRanges insertionSort [IRange_Range 0%nat; IRange_Range 1%nat] heap_top
  = Done ([IRange_Range 0%nat; IRange_Range 1%nat], heap_top) /\
  in_range (mkRange [0;0;0;0] [255;255;255;255]) (ipval [10;0;0;0]) /\
  in_range (mkRange [10;0;0;0] [10;0;0;5]) (ipval [10;0;0;0]).
Proof.
  split; [vm_compute; reflexivity|].
  unfold in_range. cbn [start end_]. repeat split; le_by_compute.
Qed.

Lemma inputs_mixed_wf : wf_inputs 4 heap_scenario3 inputs_mixed.
Proof.
  intros x Hx. unfold inputs_mixed in Hx. cbn [List.In] in Hx.
  destruct Hx as [<-|[<-|[<-|[<-|[<-|[]]]]]];
    (eexists; split; [vm_compute; reflexivity|]);
    (split; [wf_bytes|split; [wf_bytes|]]);
    (split; [reflexivity|split; [reflexivity|]]);
    cbn [start end_]; le_by_compute.
Defined.

Lemma MergeRanges_frame_witness :
  sort_permutes insertionSort /\
  MergeRanges insertionSort
    [IRange_Range 0%nat; IRange_Range 1%nat; IRange_Range 2%nat] heap_scenario3
  = Done ([IRange_Range 0%nat; IRange_Range 2%nat],
          [ mkRange [192;168;1;1] [192;168;1;100];
            mkRange [192;168;1;30] [192;168;1;100];
            mkRange [192;168;2;1] [192;168;2;50] ]) /\
  heap_scenario3 !! 0%nat = Some (mkRange [192;168;1;1] [192;168;1;50]) /\
  exists r',
    [ mkRange [192;168;1;1] [192;168;1;100];
      mkRange [192;168;1;30] [192;168;1;100];
      mkRange [192;168;2;1] [192;168;2;50] ] !! 0%nat = Some r' /\
    start r' = start (mkRange [192;168;1;1] [192;168;1;50]) /\
    (~ List.In (IRange_Range 0%nat)
         [IRange_Range 0%nat; IRange_Range 1%nat; IRange_Range 2%nat] ->
     r' = mkRange [192;168;1;1] [192;168;1;50]).
Proof.
  assert (Hrun : MergeRanges insertionSort
            [IRange_Range 0%nat; IRange_Range 1%nat; IRange_Range 2%nat]
            heap_scenario3
          = Done ([IRange_Range 0%nat; IRange_Range 2%nat],
                  [ mkRange [192;168;1;1] [192;168;1;100];
                    mkRange [192;168;1;30] [192;168;1;100];
                    mkRange [192;168;2;1] [192;168;2;50] ]))
    by (vm_compute; reflexivity).
  split; [exact insertionSort_permutes|]. split; [exact Hrun|].
  split; [reflexivity|].
  exact (MergeRanges_frame insertionSort _ _ _ _ insertionSort_permutes Hrun
           0%nat _ eq_refl).
Defined.



Lemma MergeRanges_idempotent_witness :
  sort_permutes insertionSort /\ sort_orders insertionSort /\
  sort_keeps_sorted insertionSort /\
  wf_inputs 4 heap_scenario3 inputs_mixed /\
  exists out h',
    MergeRanges insertionSort inputs_mixed heap_scenario3 = Done (out, h') /\
    MergeRanges insertionSort out h' = Done (out, h').
Proof.
  split; [exact insertionSort_permutes|].
  split; [exact insertionSort_orders|].
  split; [exact insertionSort_keeps_sorted|].
  split; [exact inputs_mixed_wf|].
  exact (MergeRanges_idempotent insertionSort 4 heap_scenario3 inputs_mixed
           insertionSort_permutes insertionSort_orders
           insertionSort_keeps_sorted inputs_mixed_wf).
Defined.

(* ===================================================================== *)
(** ** Further properties: the arithmetic primitives *)
(* ===================================================================== *)

(** X1 -- [addOne] is the successor modulo [2 ^ bitWidth]: the result has
    the length of the argument, holds bytes, and its value is the value
    of the argument plus one, reduced modulo [2 ^ bitWidth]; the last
    address wraps to the zero address. *)
Theorem addOne_successor (ip : IP) :
  wf_ip ip ->
  wf_ip (addOne ip) /\ length (addOne ip) = length ip /\
  ipval (addOne ip) = (ipval ip + 1) mod 2 ^ bitWidth ip /\
  (ipval ip = 2 ^ bitWidth ip - 1 -> ipval (addOne ip) = 0).
Proof.
  intros Hwf. split; [apply addOne_wf, Hwf|]. split; [apply addOne_length|].
  pose proof (addOne_val ip Hwf) as Hv. unfold bitWidth. split; [exact Hv|].
  intros Htop. rewrite Hv, Htop.
  replace (2 ^ (8 * len ip) - 1 + 1) with (2 ^ (8 * len ip)) by lia.
  apply Z.mod_same. pose proof (pow2_pos (8 * len ip)).
  pose proof (len_nonneg ip). lia.
Qed.

Lemma addOne_successor_witness :
  wf_ip [10;0;255;255] /\
  wf_ip (addOne [10;0;255;255]) /\
  length (addOne [10;0;255;255]) = length [10;0;255;255] /\
  ipval (addOne [10;0;255;255])
    = (ipval [10;0;255;255] + 1) mod 2 ^ bitWidth [10;0;255;255] /\
  (ipval [10;0;255;255] = 2 ^ bitWidth [10;0;255;255] - 1 ->
   ipval (addOne [10;0;255;255]) = 0).
Proof.
  assert (Hwf : wf_ip [10;0;255;255]) by wf_bytes.
  split; [exact Hwf|]. exact (addOne_successor [10;0;255;255] Hwf).
Defined.

(** X2 -- [lessThan] on two addresses of one length is the strict order
    of their unsigned big-endian values. *)
Theorem lessThan_unsigned (a b : IP) :
  wf_ip a -> wf_ip b -> length a = length b ->
  (lessThan a b = true <-> ipval a < ipval b).
Proof.
  intros Ha Hb Hlen. rewrite (lessThan_spec a b Ha Hb Hlen).
  apply Z.ltb_lt.
Qed.

Lemma lessThan_unsigned_witness :
  wf_ip [10;0;0;255] /\ wf_ip [10;0;1;0] /\
  length [10;0;0;255] = length [10;0;1;0] /\
  (lessThan [10;0;0;255] [10;0;1;0] = true <->
   ipval [10;0;0;255] < ipval [10;0;1;0]).
Proof.
  assert (Ha : wf_ip [10;0;0;255]) by wf_bytes.
  assert (Hb : wf_ip [10;0;1;0]) by wf_bytes.
  split; [exact Ha|]. split; [exact Hb|]. split; [reflexivity|].
  exact (lessThan_unsigned [10;0;0;255] [10;0;1;0] Ha Hb eq_refl).
Defined.

(** X3 -- [xor] of two addresses of one length returns an address of that
    length whose value is the bitwise exclusive-or of the two values. *)
Theorem xor_value (a b : IP) :
  wf_ip a -> wf_ip b -> length a = length b ->
  exists x, xor a b = Done x /\ wf_ip x /\ length x = length a /\
            ipval x = Z.lxor (ipval a) (ipval b).
Proof. exact (xor_spec a b). Qed.

Lemma xor_value_witness :
  wf_ip [192;168;2;0] /\ wf_ip [192;168;1;0] /\
  length [192;168;2;0] = length [192;168;1;0] /\
  exists x, xor [192;168;2;0] [192;168;1;0] = Done x /\ wf_ip x /\
            length x = length [192;168;2;0] /\
            ipval x = Z.lxor (ipval [192;168;2;0]) (ipval [192;168;1;0]).
Proof.
  assert (Ha : wf_ip [192;168;2;0]) by wf_bytes.
  assert (Hb : wf_ip [192;168;1;0]) by wf_bytes.
  split; [exact Ha|]. split; [exact Hb|]. split; [reflexivity|].
  exact (xor_value [192;168;2;0] [192;168;1;0] Ha Hb eq_refl).
Defined.

(** X4 -- [xor] faults exactly when its second argument is shorter than
    its first; bytes of the second argument beyond the length of the
    first are ignored. *)
Theorem xor_faults_iff (a b : IP) :
  (xor a b = Panic <-> (length b < length a)%nat) /\
  ((length a <= length b)%nat ->
   exists x, xor a b = Done x /\ length x = length a /\
             xor a (firstn (length a) b) = Done x).
Proof.
  revert b. induction a as [|x a IH]; intros b.
  - split.
    + split; [discriminate|cbn; lia].
    + intros _. exists []. repeat split.
  - destruct b as [|y b].
    + split.
      * split; [cbn; lia|reflexivity].
      * cbn. lia.
    + destruct (IH b) as [IH1 IH2]. cbn [xor length firstn]. split.
      * split.
        -- intros H. destruct (Nat.lt_ge_cases (length b) (length a)) as [Hlt|Hge];
             [lia|exfalso].
           destruct (IH2 Hge) as (r & Hr & _). rewrite Hr in H.
           cbn [mbind outcome_bind obind] in H. discriminate.
        -- intros H. rewrite (proj2 IH1) by lia. reflexivity.
      * intros Hle. destruct (IH2 ltac:(lia)) as (r & Hr & Hlr & Hf).
        exists (Z.lxor x y :: r). rewrite Hr, Hf.
        cbn [mbind outcome_bind obind length]. repeat split. congruence.
Qed.

Lemma LeadingZeros8_lower (b : Z) :
  is_byte b -> b <> 0 -> 2 ^ (7 - LeadingZeros8 b) <= b.
Proof.
  unfold is_byte, LeadingZeros8, Len8. intros Hb Hne.
  destruct (Z.eqb_spec b 0) as [|_]; [contradiction|].
  replace (7 - (8 - (Z.log2 b + 1))) with (Z.log2 b) by lia.
  apply Z.log2_spec. lia.
Qed.

Lemma prefixLength_from_lower (x : IP) (i : Z) :
  wf_ip x ->
  prefixLength_from i x < (i + len x) * 8 ->
  2 ^ ((i + len x) * 8 - prefixLength_from i x - 1) <= ipval x.
Proof.
  revert i. induction x as [|b rest IH]; intros i Hwf Hlt.
  - cbn [prefixLength_from] in Hlt. rewrite len_nil in Hlt. lia.
  - apply wf_ip_cons in Hwf as [Hb Hrest].
    cbn [prefixLength_from] in *. rewrite len_cons, ipval_cons in *.
    pose proof (len_nonneg rest) as Hl.
    pose proof (ipval_bound rest Hrest) as Br.
    destruct (Z.eqb_spec b 0) as [->|Hne]; cbn [negb] in *.
    + replace (i + (len rest + 1)) with (i + 1 + len rest) in * by lia.
      rewrite Z.mul_0_l, Z.add_0_l. apply IH; assumption.
    + destruct (LeadingZeros8_spec b Hb Hne) as [H1 _].
      pose proof (LeadingZeros8_lower b Hb Hne) as H2.
      replace ((i + (len rest + 1)) * 8 - (i * 8 + LeadingZeros8 b) - 1)
        with ((7 - LeadingZeros8 b) + 8 * len rest) by lia.
      rewrite pow2_split by lia.
      pose proof (pow2_pos (8 * len rest) ltac:(lia)) as HP.
      generalize dependent (2 ^ (8 * len rest)). intros P Br HP.
      generalize dependent (2 ^ (7 - LeadingZeros8 b)). intros Q HQ. nia.
Qed.

(** X5 -- [prefixLength] is the number of leading zero bits: it lies
    between 0 and the bit width, the value fits in the remaining bits,
    and unless all bits are zero the first remaining bit is set. *)
Theorem prefixLength_leading_zeros (x : IP) :
  wf_ip x ->
  0 <= prefixLength x <= bitWidth x /\
  ipval x < 2 ^ (bitWidth x - prefixLength x) /\
  (prefixLength x < bitWidth x ->
   2 ^ (bitWidth x - prefixLength x - 1) <= ipval x) /\
  (prefixLength x = bitWidth x <-> ipval x = 0).
Proof.
  intros Hwf. unfold bitWidth.
  destruct (prefixLength_spec x Hwf) as [Hr Hub].
  assert (Hlow : prefixLength x < 8 * len x ->
                 2 ^ (8 * len x - prefixLength x - 1) <= ipval x).
  { intros Hlt. pose proof (prefixLength_from_lower x 0 Hwf) as H.
    unfold prefixLength in *.
    replace ((0 + len x) * 8) with (8 * len x) in H by lia. apply H, Hlt. }
  split; [exact Hr|]. split; [exact Hub|]. split; [exact Hlow|].
  pose proof (ipval_bound x Hwf) as Bx. split.
  - intros Heq. rewrite Heq, Z.sub_diag in Hub. change (2 ^ 0) with 1 in Hub. lia.
  - intros Hz. destruct (Z.eq_dec (prefixLength x) (8 * len x)) as [|Hne];
      [assumption|exfalso].
    specialize (Hlow ltac:(lia)).
    pose proof (pow2_pos (8 * len x - prefixLength x - 1) ltac:(lia)). lia.
Qed.

Lemma prefixLength_leading_zeros_witness :
  wf_ip [0;0;3;0] /\
  0 <= prefixLength [0;0;3;0] <= bitWidth [0;0;3;0] /\
  ipval [0;0;3;0] < 2 ^ (bitWidth [0;0;3;0] - prefixLength [0;0;3;0]) /\
  (prefixLength [0;0;3;0] < bitWidth [0;0;3;0] ->
   2 ^ (bitWidth [0;0;3;0] - prefixLength [0;0;3;0] - 1) <= ipval [0;0;3;0]) /\
  (prefixLength [0;0;3;0] = bitWidth [0;0;3;0] <-> ipval [0;0;3;0] = 0).
Proof.
  assert (Hwf : wf_ip [0;0;3;0]) by wf_bytes.
  split; [exact Hwf|]. exact (prefixLength_leading_zeros [0;0;3;0] Hwf).
Defined.

(** X6 -- [trailingZeros] is the number of trailing zero bits: it is the
    bit width for the zero address, and otherwise it is below the bit
    width, [2 ^ trailingZeros] divides the value and the quotient is
    odd. *)
Theorem trailingZeros_trailing_zeros (ip : IP) :
  wf_ip ip ->
  (ipval ip = 0 -> trailingZeros ip = bitWidth ip) /\
  (ipval ip <> 0 ->
   0 <= trailingZeros ip < bitWidth ip /\
   ipval ip mod 2 ^ trailingZeros ip = 0 /\
   Z.odd (ipval ip / 2 ^ trailingZeros ip) = true).
Proof.
  intros Hwf. unfold bitWidth. split.
  - apply trailingZeros_zero, Hwf.
  - intros Hne. destruct (trailingZeros_nonzero ip Hwf Hne) as [H1 H2].
    pose proof (trailingZeros_range ip Hwf) as H3.
    split; [lia|]. split; [apply trailingZeros_divides, Hwf|exact H2].
Qed.

Lemma trailingZeros_trailing_zeros_witness :
  wf_ip [10;0;12;0] /\
  (ipval [10;0;12;0] = 0 -> trailingZeros [10;0;12;0] = bitWidth [10;0;12;0]) /\
  (ipval [10;0;12;0] <> 0 ->
   0 <= trailingZeros [10;0;12;0] < bitWidth [10;0;12;0] /\
   ipval [10;0;12;0] mod 2 ^ trailingZeros [10;0;12;0] = 0 /\
   Z.odd (ipval [10;0;12;0] / 2 ^ trailingZeros [10;0;12;0]) = true).
Proof.
  assert (Hwf : wf_ip [10;0;12;0]) by wf_bytes.
  split; [exact Hwf|]. exact (trailingZeros_trailing_zeros [10;0;12;0] Hwf).
Defined.

(** X7 -- [lastIp] of a block whose mask is the CIDR mask of [ones] bits
    keeps the bits of the base above the host part and sets every host
    bit: the result is the last address of the block, and it is not
    below the base. *)
Theorem lastIp_cidr (ip : IP) (ones : Z) :
  wf_ip ip -> family ip -> 0 <= ones <= bitWidth ip ->
  exists t,
    lastIp (mkIPNet ip (CIDRMask ones (bitWidth ip))) = Done t /\
    wf_ip t /\ length t = length ip /\
    ipval t = ipval ip / 2 ^ (bitWidth ip - ones) * 2 ^ (bitWidth ip - ones)
              + 2 ^ (bitWidth ip - ones) - 1 /\
    ipval ip <= ipval t < ipval ip + 2 ^ (bitWidth ip - ones).
Proof.
  intros Hwf Hfam Hones.
  pose proof (CIDRMask_family ip ones Hfam Hones) as Hmask.
  unfold bitWidth in *. replace (len ip * 8) with (8 * len ip) in Hmask by lia.
  destruct (lastIp_bytes_spec ip ones Hwf Hones) as (t & Ht & Hwt & Hlt & Hv).
  exists t. unfold lastIp. cbn [IPNet_IP IPNet_Mask]. rewrite Hmask.
  split; [exact Ht|]. split; [exact Hwt|]. split; [exact Hlt|].
  split; [exact Hv|].
  pose proof (pow2_pos (8 * len ip - ones) ltac:(lia)) as Hp.
  pose proof (Z.div_mod (ipval ip) (2 ^ (8 * len ip - ones)) ltac:(lia)) as Hdm.
  pose proof (Z.mod_pos_bound (ipval ip) (2 ^ (8 * len ip - ones)) Hp) as Hm.
  lia.
Qed.

Lemma lastIp_cidr_witness :
  wf_ip [192;168;1;77] /\ family [192;168;1;77] /\
  0 <= 20 <= bitWidth [192;168;1;77] /\
  exists t,
    lastIp (mkIPNet [192;168;1;77] (CIDRMask 20 (bitWidth [192;168;1;77])))
      = Done t /\
    wf_ip t /\ length t = length [192;168;1;77] /\
    ipval t = ipval [192;168;1;77] / 2 ^ (bitWidth [192;168;1;77] - 20)
                * 2 ^ (bitWidth [192;168;1;77] - 20)
              + 2 ^ (bitWidth [192;168;1;77] - 20) - 1 /\
    ipval [192;168;1;77] <= ipval t
      < ipval [192;168;1;77] + 2 ^ (bitWidth [192;168;1;77] - 20).
Proof.
  assert (Hwf : wf_ip [192;168;1;77]) by wf_bytes.
  assert (Hfam : family [192;168;1;77]) by (left; reflexivity).
  assert (Hones : 0 <= 20 <= bitWidth [192;168;1;77]) by (vm_compute; split; discriminate).
  split; [exact Hwf|]. split; [exact Hfam|]. split; [exact Hones|].
  exact (lastIp_cidr [192;168;1;77] 20 Hwf Hfam Hones).
Defined.

Lemma lastIp_bytes_outcome (ip : IP) (mask : IPMask) :
  (lastIp_bytes ip mask = Panic <-> (length mask < length ip)%nat) /\
  ((length ip <= length mask)%nat ->
   exists t, lastIp_bytes ip mask = Done t /\ length t = length ip).
Proof.
  revert mask. induction ip as [|b ip IH]; intros mask.
  - split.
    + split; [discriminate|cbn; lia].
    + intros _. exists []. split; reflexivity.
  - destruct mask as [|m mask].
    + split.
      * split; [cbn; lia|reflexivity].
      * cbn. lia.
    + destruct (IH mask) as [IH1 IH2]. cbn [lastIp_bytes length]. split.
      * split.
        -- intros H. destruct (Nat.lt_ge_cases (length mask) (length ip)) as [Hlt|Hge];
             [lia|exfalso].
           destruct (IH2 Hge) as (r & Hr & _). rewrite Hr in H.
           cbn [mbind outcome_bind obind] in H. discriminate.
        -- intros H. rewrite (proj2 IH1) by lia. reflexivity.
      * intros Hle. destruct (IH2 ltac:(lia)) as (r & Hr & Hlr).
        exists (Z.lor b (255 - m) :: r). rewrite Hr.
        cbn [mbind outcome_bind obind]. split; [reflexivity|].
        cbn [length]. rewrite Hlr. reflexivity.
Qed.

(** X8 -- [lastIp] faults exactly when the mask is shorter than the
    address; otherwise it returns an address of the same length. *)
Theorem lastIp_faults_iff (n : IPNet) :
  (lastIp n = Panic <-> (length (IPNet_Mask n) < length (IPNet_IP n))%nat) /\
  ((length (IPNet_IP n) <= length (IPNet_Mask n))%nat ->
   exists t, lastIp n = Done t /\ length t = length (IPNet_IP n)).
Proof. exact (lastIp_bytes_outcome (IPNet_IP n) (IPNet_Mask n)). Qed.

(* ===================================================================== *)
(** ** Further properties: Range.ToIpNets *)
(* ===================================================================== *)

Lemma loop_tiles (e : IP) (m : nat) :
  wf_ip e -> family e ->
  forall s, wf_ip s -> length s = length e -> ipval s <= ipval e ->
  mu s e <= Z.of_nat m ->
  exists l L,
    (forall fuel acc, (m <= fuel)%nat ->
       ToIpNets_loop fuel s e (len e * 8) acc = Done (acc ++ l)) /\
    tiles (ipval e) (ipval s) l L /\
    ipval e <= L <= 2 ^ bitWidth e - 1.
Proof.
  intros He Hfam. induction m as [|m IH]; intros s Hs Hlen Hle Hmu.
  { destruct (mu_bounds s e Hs He Hlen) as [[Hlo _] _]. lia. }
  assert (Hfs : family s) by (unfold family in *; rewrite Hlen; exact Hfam).
  destruct (loop_step s e Hs He Hlen Hfs Hle)
    as (x & tmp & Hx & Hrange & Hmask & Htmp & Hwt & Hlt & Hal & Htv & Hcont).
  cbv zeta in *. rewrite (len_eq s e Hlen) in *.
  unfold bitWidth in *. rewrite (len_eq s e Hlen) in *.
  set (cidr := max (prefixLength x) (len e * 8 - trailingZeros s)) in *.
  set (n := mkIPNet s (CIDRMask cidr (len e * 8))) in *.
  assert (Hcmp : bytesCompare s e <> Gt).
  { rewrite (bytesCompare_spec s e Hs He Hlen). intros Hgt.
    apply Z.compare_gt_iff in Hgt. lia. }
  assert (Hless : lessThan tmp e = (ipval tmp <? ipval e)).
  { apply lessThan_spec; [assumption..|congruence]. }
  assert (Hst : ipval s <= ipval tmp).
  { pose proof (pow2_pos (8 * len e - cidr) ltac:(lia)). lia. }
  assert (Btmp : ipval tmp <= 2 ^ (8 * len e) - 1).
  { pose proof (ipval_bound tmp Hwt) as B.
    rewrite (len_eq tmp e ltac:(congruence)) in B. lia. }
  destruct (Z.ltb_spec (ipval tmp) (ipval e)) as [Hlt'|Hge'].
  - destruct (Hcont Hlt') as (Hnext & Hmu1 & Hmu2).
    destruct (IH (addOne tmp) (addOne_wf tmp Hwt)
                ltac:(rewrite addOne_length; congruence) ltac:(lia) ltac:(lia))
      as (l' & L & Hrun & Htiles & HL).
    exists (n :: l'), L. split; [|split; [|exact HL]].
    + intros [|fuel] acc Hfuel; [lia|].
      rewrite (ToIpNets_loop_unfold fuel s e _ acc x tmp Hcmp Hx Htmp).
      cbv zeta. fold cidr. fold n. rewrite Hless.
      destruct (Z.ltb_spec (ipval tmp) (ipval e)); [|lia]. cbn [negb].
      rewrite Hrun by lia. rewrite <- app_assoc. reflexivity.
    + rewrite Hnext in Htiles.
      exact (tiles_more (ipval e) n tmp l' L Htmp Hst Hlt' Htiles).
  - exists [n], (ipval tmp). split; [|split; [|lia]].
    + intros [|fuel] acc Hfuel; [lia|].
      rewrite (ToIpNets_loop_unfold fuel s e _ acc x tmp Hcmp Hx Htmp).
      cbv zeta. fold cidr. fold n. rewrite Hless.
      destruct (Z.ltb_spec (ipval tmp) (ipval e)); [lia|]. reflexivity.
    + exact (tiles_last (ipval e) n tmp Htmp Hst).
Qed.

Lemma ToIpNets_tiling (r : Range) :
  wf_interval r -> ipval (start r) <= ipval (end_ r) ->
  exists l L,
    Range_ToIpNets r = Done l /\
    tiles (ipval (end_ r)) (ipval (start r)) l L /\
    ipval (end_ r) <= L <= 2 ^ bitWidth (start r) - 1.
Proof.
  intros Hwf Hle. pose proof (mu_enough r Hwf) as Hmu.
  destruct Hwf as [(Hs & He & Hlen) Hfam].
  assert (Hfe : family (end_ r)) by (unfold family in *; rewrite <- Hlen; exact Hfam).
  destruct (loop_tiles (end_ r) _ He Hfe (start r) Hs Hlen Hle Hmu)
    as (l & L & Hrun & Htiles & HL).
  exists l, L. split; [|split; [exact Htiles|]].
  - unfold Range_ToIpNets, Range_ToIpNets_fuel, enough_fuel.
    rewrite (len_eq _ _ Hlen). apply (Hrun _ []). lia.
  - unfold bitWidth in *. rewrite (len_eq _ _ Hlen). exact HL.
Qed.

Lemma tiles_le (e s L : Z) (l : list IPNet) : tiles e s l L -> s <= L.
Proof. induction 1; lia. Qed.

Lemma in_block_iff (n : IPNet) (t : IP) (a : Z) :
  lastIp n = Done t ->
  (in_block n a <-> ipval (IPNet_IP n) <= a <= ipval t).
Proof.
  intros Ht. unfold in_block. split.
  - intros (t' & Ht' & Ha). rewrite Ht in Ht'. injection Ht' as <-. exact Ha.
  - intros Ha. exists t. split; assumption.
Qed.

Lemma tiles_covered (e s L : Z) (l : list IPNet) :
  tiles e s l L -> forall a, covered l a <-> s <= a <= L.
Proof.
  unfold covered. induction 1 as [n t Ht Hst|n t l L Ht Hst Hte Htiles IH]; intros a.
  - rewrite List.Exists_cons, List.Exists_nil, (in_block_iff n t a Ht). tauto.
  - rewrite List.Exists_cons, IH, (in_block_iff n t a Ht).
    pose proof (tiles_le _ _ _ _ Htiles). lia.
Qed.

(** X9 -- The decomposition of a well-formed interval of either family
    returns, and its result is the empty list exactly when [start] is
    above [end]. *)
Theorem ToIpNets_empty_iff (r : Range) :
  wf_interval r ->
  exists l, Range_ToIpNets r = Done l /\
            (l = [] <-> ipval (end_ r) < ipval (start r)).
Proof.
  intros Hwf.
  destruct (Z.le_gt_cases (ipval (start r)) (ipval (end_ r))) as [Hle|Hgt].
  - destruct (ToIpNets_done r Hwf Hle) as (l & Hrun & Hlen & _).
    exists l. split; [exact Hrun|]. split; [|lia].
    intros ->. rewrite len_nil in Hlen. lia.
  - exists []. split; [|tauto].
    destruct Hwf as [(Hs & He & Hlen) _].
    unfold Range_ToIpNets, enough_fuel, Range_ToIpNets_fuel.
    apply ToIpNets_loop_inverted.
    rewrite (bytesCompare_spec _ _ Hs He Hlen). apply Z.compare_gt_iff. lia.
Qed.

Lemma ToIpNets_empty_iff_witness :
  wf_interval (mkRange [10;0;0;1] [10;0;0;9]) /\
  exists l, Range_ToIpNets (mkRange [10;0;0;1] [10;0;0;9]) = Done l /\
            (l = [] <-> ipval (end_ (mkRange [10;0;0;1] [10;0;0;9]))
                        < ipval (start (mkRange [10;0;0;1] [10;0;0;9]))).
Proof.
  assert (Hwf : wf_interval (mkRange [10;0;0;1] [10;0;0;9])) by wf_interval_tac.
  split; [exact Hwf|].
  exact (ToIpNets_empty_iff (mkRange [10;0;0;1] [10;0;0;9]) Hwf).
Defined.

(** X10 -- The blocks returned for a well-formed interval with
    [start <= end] follow one another without gap or overlap: the first
    starts at [start], each next block starts one past the last address
    of the block before it, every block but the last ends before [end],
    and the last block ends at an address [L] with [end <= L].  Their
    union is exactly [start, L]. *)
Theorem ToIpNets_tiles_interval (r : Range) :
  wf_interval r -> ipval (start r) <= ipval (end_ r) ->
  exists l L,
    Range_ToIpNets r = Done l /\
    tiles (ipval (end_ r)) (ipval (start r)) l L /\
    ipval (end_ r) <= L <= 2 ^ bitWidth (start r) - 1 /\
    forall a, covered l a <-> ipval (start r) <= a <= L.
Proof.
  intros Hwf Hle.
  destruct (ToIpNets_tiling r Hwf Hle) as (l & L & Hrun & Htiles & HL).
  exists l, L. split; [exact Hrun|]. split; [exact Htiles|].
  split; [exact HL|]. apply (tiles_covered _ _ _ _ Htiles).
Qed.

Lemma ToIpNets_tiles_interval_witness :
  wf_interval (mkRange [10;0;0;3] [10;0;2;17]) /\
  ipval (start (mkRange [10;0;0;3] [10;0;2;17]))
    <= ipval (end_ (mkRange [10;0;0;3] [10;0;2;17])) /\
  exists l L,
    Range_ToIpNets (mkRange [10;0;0;3] [10;0;2;17]) = Done l /\
    tiles (ipval (end_ (mkRange [10;0;0;3] [10;0;2;17])))
          (ipval (start (mkRange [10;0;0;3] [10;0;2;17]))) l L /\
    ipval (end_ (mkRange [10;0;0;3] [10;0;2;17])) <= L
      <= 2 ^ bitWidth (start (mkRange [10;0;0;3] [10;0;2;17])) - 1 /\
    forall a, covered l a <->
              ipval (start (mkRange [10;0;0;3] [10;0;2;17])) <= a <= L.
Proof.
  assert (Hwf : wf_interval (mkRange [10;0;0;3] [10;0;2;17])) by wf_interval_tac.
  assert (Hle : ipval (start (mkRange [10;0;0;3] [10;0;2;17]))
                <= ipval (end_ (mkRange [10;0;0;3] [10;0;2;17]))) by le_by_compute.
  split; [exact Hwf|]. split; [exact Hle|].
  exact (ToIpNets_tiles_interval (mkRange [10;0;0;3] [10;0;2;17]) Hwf Hle).
Defined.

(** X11 -- When a well-formed interval ends at the last address of its
    family, the blocks returned cover exactly the interval. *)
Theorem ToIpNets_exact_at_top (r : Range) :
  wf_interval r -> ipval (start r) <= ipval (end_ r) ->
  ipval (end_ r) = 2 ^ bitWidth (start r) - 1 ->
  exists l, Range_ToIpNets r = Done l /\
            forall a, covered l a <-> in_range r a.
Proof.
  intros Hwf Hle Htop.
  destruct (ToIpNets_tiling r Hwf Hle) as (l & L & Hrun & Htiles & HL).
  exists l. split; [exact Hrun|]. intros a.
  rewrite (tiles_covered _ _ _ _ Htiles). unfold in_range. lia.
Qed.

Lemma ToIpNets_exact_at_top_witness :
  wf_interval (mkRange [200;0;0;3] [255;255;255;255]) /\
  ipval (start (mkRange [200;0;0;3] [255;255;255;255]))
    <= ipval (end_ (mkRange [200;0;0;3] [255;255;255;255])) /\
  ipval (end_ (mkRange [200;0;0;3] [255;255;255;255]))
    = 2 ^ bitWidth (start (mkRange [200;0;0;3] [255;255;255;255])) - 1 /\
  exists l, Range_ToIpNets (mkRange [200;0;0;3] [255;255;255;255]) = Done l /\
            forall a, covered l a <->
                      in_range (mkRange [200;0;0;3] [255;255;255;255]) a.
Proof.
  assert (Hwf : wf_interval (mkRange [200;0;0;3] [255;255;255;255]))
    by wf_interval_tac.
  assert (Hle : ipval (start (mkRange [200;0;0;3] [255;255;255;255]))
                <= ipval (end_ (mkRange [200;0;0;3] [255;255;255;255])))
    by le_by_compute.
  assert (Htop : ipval (end_ (mkRange [200;0;0;3] [255;255;255;255]))
                 = 2 ^ bitWidth (start (mkRange [200;0;0;3] [255;255;255;255])) - 1)
    by (vm_compute; reflexivity).
  split; [exact Hwf|]. split; [exact Hle|]. split; [exact Htop|].
  exact (ToIpNets_exact_at_top (mkRange [200;0;0;3] [255;255;255;255])
           Hwf Hle Htop).
Defined.

(** X12 -- The loop of the decomposition ends on every well-formed
    interval of either family, inverted or not: from [bitWidth + 2] units
    of fuel on the answer is the same list, of at most [bitWidth + 1]
    blocks. *)
Theorem ToIpNets_terminates (r : Range) :
  wf_interval r ->
  exists l,
    (forall fuel, (S (S (8 * length (start r))) <= fuel)%nat ->
                  Range_ToIpNets_fuel fuel r = Done l) /\
    len l <= bitWidth (start r) + 1.
Proof.
  intros Hwf.
  destruct (Z.le_gt_cases (ipval (start r)) (ipval (end_ r))) as [Hle|Hgt].
  - destruct (ToIpNets_run r Hwf Hle) as (l & Hrun & Hlen & _).
    exists l. split; [intros fuel Hf; apply Hrun; lia|].
    destruct Hwf as [(Hs & He & Hl) _].
    destruct (mu_bounds _ _ Hs He Hl) as [[_ Hhi] _].
    unfold bitWidth in *. rewrite (len_eq _ _ Hl) in *. lia.
  - exists []. split.
    + intros [|fuel] Hfuel; [lia|].
      destruct Hwf as [(Hs & He & Hlen) _].
      unfold Range_ToIpNets_fuel. apply ToIpNets_loop_inverted.
      rewrite (bytesCompare_spec _ _ Hs He Hlen). apply Z.compare_gt_iff. lia.
    + rewrite len_nil. unfold bitWidth. pose proof (len_nonneg (start r)). lia.
Qed.

Lemma ToIpNets_terminates_witness :
  wf_interval whole_v4 /\
  exists l,
    (forall fuel, (S (S (8 * length (start whole_v4))) <= fuel)%nat ->
                  Range_ToIpNets_fuel fuel whole_v4 = Done l) /\
    len l <= bitWidth (start whole_v4) + 1.
Proof.
  assert (Hwf : wf_interval whole_v4) by wf_interval_tac.
  split; [exact Hwf|]. exact (ToIpNets_terminates whole_v4 Hwf).
Defined.

(** X13 -- On addresses whose length is neither 4 nor 16 bytes (and not
    zero) the decomposition of an interval with [start <= end] faults:
    [net.CIDRMask] returns no mask for that width and [lastIp] indexes
    it. *)
Theorem ToIpNets_other_length_faults (r : Range) (fuel : nat) :
  wf_range r -> ~ family (start r) -> start r <> [] ->
  ipval (start r) <= ipval (end_ r) ->
  Range_ToIpNets_fuel (S fuel) r = Panic.
Proof.
  intros (Hs & He & Hlen) Hnf Hne Hle.
  unfold Range_ToIpNets_fuel. cbn [ToIpNets_loop].
  assert (Hcmp : bytesCompare (start r) (end_ r) <> Gt).
  { rewrite (bytesCompare_spec _ _ Hs He Hlen). intros Hgt.
    apply Z.compare_gt_iff in Hgt. lia. }
  destruct (xor_spec (addOne (end_ r)) (start r) (addOne_wf _ He) Hs
              ltac:(rewrite addOne_length; congruence)) as (x & Hx & _).
  assert (Hmask : forall ones, CIDRMask ones (len (start r) * 8) = []).
  { intros ones. unfold CIDRMask, family, IPv4len, IPv6len, len in *.
    destruct (Z.eqb_spec (Z.of_nat (length (start r)) * 8) (8 * 4)) as [H4|H4];
      [exfalso; apply Hnf; left; lia|].
    destruct (Z.eqb_spec (Z.of_nat (length (start r)) * 8) (8 * 16)) as [H16|H16];
      [exfalso; apply Hnf; right; lia|].
    reflexivity. }
  destruct (bytesCompare (start r) (end_ r)); try contradiction;
    rewrite Hx; cbn [mbind outcome_bind obind];
    unfold lastIp; cbn [IPNet_IP IPNet_Mask]; rewrite Hmask;
    destruct (start r); [contradiction|reflexivity|contradiction|reflexivity].
Qed.

Lemma ToIpNets_other_length_faults_witness :
  wf_range (mkRange [1;2] [1;3]) /\ ~ family (start (mkRange [1;2] [1;3])) /\
  start (mkRange [1;2] [1;3]) <> [] /\
  ipval (start (mkRange [1;2] [1;3])) <= ipval (end_ (mkRange [1;2] [1;3])) /\
  Range_ToIpNets_fuel 1 (mkRange [1;2] [1;3]) = Panic.
Proof.
  assert (Hwf : wf_range (mkRange [1;2] [1;3]))
    by (split; [wf_bytes|split; [wf_bytes|reflexivity]]).
  assert (Hnf : ~ family (start (mkRange [1;2] [1;3])))
    by (intros [H|H]; discriminate H).
  assert (Hne : start (mkRange [1;2] [1;3]) <> []) by discriminate.
  assert (Hle : ipval (start (mkRange [1;2] [1;3]))
                <= ipval (end_ (mkRange [1;2] [1;3]))) by le_by_compute.
  split; [exact Hwf|]. split; [exact Hnf|]. split; [exact Hne|].
  split; [exact Hle|].
  exact (ToIpNets_other_length_faults (mkRange [1;2] [1;3]) 0 Hwf Hnf Hne Hle).
Defined.

(* ===================================================================== *)
(** ** Further properties: the three shapes *)
(* ===================================================================== *)

Lemma bytesCompare_eq_iff (a b : list byte) : bytesCompare a b = Eq <-> a = b.
Proof.
  revert b. induction a as [|x a IH]; intros [|y b]; cbn [bytesCompare];
    try (split; intros H; discriminate H); [tauto|].
  destruct (Z.compare_spec x y) as [->|Hlt|Hgt].
  - rewrite IH. split; [intros ->; reflexivity|intros H; injection H; tauto].
  - split; [discriminate|]. intros H. injection H as -> _. lia.
  - split; [discriminate|]. intros H. injection H as -> _. lia.
Qed.

Lemma allFF_cidr_bytes (n : Z) (l : nat) :
  0 <= n <= 8 * Z.of_nat l -> allFF (cidr_bytes n l) = (n =? 8 * Z.of_nat l).
Proof.
  revert n. induction l as [|l IH]; intros n Hn.
  - cbn. replace n with 0 by lia. reflexivity.
  - cbn [cidr_bytes]. destruct (Z.leb_spec 8 n) as [H8|H8].
    + unfold allFF in *. cbn [forallb]. change (255 =? 255) with true.
      cbn [andb]. rewrite IH by lia.
      destruct (Z.eqb_spec (n - 8) (8 * Z.of_nat l));
        destruct (Z.eqb_spec n (8 * Z.of_nat (S l))); try reflexivity; lia.
    + unfold allFF. cbn [forallb].
      destruct (Z.eqb_spec n (8 * Z.of_nat (S l))) as [|_]; [lia|].
      assert (n = 0 \/ n = 1 \/ n = 2 \/ n = 3 \/ n = 4 \/ n = 5 \/ n = 6 \/ n = 7)
        as Hcases by lia.
      destruct Hcases as [->|[->|[->|[->|[->|[->|[->| ->]]]]]]]; reflexivity.
Qed.

Lemma cidr_bytes_length (n : Z) (l : nat) : length (cidr_bytes n l) = l.
Proof.
  revert n. induction l as [|l IH]; intros n; [reflexivity|].
  cbn [cidr_bytes]. destruct (8 <=? n); cbn [length]; rewrite IH; reflexivity.
Qed.

Lemma lastIp_bytes_allFF (ip : IP) (mask : IPMask) :
  allFF mask = true -> (length ip <= length mask)%nat ->
  lastIp_bytes ip mask = Done ip.
Proof.
  revert mask. induction ip as [|b ip IH]; intros mask Hff Hlen; [reflexivity|].
  destruct mask as [|m mask]; [cbn in Hlen; lia|].
  unfold allFF in Hff. cbn [forallb] in Hff.
  apply andb_true_iff in Hff as [Hm Hff]. apply Z.eqb_eq in Hm. subst m.
  cbn [lastIp_bytes]. rewrite IH; [|exact Hff|cbn in Hlen; lia].
  cbn [mbind outcome_bind obind]. change (255 - 255) with 0.
  rewrite Z.lor_0_r. reflexivity.
Qed.

(** X14 -- [IpNetWrapper.ToIp] on a block with the CIDR mask of [ones]
    bits returns the base address when [ones] is the bit width and
    nothing for every shorter prefix. *)
Theorem IpNetWrapper_ToIp_cidr (ip : IP) (ones : Z) :
  family ip -> 0 <= ones <= bitWidth ip ->
  IpNetWrapper_ToIp (mkIPNet ip (CIDRMask ones (bitWidth ip)))
  = if ones =? bitWidth ip then Some ip else None.
Proof.
  intros Hfam Hones. pose proof (CIDRMask_family ip ones Hfam Hones) as Hmask.
  unfold bitWidth in *. replace (len ip * 8) with (8 * len ip) in Hmask by lia.
  unfold IpNetWrapper_ToIp. cbn [IPNet_IP IPNet_Mask]. rewrite Hmask.
  rewrite allFF_cidr_bytes by (unfold len in Hones; lia).
  destruct ip as [|b ip]; [|reflexivity].
  destruct Hfam as [H|H]; discriminate H.
Qed.

Lemma IpNetWrapper_ToIp_cidr_witness :
  family [10;0;0;0] /\ 0 <= 24 <= bitWidth [10;0;0;0] /\
  IpNetWrapper_ToIp (mkIPNet [10;0;0;0] (CIDRMask 24 (bitWidth [10;0;0;0])))
  = if 24 =? bitWidth [10;0;0;0] then Some [10;0;0;0] else None.
Proof.
  assert (Hfam : family [10;0;0;0]) by (left; reflexivity).
  assert (Hones : 0 <= 24 <= bitWidth [10;0;0;0]) by (vm_compute; split; discriminate).
  split; [exact Hfam|]. split; [exact Hones|].
  exact (IpNetWrapper_ToIp_cidr [10;0;0;0] 24 Hfam Hones).
Defined.

(** X15 -- When [IpNetWrapper.ToIp] returns an address and the mask is
    not shorter than the address, [IpNetWrapper.ToRange] is the interval
    of that one address; whatever the mask, the address returned is the
    base of the block. *)
Theorem IpNetWrapper_ToIp_ToRange (n : IPNet) (ip : IP) :
  IpNetWrapper_ToIp n = Some ip ->
  ip = IPNet_IP n /\
  ((length (IPNet_IP n) <= length (IPNet_Mask n))%nat ->
   IpNetWrapper_ToRange n = Done (mkRange ip ip)).
Proof.
  unfold IpNetWrapper_ToIp. destruct (allFF (IPNet_Mask n)) eqn:Hff; [|discriminate].
  destruct (IPNet_IP n) as [|b rest] eqn:Hbase; [discriminate|]. rewrite <- Hbase.
  intros H. injection H as <-. split; [reflexivity|]. intros Hlen.
  unfold IpNetWrapper_ToRange, lastIp.
  rewrite (lastIp_bytes_allFF _ _ Hff Hlen). reflexivity.
Qed.

Lemma IpNetWrapper_ToIp_ToRange_witness :
  IpNetWrapper_ToIp single_10_0_0_7 = Some [10;0;0;7] /\
  [10;0;0;7] = IPNet_IP single_10_0_0_7 /\
  ((length (IPNet_IP single_10_0_0_7)
    <= length (IPNet_Mask single_10_0_0_7))%nat ->
   IpNetWrapper_ToRange single_10_0_0_7 = Done (mkRange [10;0;0;7] [10;0;0;7])).
Proof.
  split; [reflexivity|].
  exact (IpNetWrapper_ToIp_ToRange single_10_0_0_7 [10;0;0;7] eq_refl).
Defined.

(** X16 -- The views of a single address agree: the interval of
    [IpWrapper.ToRange] collapses back to the address under [Range.ToIp],
    and the block of [IpWrapper.ToIpNets] has the full prefix length,
    collapses to the address under [IpNetWrapper.ToIp] and has the same
    interval under [IpNetWrapper.ToRange]. *)
Theorem IpWrapper_views_agree (ip : IP) :
  family ip ->
  Range_ToIp (IpWrapper_ToRange ip) = Some ip /\
  exists n, IpWrapper_ToIpNets ip = [n] /\
            IPNet_IP n = ip /\ prefixLen n = bitWidth ip /\
            IpNetWrapper_ToIp n = Some ip /\
            IpNetWrapper_ToRange n = Done (IpWrapper_ToRange ip).
Proof.
  intros Hfam. split.
  - unfold Range_ToIp, IpWrapper_ToRange. cbn [start end_].
    rewrite (proj2 (bytesCompare_eq_iff ip ip) eq_refl).
    destruct ip as [|b ip]; [|reflexivity].
    destruct Hfam as [H|H]; discriminate H.
  - assert (Hones : 0 <= len ip * 8 <= bitWidth ip)
      by (unfold bitWidth; pose proof (len_nonneg ip); lia).
    pose proof (CIDRMask_family ip (len ip * 8) Hfam Hones) as Hmask.
    assert (Hff : allFF (cidr_bytes (len ip * 8) (length ip)) = true).
    { rewrite allFF_cidr_bytes by (unfold len; lia).
      apply Z.eqb_eq. unfold len. lia. }
    exists (mkIPNet ip (CIDRMask (len ip * 8) (len ip * 8))).
    split; [reflexivity|]. split; [reflexivity|]. rewrite Hmask. split.
    + unfold prefixLen, bitWidth. cbn [IPNet_Mask].
      rewrite maskOnes_cidr_bytes by (unfold len; lia). lia.
    + assert (Hip : IpNetWrapper_ToIp
                      (mkIPNet ip (cidr_bytes (len ip * 8) (length ip))) = Some ip).
      { unfold IpNetWrapper_ToIp. cbn [IPNet_IP IPNet_Mask]. rewrite Hff.
        destruct ip as [|b ip]; [|reflexivity].
        destruct Hfam as [H|H]; discriminate H. }
      split; [exact Hip|].
      unfold IpNetWrapper_ToRange, lastIp, IpWrapper_ToRange.
      cbn [IPNet_IP IPNet_Mask].
      rewrite (lastIp_bytes_allFF _ _ Hff); [reflexivity|].
      rewrite cidr_bytes_length. lia.
Qed.

Lemma IpWrapper_views_agree_witness :
  family [10;0;0;4] /\
  Range_ToIp (IpWrapper_ToRange [10;0;0;4]) = Some [10;0;0;4] /\
  exists n, IpWrapper_ToIpNets [10;0;0;4] = [n] /\
            IPNet_IP n = [10;0;0;4] /\ prefixLen n = bitWidth [10;0;0;4] /\
            IpNetWrapper_ToIp n = Some [10;0;0;4] /\
            IpNetWrapper_ToRange n = Done (IpWrapper_ToRange [10;0;0;4]).
Proof.
  assert (Hfam : family [10;0;0;4]) by (left; reflexivity).
  split; [exact Hfam|]. exact (IpWrapper_views_agree [10;0;0;4] Hfam).
Defined.

(** X17 -- [IpNetWrapper.ToRange] of a block with the CIDR mask of [ones]
    bits is a well-formed interval that starts at the base, with
    [start <= end]; when the base is aligned it holds exactly
    [2 ^ (bitWidth - ones)] addresses. *)
Theorem IpNetWrapper_ToRange_cidr (ip : IP) (ones : Z) :
  wf_ip ip -> family ip -> 0 <= ones <= bitWidth ip ->
  exists r,
    IpNetWrapper_ToRange (mkIPNet ip (CIDRMask ones (bitWidth ip))) = Done r /\
    start r = ip /\ wf_cell (length ip) r /\
    (ipval ip mod 2 ^ (bitWidth ip - ones) = 0 ->
     ipval (end_ r) = ipval ip + 2 ^ (bitWidth ip - ones) - 1).
Proof.
  intros Hwf Hfam Hones.
  pose proof (CIDRMask_family ip ones Hfam Hones) as Hmask.
  unfold bitWidth in *. replace (len ip * 8) with (8 * len ip) in Hmask by lia.
  destruct (lastIp_bytes_spec ip ones Hwf Hones) as (t & Ht & Hwt & Hlt & Hv).
  exists (mkRange ip t). unfold IpNetWrapper_ToRange, lastIp.
  cbn [IPNet_IP IPNet_Mask]. rewrite Hmask, Ht.
  split; [reflexivity|]. split; [reflexivity|].
  pose proof (pow2_pos (8 * len ip - ones) ltac:(lia)) as Hp.
  pose proof (Z.div_mod (ipval ip) (2 ^ (8 * len ip - ones)) ltac:(lia)) as Hdm.
  pose proof (Z.mod_pos_bound (ipval ip) (2 ^ (8 * len ip - ones)) Hp) as Hm.
  split.
  - unfold wf_cell. cbn [start end_].
    split; [exact Hwf|]. split; [exact Hwt|]. split; [reflexivity|].
    split; [exact Hlt|]. lia.
  - cbn [end_]. intros Hal. rewrite Hal in Hdm. lia.
Qed.

Lemma IpNetWrapper_ToRange_cidr_witness :
  wf_ip [192;168;2;0] /\ family [192;168;2;0] /\
  0 <= 23 <= bitWidth [192;168;2;0] /\
  exists r,
    IpNetWrapper_ToRange
      (mkIPNet [192;168;2;0] (CIDRMask 23 (bitWidth [192;168;2;0]))) = Done r /\
    start r = [192;168;2;0] /\ wf_cell (length [192;168;2;0]) r /\
    (ipval [192;168;2;0] mod 2 ^ (bitWidth [192;168;2;0] - 23) = 0 ->
     ipval (end_ r)
     = ipval [192;168;2;0] + 2 ^ (bitWidth [192;168;2;0] - 23) - 1).
Proof.
  assert (Hwf : wf_ip [192;168;2;0]) by wf_bytes.
  assert (Hfam : family [192;168;2;0]) by (left; reflexivity).
  assert (Hones : 0 <= 23 <= bitWidth [192;168;2;0])
    by (vm_compute; split; discriminate).
  split; [exact Hwf|]. split; [exact Hfam|]. split; [exact Hones|].
  exact (IpNetWrapper_ToRange_cidr [192;168;2;0] 23 Hwf Hfam Hones).
Defined.

Lemma ipval_inj (a b : IP) :
  wf_ip a -> wf_ip b -> length a = length b -> ipval a = ipval b -> a = b.
Proof.
  intros Ha Hb Hlen Hv. apply bytesCompare_eq_iff.
  rewrite (bytesCompare_spec a b Ha Hb Hlen). apply Z.compare_eq_iff, Hv.
Qed.

(** X18 -- On a well-formed interval of non-empty addresses [Range.ToIp]
    returns an address exactly when the interval holds a single address,
    that is when the values of [start] and [end] are equal; the address
    returned is [start] and it is the one address of the interval. *)
Theorem Range_ToIp_single_address (r : Range) :
  wf_range r -> start r <> [] ->
  ((exists ip, Range_ToIp r = Some ip) <-> ipval (start r) = ipval (end_ r)) /\
  (forall ip, Range_ToIp r = Some ip ->
              ip = start r /\ forall a, in_range r a <-> a = ipval ip) /\
  (Range_ToIp r = None <-> ipval (start r) <> ipval (end_ r)).
Proof.
  intros (Hs & He & Hlen) Hne.
  pose proof (bytesCompare_spec _ _ Hs He Hlen) as Hcmp.
  unfold Range_ToIp, in_range. rewrite Hcmp.
  destruct (Z.compare_spec (ipval (start r)) (ipval (end_ r))) as [Heq|Hlt|Hgt].
  - destruct (start r) as [|b rest] eqn:Hst; [contradiction|]. rewrite <- Hst in *.
    split; [split; [intros _; exact Heq|intros _; eauto]|]. split.
    + intros ip H. injection H as <-. split; [reflexivity|].
      intros a. rewrite <- Heq. lia.
    + split; [discriminate|]. intros H. contradiction.
  - split; [split; [intros (ip & H); discriminate H|lia]|].
    split; [intros ip H; discriminate H|]. split; [lia|reflexivity].
  - split; [split; [intros (ip & H); discriminate H|lia]|].
    split; [intros ip H; discriminate H|]. split; [lia|reflexivity].
Qed.

Lemma Range_ToIp_single_address_witness :
  wf_range (mkRange [10;0;0;5] [10;0;0;5]) /\
  start (mkRange [10;0;0;5] [10;0;0;5]) <> [] /\
  ((exists ip, Range_ToIp (mkRange [10;0;0;5] [10;0;0;5]) = Some ip) <->
   ipval (start (mkRange [10;0;0;5] [10;0;0;5]))
   = ipval (end_ (mkRange [10;0;0;5] [10;0;0;5]))) /\
  (forall ip, Range_ToIp (mkRange [10;0;0;5] [10;0;0;5]) = Some ip ->
              ip = start (mkRange [10;0;0;5] [10;0;0;5]) /\
              forall a, in_range (mkRange [10;0;0;5] [10;0;0;5]) a
                        <-> a = ipval ip) /\
  (Range_ToIp (mkRange [10;0;0;5] [10;0;0;5]) = None <->
   ipval (start (mkRange [10;0;0;5] [10;0;0;5]))
   <> ipval (end_ (mkRange [10;0;0;5] [10;0;0;5]))).
Proof.
  assert (Hwf : wf_range (mkRange [10;0;0;5] [10;0;0;5]))
    by (split; [wf_bytes|split; [wf_bytes|reflexivity]]).
  assert (Hne : start (mkRange [10;0;0;5] [10;0;0;5]) <> []) by discriminate.
  split; [exact Hwf|]. split; [exact Hne|].
  exact (Range_ToIp_single_address (mkRange [10;0;0;5] [10;0;0;5]) Hwf Hne).
Defined.

Lemma trailingZeros_odd (ip : IP) :
  wf_ip ip -> Z.odd (ipval ip) = true -> trailingZeros ip = 0.
Proof.
  intros Hwf Hodd.
  assert (Hne : ipval ip <> 0) by (intros H; rewrite H in Hodd; discriminate).
  pose proof (trailingZeros_range ip Hwf) as [Hlo _].
  pose proof (trailingZeros_divides ip Hwf) as Hdiv.
  destruct (Z.eq_dec (trailingZeros ip) 0) as [|Hnz]; [assumption|exfalso].
  apply (mod_pow2_le _ _ 1) in Hdiv; [|lia].
  change (2 ^ 1) with 2 in Hdiv.
  rewrite Zmod_odd, Hodd in Hdiv. discriminate.
Qed.

(** X24 -- For an address of either family whose last bit is set, the
    interval [a, a] decomposes into the block that [IpWrapper.ToIpNets]
    returns for [a]: the single block [a/bitWidth]. *)
Theorem ToIpNets_single_odd (ip : IP) :
  wf_ip ip -> family ip -> Z.odd (ipval ip) = true ->
  Range_ToIpNets (IpWrapper_ToRange ip) = Done (IpWrapper_ToIpNets ip).
Proof.
  intros Hwf Hfam Hodd.
  destruct (loop_step ip ip Hwf Hwf eq_refl Hfam ltac:(lia))
    as (x & tmp & Hx & Hrange & _ & Htmp & Hwt & Hlt & _ & Htv & _).
  cbv zeta in *.
  rewrite (trailingZeros_odd ip Hwf Hodd) in *.
  destruct (prefixLength_spec x) as [[Hp0 Hp1] _].
  { destruct (xor_spec (addOne ip) ip (addOne_wf ip Hwf) Hwf (addOne_length ip))
      as (x' & Hx' & Hwx' & _). rewrite Hx in Hx'. injection Hx' as <-. exact Hwx'. }
  assert (Hlx : len x = len ip).
  { destruct (xor_spec (addOne ip) ip (addOne_wf ip Hwf) Hwf (addOne_length ip))
      as (x' & Hx' & _ & Hlx' & _). rewrite Hx in Hx'. injection Hx' as <-.
    apply len_eq. rewrite Hlx'. apply addOne_length. }
  rewrite Hlx in Hp1.
  assert (Hcidr : max (prefixLength x) (len ip * 8 - 0) = len ip * 8).
  { rewrite max_spec. lia. }
  rewrite Hcidr in *. unfold bitWidth in Htv.
  replace (8 * len ip - len ip * 8) with 0 in Htv by lia.
  change (2 ^ 0) with 1 in Htv.
  unfold Range_ToIpNets, Range_ToIpNets_fuel, enough_fuel, IpWrapper_ToRange,
    IpWrapper_ToIpNets. cbn [start end_].
  rewrite (ToIpNets_loop_unfold _ ip ip _ [] x tmp).
  - cbv zeta. rewrite (trailingZeros_odd ip Hwf Hodd), Hcidr.
    rewrite (lessThan_spec tmp ip Hwt Hwf Hlt).
    destruct (Z.ltb_spec (ipval tmp) (ipval ip)); [lia|]. reflexivity.
  - rewrite (proj2 (bytesCompare_eq_iff ip ip) eq_refl). discriminate.
  - exact Hx.
  - rewrite (trailingZeros_odd ip Hwf Hodd), Hcidr. exact Htmp.
Qed.

Lemma ToIpNets_single_odd_witness :
  wf_ip [10;0;0;5] /\ family [10;0;0;5] /\ Z.odd (ipval [10;0;0;5]) = true /\
  Range_ToIpNets (IpWrapper_ToRange [10;0;0;5])
  = Done (IpWrapper_ToIpNets [10;0;0;5]).
Proof.
  assert (Hwf : wf_ip [10;0;0;5]) by wf_bytes.
  assert (Hfam : family [10;0;0;5]) by (left; reflexivity).
  assert (Hodd : Z.odd (ipval [10;0;0;5]) = true) by (vm_compute; reflexivity).
  split; [exact Hwf|]. split; [exact Hfam|]. split; [exact Hodd|].
  exact (ToIpNets_single_odd [10;0;0;5] Hwf Hfam Hodd).
Defined.

(* ===================================================================== *)
(** ** Further properties: MergeRanges *)
(* ===================================================================== *)

Lemma merge_loop_out (rest : list loc) :
  forall cur res h out h',
    merge_loop rest cur res h = Done (out, h') ->
    exists outl,
      out = res ++ List.map IRange_Range outl /\
      (forall p, List.In p outl -> List.In p (cur :: rest)) /\
      (1 <= length outl <= S (length rest))%nat.
Proof.
  induction rest as [|next rest IH]; intros cur res h out h' Hrun.
  - cbn in Hrun. injection Hrun as <- <-. exists [cur].
    split; [reflexivity|]. split; [intros p Hp; exact Hp|cbn; lia].
  - cbn [merge_loop] in Hrun.
    destruct (deref h cur) as [c| |]; cbn [mbind outcome_bind obind] in Hrun;
      try discriminate.
    destruct (deref h next) as [n| |]; cbn [mbind outcome_bind obind] in Hrun;
      try discriminate.
    assert (Hkeep : forall h0, merge_loop rest cur res h0 = Done (out, h') ->
              exists outl,
                out = res ++ List.map IRange_Range outl /\
                (forall p, List.In p outl -> List.In p (cur :: next :: rest)) /\
                (1 <= length outl <= S (length (next :: rest)))%nat).
    { intros h0 H0. destruct (IH _ _ _ _ _ H0) as (outl & Ho & Hin & Hl).
      exists outl. split; [exact Ho|]. split; [|cbn [length]; lia].
      intros p Hp. destruct (Hin p Hp) as [<-|Hr]; [left; reflexivity|].
      right. right. exact Hr. }
    assert (Hemit : merge_loop rest next (res ++ [IRange_Range cur]) h
                    = Done (out, h') ->
              exists outl,
                out = res ++ List.map IRange_Range outl /\
                (forall p, List.In p outl -> List.In p (cur :: next :: rest)) /\
                (1 <= length outl <= S (length (next :: rest)))%nat).
    { intros H0. destruct (IH _ _ _ _ _ H0) as (outl & Ho & Hin & Hl).
      exists (cur :: outl). split; [|split; [|cbn [length]; lia]].
      - rewrite Ho, <- app_assoc. reflexivity.
      - intros p [<-|Hp]; [left; reflexivity|]. right. apply Hin, Hp. }
    destruct (bytesCompare (addOne (end_ c)) (start n));
      [|exact (Hemit Hrun)|];
      destruct (bytesCompare (end_ c) (end_ n)); exact (Hkeep _ Hrun).
Qed.

Lemma merge_loop_ends (rest : list loc) :
  forall cur res h out h',
    merge_loop rest cur res h = Done (out, h') ->
    forall p r', h' !! p = Some r' ->
      exists q r, h !! q = Some r /\ end_ r' = end_ r /\
                  (q = p \/ List.In q (cur :: rest)).
Proof.
  induction rest as [|next rest IH]; intros cur res h out h' Hrun p r' Hp.
  - cbn in Hrun. injection Hrun as <- <-. exists p, r'. auto.
  - cbn [merge_loop] in Hrun.
    destruct (deref h cur) as [c| |] eqn:Hc;
      cbn [mbind outcome_bind obind] in Hrun; try discriminate.
    destruct (deref h next) as [n| |] eqn:Hn;
      cbn [mbind outcome_bind obind] in Hrun; try discriminate.
    apply deref_Done in Hc. apply deref_Done in Hn.
    assert (Hsame : forall res0 cur0,
              (cur0 = cur \/ cur0 = next) ->
              merge_loop rest cur0 res0 h = Done (out, h') ->
              exists q r, h !! q = Some r /\ end_ r' = end_ r /\
                          (q = p \/ List.In q (cur :: next :: rest))).
    { intros res0 cur0 Hcur0 H0.
      destruct (IH _ _ _ _ _ H0 p r' Hp) as (q & r & Hq & He & Hor).
      exists q, r. split; [exact Hq|]. split; [exact He|].
      destruct Hor as [->|[<-|Hin]]; [left; reflexivity| |right; right; right; exact Hin].
      right. destruct Hcur0 as [->| ->]; [left|right; left]; reflexivity. }
    assert (Hupd : merge_loop rest cur res (<[cur := mkRange (start c) (end_ n)]> h)
                   = Done (out, h') ->
              exists q r, h !! q = Some r /\ end_ r' = end_ r /\
                          (q = p \/ List.In q (cur :: next :: rest))).
    { intros H0.
      destruct (IH _ _ _ _ _ H0 p r' Hp) as (q & r & Hq & He & Hor).
      destruct (Nat.eq_dec q cur) as [->|Hne].
      - rewrite list_lookup_insert_eq in Hq by (eapply lookup_lt_Some, Hc).
        injection Hq as <-. cbn [end_] in He.
        exists next, n. split; [exact Hn|]. split; [exact He|].
        right. right. left. reflexivity.
      - rewrite list_lookup_insert_ne in Hq by congruence.
        exists q, r. split; [exact Hq|]. split; [exact He|].
        destruct Hor as [->|[<-|Hin]];
          [left; reflexivity|contradiction|right; right; right; exact Hin]. }
    destruct (bytesCompare (addOne (end_ c)) (start n)).
    + destruct (bytesCompare (end_ c) (end_ n));
        [exact (Hsame res cur (or_introl eq_refl) Hrun)
        |exact (Hupd Hrun)
        |exact (Hsame res cur (or_introl eq_refl) Hrun)].
    + exact (Hsame _ next (or_intror eq_refl) Hrun).
    + destruct (bytesCompare (end_ c) (end_ n));
        [exact (Hsame res cur (or_introl eq_refl) Hrun)
        |exact (Hupd Hrun)
        |exact (Hsame res cur (or_introl eq_refl) Hrun)].
Qed.

Lemma converted_origin (h h1 : heap) (ys : list IRange) (ps : list loc) :
  Forall2 (fun x p => forall r, normalize h x = Done r -> h1 !! p = Some r) ys ps ->
  (forall y, List.In y ys -> exists r, normalize h y = Done r) ->
  forall p, List.In p ps ->
    exists y r, List.In y ys /\ normalize h y = Done r /\ h1 !! p = Some r.
Proof.
  induction 1 as [|y q ys qs Hy _ IH]; intros Hn p Hp; [destruct Hp|].
  destruct Hp as [<-|Hp].
  - destruct (Hn y ltac:(left; reflexivity)) as (r & Hr).
    exists y, r. split; [left; reflexivity|]. split; [exact Hr|apply Hy, Hr].
  - destruct (IH ltac:(intros z Hz; apply Hn; right; exact Hz) p Hp)
      as (z & r & Hz & Hr & Hq).
    exists z, r. split; [right; exact Hz|]. split; assumption.
Qed.

Lemma map_IRange_Range_inj (l1 l2 : list loc) :
  List.map IRange_Range l1 = List.map IRange_Range l2 -> l1 = l2.
Proof.
  revert l2. induction l1 as [|a l1 IH]; intros [|b l2] H;
    try discriminate; [reflexivity|].
  cbn in H. injection H as -> H. f_equal. apply IH, H.
Qed.

Lemma separated_canonical (n : nat) (h : heap) (l : list loc) :
  (forall p, List.In p l ->
     exists r, h !! p = Some r /\ wf_cell n r /\ ipval (end_ r) <> top n) ->
  ForallOrdPairs (separated n h) l ->
  canonical (interval_values h l).
Proof.
  intros Hcells Hsep. unfold canonical, interval_values. split.
  - apply List.Forall_forall. intros iv Hiv.
    apply List.in_map_iff in Hiv as (p & <- & Hp).
    destruct (Hcells p Hp) as (r & Hr & Hwr & _).
    unfold rstart, rend. rewrite Hr. cbn [fst snd]. apply Hwr.
  - induction Hsep as [|a l Ha Hsep IH]; cbn [List.map]; [constructor|].
    constructor.
    + apply List.Forall_forall. intros iv Hiv.
      apply List.in_map_iff in Hiv as (b & <- & Hb).
      rewrite List.Forall_forall in Ha.
      destruct (Ha b Hb) as (ra & rb & Hra & Hrb & _ & _ & Hstrict).
      destruct (Hcells a ltac:(left; reflexivity)) as (ra' & Hra' & _ & Hnt).
      rewrite Hra in Hra'. injection Hra' as <-.
      unfold rstart, rend. rewrite Hra, Hrb. cbn [fst snd]. apply Hstrict, Hnt.
    + apply IH. intros p Hp. apply Hcells. right. exact Hp.
Qed.

Lemma values_cover_locs (h : heap) (l : list loc) (a : Z) :
  (forall p, List.In p l -> is_Some (h !! p)) ->
  (values_cover (interval_values h l) a <-> covers_locs h l a).
Proof.
  intros Hv. unfold values_cover, interval_values, covers_locs, covered_by. split.
  - intros (iv & Hiv & Ha). apply List.in_map_iff in Hiv as (p & <- & Hp).
    destruct (Hv p Hp) as (r & Hr). exists p. split; [exact Hp|].
    exists r. split; [exact Hr|]. unfold rstart, rend in Ha.
    rewrite Hr in Ha. exact Ha.
  - intros (p & Hp & r & Hr & Ha). exists (rstart h p, rend h p).
    split; [apply List.in_map_iff; exists p; split; [reflexivity|exact Hp]|].
    unfold rstart, rend. rewrite Hr. exact Ha.
Qed.

(** On a collection of well-formed intervals none of which ends at the
    last address the output is in canonical form and covers what the
    input covers. *)
Lemma MergeRanges_canonical_run
    (sortSlice : (loc -> loc -> bool) -> list loc -> list loc)
    (n : nat) (h : heap) (ranges : list IRange) :
  sort_permutes sortSlice -> sort_orders sortSlice ->
  wf_inputs n h ranges -> below_top n h ranges ->
  exists outl h',
    MergeRanges sortSlice ranges h = Done (List.map IRange_Range outl, h') /\
    canonical (interval_values h' outl) /\
    forall a, values_cover (interval_values h' outl) a <-> covers h ranges a.
Proof.
  intros Hperm Hord Hwf Hbt. destruct ranges as [|x xs].
  { exists [], h. split; [reflexivity|]. split.
    - split; constructor.
    - intros a. split; [intros (iv & [] & _)|intros (y & r & [] & _)]. }
  destruct (MergeRanges_prepare sortSlice n h x xs Hperm Hord Hwf)
    as (rangeList & h1 & cur & rest & Hconv & Hsort & Hcells & Hsorted & Hcov).
  destruct (merge_loop_spec n (rstart h1) rest cur [] h1 Hcells Hsorted I
              ltac:(intros a []))
    as (outl & h' & Hrun & Hok & Hch & Hcov' & Hne).
  cbn [rev List.map] in Hrun.
  assert (Horigin : forall q, List.In q (cur :: rest) ->
            exists y r, List.In y (x :: xs) /\ normalize h y = Done r /\
                        h1 !! q = Some r).
  { destruct (toRangeList_inv _ _ _ _ _ Hconv) as (ps & fresh & Hl & _ & Hall).
    cbn [app] in Hl. subst rangeList.
    apply sortRangeList_inv in Hsort.
    intros q Hq. rewrite Hsort in Hq.
    apply (Permutation_in _ (Permutation_sym (Hperm _ _))) in Hq.
    apply (converted_origin h h1 (x :: xs) ps); [| |exact Hq].
    - eapply Forall2_impl; [exact Hall|]. intros y p [_ Hy]. exact Hy.
    - intros y Hy. destruct (Hwf y Hy) as (r & Hr & _). eauto. }
  assert (Hsub : forall p, List.In p outl -> List.In p (cur :: rest)).
  { destruct (merge_loop_out _ _ _ _ _ _ Hrun) as (outl0 & Ho & Hin & _).
    cbn [app] in Ho. apply map_IRange_Range_inj in Ho. subst outl0. exact Hin. }
  assert (Hnt : forall p, List.In p outl ->
            exists r, h' !! p = Some r /\ wf_cell n r /\ ipval (end_ r) <> top n).
  { intros p Hp. destruct (Hok p Hp) as (r' & Hr' & Hwr' & _).
    exists r'. split; [exact Hr'|]. split; [exact Hwr'|].
    destruct (merge_loop_ends _ _ _ _ _ _ Hrun p r' Hr') as (q & r & Hq & He & Hor).
    assert (Hqin : List.In q (cur :: rest))
      by (destruct Hor as [->|Hin]; [apply Hsub, Hp|exact Hin]).
    destruct (Horigin q Hqin) as (y & r0 & Hy & Hn0 & Hq0).
    rewrite Hq in Hq0. injection Hq0 as <-. rewrite He.
    apply (Hbt y r Hy Hn0). }
  exists outl, h'. split; [|split].
  - unfold MergeRanges. rewrite Hconv. cbn [mbind outcome_bind obind].
    rewrite Hsort. cbn [mbind outcome_bind obind]. exact Hrun.
  - apply (separated_canonical n); [exact Hnt|].
    apply (chain_separated n (rstart h1)); assumption.
  - intros a. rewrite values_cover_locs.
    + rewrite Hcov'. apply Hcov.
    + intros p Hp. destruct (Hnt p Hp) as (r & Hr & _). rewrite Hr. eauto.
Qed.

Lemma canonical_head_least (s e : Z) (t : list (Z * Z)) (iv : Z * Z) :
  canonical ((s, e) :: t) -> List.In iv ((s, e) :: t) ->
  s <= fst iv /\ (List.In iv t -> e + 1 < fst iv).
Proof.
  intros [Hwf Hsep] Hin. inversion Hsep as [|? ? Hhd _]; subst.
  rewrite List.Forall_forall in Hhd.
  apply List.Forall_cons_iff in Hwf as [Hse _]. cbn [fst snd] in *.
  split.
  - destruct Hin as [<-|Hin]; [cbn; lia|]. specialize (Hhd iv Hin). cbn in Hhd. lia.
  - intros Ht. specialize (Hhd iv Ht). cbn in Hhd. exact Hhd.
Qed.

Lemma canonical_tail (iv : Z * Z) (t : list (Z * Z)) :
  canonical (iv :: t) -> canonical t.
Proof.
  intros [Hwf Hsep]. split.
  - apply List.Forall_cons_iff in Hwf. apply Hwf.
  - inversion Hsep; assumption.
Qed.

(** Two canonical lists that cover the same addresses are the same
    list. *)
Lemma canonical_unique (l1 : list (Z * Z)) :
  forall l2, canonical l1 -> canonical l2 ->
             (forall a, values_cover l1 a <-> values_cover l2 a) ->
             l1 = l2.
Proof.
  induction l1 as [|[s1 e1] t1 IH]; intros l2 Hc1 Hc2 Hcov.
  - destruct l2 as [|[s2 e2] t2]; [reflexivity|exfalso].
    destruct Hc2 as [Hwf _]. apply List.Forall_cons_iff in Hwf as [Hse _].
    cbn in Hse.
    destruct (proj2 (Hcov s2)) as (iv & [] & _).
    exists (s2, e2). split; [left; reflexivity|cbn; lia].
  - destruct l2 as [|[s2 e2] t2].
    { exfalso. destruct Hc1 as [Hwf _].
      apply List.Forall_cons_iff in Hwf as [Hse _]. cbn in Hse.
      destruct (proj1 (Hcov s1)) as (iv & [] & _).
      exists (s1, e1). split; [left; reflexivity|cbn; lia]. }
    assert (Hse1 : s1 <= e1).
    { destruct Hc1 as [Hwf _]. apply List.Forall_cons_iff in Hwf as [H _]. exact H. }
    assert (Hse2 : s2 <= e2).
    { destruct Hc2 as [Hwf _]. apply List.Forall_cons_iff in Hwf as [H _]. exact H. }
    assert (Hin1 : forall a, s1 <= a <= e1 -> values_cover ((s1, e1) :: t1) a).
    { intros a Ha. exists (s1, e1). split; [left; reflexivity|exact Ha]. }
    assert (Hin2 : forall a, s2 <= a <= e2 -> values_cover ((s2, e2) :: t2) a).
    { intros a Ha. exists (s2, e2). split; [left; reflexivity|exact Ha]. }
    (* the first intervals start at the same address *)
    assert (Hs : s1 = s2).
    { destruct (proj1 (Hcov s1) (Hin1 s1 ltac:(lia))) as (iv & Hiv & Ha).
      destruct (canonical_head_least _ _ _ _ Hc2 Hiv) as [H2 _].
      destruct (proj2 (Hcov s2) (Hin2 s2 ltac:(lia))) as (iv' & Hiv' & Ha').
      destruct (canonical_head_least _ _ _ _ Hc1 Hiv') as [H1 _]. lia. }
    subst s2.
    (* and end at the same address *)
    assert (Hend : forall sa ea ta sb eb tb,
              canonical ((sa, ea) :: ta) -> canonical ((sb, eb) :: tb) ->
              sa = sb -> sa <= ea -> sb <= eb ->
              (forall a, values_cover ((sa, ea) :: ta) a ->
                         values_cover ((sb, eb) :: tb) a) ->
              ea <= eb).
    { intros sa ea ta sb eb tb Ha Hb -> Hsa Hsb Hsub.
      destruct (Z.le_gt_cases ea eb) as [|Hgt]; [assumption|exfalso].
      destruct (Hsub (eb + 1)) as (iv & Hiv & Hcv).
      { exists (sb, ea). split; [left; reflexivity|cbn; lia]. }
      destruct Hiv as [<-|Hiv]; [cbn in Hcv; lia|].
      destruct (canonical_head_least _ _ _ _ Hb (or_intror Hiv)) as [_ H].
      specialize (H Hiv). lia. }
    assert (He : e1 = e2).
    { apply Z.le_antisymm.
      - apply (Hend s1 e1 t1 s1 e2 t2); auto. intros a. apply Hcov.
      - apply (Hend s1 e2 t2 s1 e1 t1); auto. intros a. apply Hcov. }
    subst e2. f_equal.
    apply IH; [exact (canonical_tail _ _ Hc1)|exact (canonical_tail _ _ Hc2)|].
    assert (Htail : forall ta tb,
              canonical ((s1, e1) :: ta) -> canonical ((s1, e1) :: tb) ->
              (forall a, values_cover ((s1, e1) :: ta) a ->
                         values_cover ((s1, e1) :: tb) a) ->
              forall a, values_cover ta a -> values_cover tb a).
    { intros ta tb Ha Hb Hsub a (iv & Hiv & Hcv).
      destruct (canonical_head_least _ _ _ _ Ha (or_intror Hiv)) as [_ H].
      specialize (H Hiv).
      destruct (Hsub a) as (iv' & Hiv' & Hcv').
      { exists iv. split; [right; exact Hiv|exact Hcv]. }
      destruct Hiv' as [<-|Hiv']; [cbn in Hcv'; lia|].
      exists iv'. split; assumption. }
    intros a. split.
    + apply (Htail t1 t2 Hc1 Hc2). intros b. apply Hcov.
    + apply (Htail t2 t1 Hc2 Hc1). intros b. apply Hcov.
Qed.

(** X20 -- On a collection of well-formed intervals of one length, none
    of which ends at the last address, [MergeRanges] returns intervals in
    canonical form: each has [start <= end], they are in increasing
    order, pairwise disjoint and not adjacent; and they cover exactly the
    addresses of the input. *)
Theorem MergeRanges_canonical
    (sortSlice : (loc -> loc -> bool) -> list loc -> list loc)
    (n : nat) (h : heap) (ranges : list IRange) :
  sort_permutes sortSlice -> sort_orders sortSlice ->
  wf_inputs n h ranges -> below_top n h ranges ->
  exists outl h',
    MergeRanges sortSlice ranges h = Done (List.map IRange_Range outl, h') /\
    canonical (interval_values h' outl) /\
    forall a, values_cover (interval_values h' outl) a <-> covers h ranges a.
Proof. exact (MergeRanges_canonical_run sortSlice n h ranges). Qed.

Lemma inputs_mixed_below_top : below_top 4 heap_scenario3 inputs_mixed.
Proof.
  intros x r Hx Hn. unfold inputs_mixed in Hx. cbn [List.In] in Hx.
  destruct Hx as [<-|[<-|[<-|[<-|[<-|[]]]]]];
    vm_compute in Hn; injection Hn as <-; vm_compute; discriminate.
Defined.

Lemma MergeRanges_canonical_witness :
  sort_permutes insertionSort /\ sort_orders insertionSort /\
  wf_inputs 4 heap_scenario3 inputs_mixed /\
  below_top 4 heap_scenario3 inputs_mixed /\
  exists outl h',
    MergeRanges insertionSort inputs_mixed heap_scenario3
      = Done (List.map IRange_Range outl, h') /\
    canonical (interval_values h' outl) /\
    forall a, values_cover (interval_values h' outl) a
              <-> covers heap_scenario3 inputs_mixed a.
Proof.
  split; [exact insertionSort_permutes|].
  split; [exact insertionSort_orders|].
  split; [exact inputs_mixed_wf|].
  split; [exact inputs_mixed_below_top|].
  exact (MergeRanges_canonical insertionSort 4 heap_scenario3 inputs_mixed
           insertionSort_permutes insertionSort_orders inputs_mixed_wf
           inputs_mixed_below_top).
Defined.

(** X21 -- The result of [MergeRanges] depends only on the addresses
    covered: two collections of well-formed intervals, none ending at the
    last address, that cover the same addresses give the same list of
    intervals, whatever the order, the duplicates, the shapes and the
    heaps of the inputs. *)
Theorem MergeRanges_covered_only
    (sortSlice : (loc -> loc -> bool) -> list loc -> list loc)
    (n : nat) (h1 h2 : heap) (xs1 xs2 : list IRange) :
  sort_permutes sortSlice -> sort_orders sortSlice ->
  wf_inputs n h1 xs1 -> below_top n h1 xs1 ->
  wf_inputs n h2 xs2 -> below_top n h2 xs2 ->
  (forall a, covers h1 xs1 a <-> covers h2 xs2 a) ->
  exists o1 h1' o2 h2',
    MergeRanges sortSlice xs1 h1 = Done (List.map IRange_Range o1, h1') /\
    MergeRanges sortSlice xs2 h2 = Done (List.map IRange_Range o2, h2') /\
    interval_values h1' o1 = interval_values h2' o2.
Proof.
  intros Hperm Hord Hwf1 Hbt1 Hwf2 Hbt2 Hsame.
  destruct (MergeRanges_canonical_run sortSlice n h1 xs1 Hperm Hord Hwf1 Hbt1)
    as (o1 & h1' & Hrun1 & Hc1 & Hcov1).
  destruct (MergeRanges_canonical_run sortSlice n h2 xs2 Hperm Hord Hwf2 Hbt2)
    as (o2 & h2' & Hrun2 & Hc2 & Hcov2).
  exists o1, h1', o2, h2'. split; [exact Hrun1|]. split; [exact Hrun2|].
  apply canonical_unique; [exact Hc1|exact Hc2|].
  intros a. rewrite Hcov1, Hcov2. apply Hsame.
Qed.

Lemma MergeRanges_covered_only_witness :
  sort_permutes insertionSort /\ sort_orders insertionSort /\
  wf_inputs 4 heap_scenario3 inputs_mixed /\
  below_top 4 heap_scenario3 inputs_mixed /\
  wf_inputs 4 heap_scenario3 (rev inputs_mixed) /\
  below_top 4 heap_scenario3 (rev inputs_mixed) /\
  (forall a, covers heap_scenario3 inputs_mixed a
             <-> covers heap_scenario3 (rev inputs_mixed) a) /\
  exists o1 h1' o2 h2',
    MergeRanges insertionSort inputs_mixed heap_scenario3
      = Done (List.map IRange_Range o1, h1') /\
    MergeRanges insertionSort (rev inputs_mixed) heap_scenario3
      = Done (List.map IRange_Range o2, h2') /\
    interval_values h1' o1 = interval_values h2' o2.
Proof.
  assert (Hwf2 : wf_inputs 4 heap_scenario3 (rev inputs_mixed)).
  { intros x Hx. apply List.in_rev in Hx. exact (inputs_mixed_wf x Hx). }
  assert (Hbt2 : below_top 4 heap_scenario3 (rev inputs_mixed)).
  { intros x r Hx. apply List.in_rev in Hx. exact (inputs_mixed_below_top x r Hx). }
  assert (Hsame : forall a, covers heap_scenario3 inputs_mixed a
                            <-> covers heap_scenario3 (rev inputs_mixed) a).
  { intros a. unfold covers. split; intros (x & r & Hx & Hr); exists x, r;
      (split; [|exact Hr]); [apply List.in_rev in Hx|apply List.in_rev]; exact Hx. }
  split; [exact insertionSort_permutes|].
  split; [exact insertionSort_orders|].
  split; [exact inputs_mixed_wf|].
  split; [exact inputs_mixed_below_top|].
  split; [exact Hwf2|]. split; [exact Hbt2|]. split; [exact Hsame|].
  exact (MergeRanges_covered_only insertionSort 4 heap_scenario3 heap_scenario3
           inputs_mixed (rev inputs_mixed)
           insertionSort_permutes insertionSort_orders
           inputs_mixed_wf inputs_mixed_below_top Hwf2 Hbt2 Hsame).
Defined.

Lemma converted_pointers (h h1 : heap) (ys : list IRange) (ps : list loc) :
  Forall2 (fun x p =>
             (x = IRange_Range p \/
              ((length h <= p)%nat /\ forall q, x <> IRange_Range q)) /\
             forall r, normalize h x = Done r -> h1 !! p = Some r) ys ps ->
  forall p, List.In p ps ->
    List.In (IRange_Range p) ys \/ (length h <= p)%nat.
Proof.
  induction 1 as [|y q ys qs [Hy _] _ IH]; intros p Hp; [destruct Hp|].
  destruct Hp as [<-|Hp].
  - destruct Hy as [->|[Hge _]]; [left; left; reflexivity|right; exact Hge].
  - destruct (IH p Hp) as [Hin|Hge]; [left; right; exact Hin|right; exact Hge].
Qed.

(** X22 -- [MergeRanges] never returns more intervals than it was given
    and returns at least one for a non-empty collection; every interval
    returned is a [*Range]: one that was handed in, or one that the call
    itself allocated. *)
Theorem MergeRanges_outputs
    (sortSlice : (loc -> loc -> bool) -> list loc -> list loc)
    (ranges : list IRange) (h : heap) (out : list IRange) (h' : heap) :
  sort_permutes sortSlice ->
  MergeRanges sortSlice ranges h = Done (out, h') ->
  (length out <= length ranges)%nat /\
  (ranges <> [] -> out <> []) /\
  forall x, List.In x out ->
    exists p, x = IRange_Range p /\
              (List.In (IRange_Range p) ranges \/ (length h <= p)%nat).
Proof.
  intros Hperm Hrun. destruct ranges as [|x0 xs].
  { cbn in Hrun. injection Hrun as <- <-. split; [cbn; lia|].
    split; [intros H; exact H|intros x []]. }
  unfold MergeRanges in Hrun.
  destruct (toRangeList (x0 :: xs) [] h) as [[rangeList h1]| |] eqn:Hconv;
    cbn [mbind outcome_bind obind] in Hrun; try discriminate.
  destruct (sortRangeList sortSlice h1 rangeList) as [sorted| |] eqn:Hsort;
    cbn [mbind outcome_bind obind] in Hrun; try discriminate.
  destruct sorted as [|cur rest]; [discriminate|].
  apply sortRangeList_inv in Hsort.
  destruct (toRangeList_inv _ _ _ _ _ Hconv) as (ps & fresh & Hl & _ & Hall).
  cbn [app] in Hl. subst rangeList.
  destruct (merge_loop_out _ _ _ _ _ _ Hrun) as (outl & Ho & Hin & Hlen).
  cbn [app] in Ho. subst out.
  pose proof (Hperm (less h1) ps) as Hp. rewrite <- Hsort in Hp.
  pose proof (Permutation_length Hp) as Hpl.
  pose proof (Forall2_length _ _ _ Hall) as Hfl.
  rewrite List.length_map. cbn [length] in *. split; [lia|]. split.
  - intros _. destruct outl; [cbn in Hlen; lia|discriminate].
  - intros x Hx. apply List.in_map_iff in Hx as (p & <- & Hpin).
    exists p. split; [reflexivity|].
    apply (converted_pointers h h1 (x0 :: xs) ps Hall).
    apply (Permutation_in _ (Permutation_sym Hp)), Hin, Hpin.
Qed.

Lemma MergeRanges_outputs_witness :
  sort_permutes insertionSort /\
  MergeRanges insertionSort
    [IRange_Range 0%nat; IRange_Range 1%nat; IRange_Range 2%nat] heap_scenario3
  = Done ([IRange_Range 0%nat; IRange_Range 2%nat],
          [ mkRange [192;168;1;1] [192;168;1;100];
            mkRange [192;168;1;30] [192;168;1;100];
            mkRange [192;168;2;1] [192;168;2;50] ]) /\
  (length [IRange_Range 0%nat; IRange_Range 2%nat]
   <= length [IRange_Range 0%nat; IRange_Range 1%nat; IRange_Range 2%nat])%nat /\
  ([IRange_Range 0%nat; IRange_Range 1%nat; IRange_Range 2%nat] <> [] ->
   [IRange_Range 0%nat; IRange_Range 2%nat] <> []) /\
  forall x, List.In x [IRange_Range 0%nat; IRange_Range 2%nat] ->
    exists p, x = IRange_Range p /\
              (List.In (IRange_Range p)
                 [IRange_Range 0%nat; IRange_Range 1%nat; IRange_Range 2%nat] \/
               (length heap_scenario3 <= p)%nat).
Proof.
  assert (Hrun : MergeRanges insertionSort
            [IRange_Range 0%nat; IRange_Range 1%nat; IRange_Range 2%nat]
            heap_scenario3
          = Done ([IRange_Range 0%nat; IRange_Range 2%nat],
                  [ mkRange [192;168;1;1] [192;168;1;100];
                    mkRange [192;168;1;30] [192;168;1;100];
                    mkRange [192;168;2;1] [192;168;2;50] ]))
    by (vm_compute; reflexivity).
  split; [exact insertionSort_permutes|]. split; [exact Hrun|].
  exact (MergeRanges_outputs insertionSort _ _ _ _ insertionSort_permutes Hrun).
Defined.

Lemma toRangeList_short_mask (n : IPNet) (xs : list IRange) :
  (length (IPNet_Mask n) < length (IPNet_IP n))%nat ->
  List.In (IRange_IpNetWrapper n) xs ->
  forall acc h, toRangeList xs acc h = Panic.
Proof.
  intros Hshort. induction xs as [|x xs IH]; intros Hin acc h; [destruct Hin|].
  cbn [toRangeList].
  assert (Hn : lastIp n = Panic).
  { apply (proj1 (lastIp_bytes_outcome _ _)). exact Hshort. }
  destruct Hin as [->|Hin].
  - cbn [ToRange]. unfold IpNetWrapper_ToRange. rewrite Hn. reflexivity.
  - destruct x as [p|ip|m]; cbn [ToRange alloc mbind outcome_bind obind].
    + apply IH, Hin.
    + apply IH, Hin.
    + unfold IpNetWrapper_ToRange.
      destruct (lastIp m) as [t| |] eqn:Hm; cbn [mbind outcome_bind obind].
      * apply IH, Hin.
      * reflexivity.
      * exfalso. destruct (Nat.lt_ge_cases (length (IPNet_Mask m)) (length (IPNet_IP m)))
          as [Hlt|Hge].
        -- unfold lastIp in Hm.
           rewrite (proj2 (proj1 (lastIp_bytes_outcome _ _)) Hlt) in Hm. discriminate.
        -- destruct (proj2 (lastIp_bytes_outcome _ _) Hge) as (t & Ht & _).
           unfold lastIp in Hm. rewrite Ht in Hm. discriminate.
Qed.

(** X23 -- [MergeRanges] faults as soon as one of its inputs is a network
    whose mask is shorter than its address: the fault of [lastIp] in
    [IpNetWrapper.ToRange] is not caught. *)
Theorem MergeRanges_short_mask_faults
    (sortSlice : (loc -> loc -> bool) -> list loc -> list loc)
    (ranges : list IRange) (h : heap) (n : IPNet) :
  List.In (IRange_IpNetWrapper n) ranges ->
  (length (IPNet_Mask n) < length (IPNet_IP n))%nat ->
  MergeRanges sortSlice ranges h = Panic.
Proof.
  intros Hin Hshort. destruct ranges as [|x xs]; [destruct Hin|].
  unfold MergeRanges.
  rewrite (toRangeList_short_mask n (x :: xs) Hshort Hin). reflexivity.
Qed.

Lemma MergeRanges_short_mask_faults_witness :
  List.In (IRange_IpNetWrapper short_mask_net)
    [IRange_IpWrapper [10;0;0;1]; IRange_IpNetWrapper short_mask_net] /\
  (length (IPNet_Mask short_mask_net) < length (IPNet_IP short_mask_net))%nat /\
  MergeRanges insertionSort
    [IRange_IpWrapper [10;0;0;1]; IRange_IpNetWrapper short_mask_net] []
  = Panic.
Proof.
  assert (Hin : List.In (IRange_IpNetWrapper short_mask_net)
                  [IRange_IpWrapper [10;0;0;1]; IRange_IpNetWrapper short_mask_net])
    by (right; left; reflexivity).
  assert (Hshort : (length (IPNet_Mask short_mask_net)
                    < length (IPNet_IP short_mask_net))%nat)
    by (vm_compute; lia).
  split; [exact Hin|]. split; [exact Hshort|].
  exact (MergeRanges_short_mask_faults insertionSort _ [] short_mask_net Hin Hshort).
Defined.

Lemma MergeRanges_shape_witness :
  sort_permutes insertionSort /\ sort_orders insertionSort /\
  wf_inputs 4 heap_scenario3 inputs_mixed /\
  exists outl h',
    MergeRanges insertionSort inputs_mixed heap_scenario3
      = Done (List.map IRange_Range outl, h') /\
    (forall p, List.In p outl -> exists r, h' !! p = Some r /\ wf_cell 4 r) /\
    ForallOrdPairs (separated 4 h') outl.
Proof.
  split; [exact insertionSort_permutes|].
  split; [exact insertionSort_orders|].
  split; [exact inputs_mixed_wf|].
  exact (MergeRanges_shape insertionSort 4 heap_scenario3
           (IRange_IpWrapper [10;0;0;10])
           [ IRange_IpNetWrapper (mkIPNet [10;0;0;0] [255;255;255;248]);
             IRange_Range 1%nat; IRange_IpWrapper [10;0;0;8];
             IRange_Range 0%nat ]
           insertionSort_permutes insertionSort_orders inputs_mixed_wf).
Defined.
